(** * The multi-agent pipeline of sillytavern-multi-agent, embedded in Rocq

    The embedding follows the TypeScript sources file by file:
    - [state.ts]: the shared [GraphState], its per-field reducers;
    - [agents/parser.ts], [agents/narrator.ts], [agents/director.ts],
      [agents/persona.ts], [agents/composer.ts]: the stage functions;
    - [graph.ts]: the fixed topology with the retry back-edge, the run
      and its stream;
    - [config/manager.ts], [config/storage.ts] and the escaping of
      [configurator]: the prompt templates, the configuration store and
      [escapeHtml].

    JavaScript strings are sequences of UTF-16 code units, and the regular
    expressions of the sources work on code units (none carries the [u]
    flag), so a string is a [list N] here.  The language models are opaque
    capabilities: each configured model is a function from what its prompt
    is built from to an invocation outcome. *)

From Stdlib Require Import Ascii String List NArith ZArith Bool Lia.
Import ListNotations.

(* ================================================================== *)
(** ** JavaScript strings *)

Module JS.

(** A UTF-16 code unit. *)
Definition char := N.
Definition jsstring := list char.

Definition byte_of_ascii (a : ascii) : N := N_of_ascii a.

(** Emit one code point as UTF-16 (a surrogate pair above the BMP). *)
Definition utf16_of_code_point (cp : N) : jsstring :=
  if (cp <? 65536)%N then [cp]
  else let v := (cp - 65536)%N in
       [(55296 + N.shiftr v 10)%N; (56320 + N.land v 1023)%N].

(** Decoder of the UTF-8 bytes of a source literal: [pending] continuation
    bytes are still expected for the code point accumulated in [acc]. *)
Fixpoint decode_utf8 (pending : nat) (acc : N) (bs : list N) : jsstring :=
  match bs with
  | [] => []
  | b :: bs' =>
      match pending with
      | O =>
          if (b <? 128)%N then b :: decode_utf8 O 0%N bs'
          else if (b <? 224)%N then decode_utf8 1 (N.land b 31) bs'
          else if (b <? 240)%N then decode_utf8 2 (N.land b 15) bs'
          else decode_utf8 3 (N.land b 7) bs'
      | S p =>
          let acc' := (acc * 64 + N.land b 63)%N in
          match p with
          | O => utf16_of_code_point acc' ++ decode_utf8 O 0%N bs'
          | S _ => decode_utf8 p acc' bs'
          end
      end
  end.

(** A string literal of the source, as the code units JavaScript holds. *)
Definition lit (s : string) : jsstring :=
  decode_utf8 O 0%N (map byte_of_ascii (list_ascii_of_string s)).

Fixpoint eqb (s t : jsstring) : bool :=
  match s, t with
  | [], [] => true
  | a :: s', b :: t' => N.eqb a b && eqb s' t'
  | _, _ => false
  end.

(** [if (s)]: a string is falsy exactly when it is empty. *)
Definition truthy (s : jsstring) : bool :=
  match s with [] => false | _ :: _ => true end.

(** [a || b] on strings. *)
Definition or_else (a b : jsstring) : jsstring :=
  if truthy a then a else b.

(** [\w] without the [u] and [i] flags' extensions: [A-Za-z0-9_]. *)
Definition is_word (c : char) : bool :=
  ((65 <=? c) && (c <=? 90) || (97 <=? c) && (c <=? 122)
   || (48 <=? c) && (c <=? 57) || (c =? 95))%N.

(** [\s], and what [String.prototype.trim] removes: WhiteSpace and
    LineTerminator of ECMA-262. *)
Definition is_space (c : char) : bool :=
  ((9 <=? c) && (c <=? 13) || (c =? 32) || (c =? 160) || (c =? 5760)
   || (8192 <=? c) && (c <=? 8202) || (c =? 8232) || (c =? 8233)
   || (c =? 8239) || (c =? 8287) || (c =? 12288) || (c =? 65279))%N.

Fixpoint trimStart (s : jsstring) : jsstring :=
  match s with
  | [] => []
  | c :: s' => if is_space c then trimStart s' else s
  end.

Definition trimEnd (s : jsstring) : jsstring := rev (trimStart (rev s)).

Definition trim (s : jsstring) : jsstring := trimEnd (trimStart s).

(** [s.startsWith(p)], returning what follows the prefix. *)
Fixpoint strip_prefix (p s : jsstring) : option jsstring :=
  match p, s with
  | [], _ => Some s
  | a :: p', b :: s' => if N.eqb a b then strip_prefix p' s' else None
  | _ :: _, [] => None
  end.

(** [s.includes(p)]. *)
Fixpoint includes (p s : jsstring) : bool :=
  match strip_prefix p s with
  | Some _ => true
  | None => match s with [] => false | _ :: s' => includes p s' end
  end.

(** [xs.join(sep)]. *)
Fixpoint join (sep : jsstring) (xs : list jsstring) : jsstring :=
  match xs with
  | [] => []
  | [x] => x
  | x :: rest => x ++ sep ++ join sep rest
  end.

(** [xs.slice(-n)]: the last [n] elements. *)
Definition slice_last {A} (n : nat) (xs : list A) : list A :=
  skipn (length xs - n) xs.

(** [s.slice(0, n)]. *)
Definition slice_to {A} (n : nat) (xs : list A) : list A := firstn n xs.

(** The maximal run of word characters at the head, and the rest. *)
Fixpoint span_word (s : jsstring) : jsstring * jsstring :=
  match s with
  | c :: s' =>
      if is_word c then let (w, r) := span_word s' in (c :: w, r)
      else ([], s)
  | [] => ([], [])
  end.

End JS.
Import JS.

(* ================================================================== *)
(** ** state.ts: the shared state and its reducers *)

Module State.

(** [Record<string, T>]: the own properties of an object in the order
    [Object.values] and [Object.entries] enumerate them, which is the
    order of insertion for the keys the pipeline uses (names that are not
    array indices). *)
Definition Rec (T : Type) := list (jsstring * T).

Fixpoint rec_get {T} (k : jsstring) (o : Rec T) : option T :=
  match o with
  | [] => None
  | (k', v) :: o' => if JS.eqb k k' then Some v else rec_get k o'
  end.

(** [o[k] = v]: an existing property keeps its place. *)
Fixpoint rec_set {T} (k : jsstring) (v : T) (o : Rec T) : Rec T :=
  match o with
  | [] => [(k, v)]
  | (k', v') :: o' =>
      if JS.eqb k k' then (k', v) :: o' else (k', v') :: rec_set k v o'
  end.

Definition rec_values {T} (o : Rec T) : list T := map snd o.

(** [{...a, ...b}]. *)
Definition rec_spread {T} (a b : Rec T) : Rec T :=
  fold_left (fun acc kv => rec_set (fst kv) (snd kv) acc) b
    (fold_left (fun acc kv => rec_set (fst kv) (snd kv) acc) a []).

Record Character := {
  name : jsstring;
  present : bool;
  lastPosition : jsstring;
  description : option jsstring }.

Record WorldState := {
  scene : jsstring;
  time : jsstring;
  characters : Rec Character;
  recentEvents : list jsstring }.

Record Message := { role : jsstring; msg_content : jsstring }.

(** The table snapshot of the external data source is opaque to the
    pipeline: only its presence is observed. *)
Inductive TableData := Snapshot (id : N).

Record ParsedInput := {
  presetInstructions : Rec jsstring;
  characterSettings : Rec jsstring;
  chatHistory : list Message;
  userInput : jsstring;
  tableData : option TableData }.

Record PersonaOutput := {
  characterName : jsstring;
  content : jsstring;
  formatValid : bool }.

Record GraphState := {
  rawMessages : list Message;
  parsedInput : option ParsedInput;
  worldState : option WorldState;
  activeCharacters : list jsstring;
  characterContexts : Rec jsstring;
  personaOutputs : list PersonaOutput;
  formatCheckPassed : bool;
  retryCount : Z;
  finalOutput : jsstring;
  error : option jsstring }.

(** [Partial<GraphState>]: what a node returns.  A key that is absent is
    [None]; [worldState] and [parsedInput] may be present with value
    [null]. *)
Record Partial := {
  p_rawMessages : option (list Message);
  p_parsedInput : option (option ParsedInput);
  p_worldState : option (option WorldState);
  p_activeCharacters : option (list jsstring);
  p_characterContexts : option (Rec jsstring);
  p_personaOutputs : option (list PersonaOutput);
  p_formatCheckPassed : option bool;
  p_retryCount : option Z;
  p_finalOutput : option jsstring;
  p_error : option (option jsstring) }.

Definition no_update : Partial :=
  {| p_rawMessages := None; p_parsedInput := None; p_worldState := None;
     p_activeCharacters := None; p_characterContexts := None;
     p_personaOutputs := None; p_formatCheckPassed := None;
     p_retryCount := None; p_finalOutput := None; p_error := None |}.

(** The reducers of [GraphStateAnnotation]. *)
Definition reduce_replace {A} (_ y : A) : A := y.
Definition reduce_worldState (x y : option WorldState) : option WorldState :=
  match y with Some _ => y | None => x end.          (* y ?? x *)
Definition reduce_personaOutputs (x y : list PersonaOutput) :=
  x ++ y.                                            (* [...x, ...y] *)

(** The [default] of every channel. *)
Definition default_state : GraphState :=
  {| rawMessages := []; parsedInput := None; worldState := None;
     activeCharacters := []; characterContexts := [];
     personaOutputs := []; formatCheckPassed := false;
     retryCount := 0%Z; finalOutput := []; error := None |}.

Definition reduce {A} (r : A -> A -> A) (x : A) (u : option A) : A :=
  match u with Some y => r x y | None => x end.

(** Merging a node's partial update: every key present in the update
    goes through the reducer of its channel. *)
Definition apply_update (s : GraphState) (u : Partial) : GraphState :=
  {| rawMessages := reduce reduce_replace (rawMessages s) (p_rawMessages u);
     parsedInput := reduce reduce_replace (parsedInput s) (p_parsedInput u);
     worldState := reduce reduce_worldState (worldState s) (p_worldState u);
     activeCharacters :=
       reduce reduce_replace (activeCharacters s) (p_activeCharacters u);
     characterContexts :=
       reduce reduce_replace (characterContexts s) (p_characterContexts u);
     personaOutputs :=
       reduce reduce_personaOutputs (personaOutputs s) (p_personaOutputs u);
     formatCheckPassed :=
       reduce reduce_replace (formatCheckPassed s) (p_formatCheckPassed u);
     retryCount := reduce reduce_replace (retryCount s) (p_retryCount u);
     finalOutput := reduce reduce_replace (finalOutput s) (p_finalOutput u);
     error := reduce reduce_replace (error s) (p_error u) |}.

End State.
Import State.

(* ================================================================== *)
(** ** The external capabilities *)

Module Host.

(** The outcome of [model.invoke]: it throws, or it resolves to a
    response whose [content] is a string or something else. *)
Inductive Response :=
| Throws
| NotString
| Content (text : jsstring).

(** The content of the response when it is a string, the empty string
    when it is not; [None] when the invocation threw. *)
Definition content_of (r : Response) : option jsstring :=
  match r with
  | Throws => None
  | NotString => Some []
  | Content t => Some t
  end.

(** An element of a parsed JSON array: a string, or any other value. *)
Inductive JsonElem :=
| JStr (s : jsstring)
| JOther.

(** What the pipeline consumes from its environment.  [JSON.parse] is the
    built-in ([None]: it throws); its result is read at the type the
    source casts it to.  A configured model receives the data its prompt
    is rendered from, so that any reply to any rendered prompt is
    covered.  The Persona model is invoked once per character and per
    fan-out execution: it is further indexed by the execution and by the
    position of the character. *)
Record Env := {
  JSON_parse_WorldState : jsstring -> option WorldState;
  JSON_parse_array : jsstring -> option (list JsonElem);
  getTableData : option TableData;
  narratorModel : option (ParsedInput -> option WorldState -> Response);
  directorModel :
    option (WorldState -> jsstring -> list jsstring -> Response);
  personaModelConfig :
    option (nat -> nat -> jsstring -> jsstring -> Rec jsstring -> Response);
  composerModel :
    option (list PersonaOutput -> option WorldState -> Response) }.

Inductive Agent := Narrator | Director | Persona | Composer.

(** What a run does that the properties observe: a model invocation, and
    an entry into the per-character generation of the fan-out. *)
Inductive Event :=
| Invoke (a : Agent)
| Generate (who : jsstring).

(** Nodes are computations that log their events. *)
Definition M (A : Type) : Type := A * list Event.
Definition ret {A} (a : A) : M A := (a, []).
Definition bind {A B} (m : M A) (k : A -> M B) : M B :=
  let (a, t) := m in let (b, t') := k a in (b, t ++ t').
Definition emit (e : Event) : M unit := (tt, [e]).

End Host.
Import Host.

Notation "x <- m ;; k" := (bind m (fun x => k))
  (at level 61, m at next level, right associativity).
Notation "m ;;; k" := (bind m (fun _ => k))
  (at level 61, right associativity).

(* ================================================================== *)
(** ** agents/parser.ts *)

Module Parser.

Definition PRESET_TAGS : list jsstring :=
  [lit "core_features"; lit "fiction_style"; lit "Writing_style";
   lit "additional_constraints"; lit "content_constraints";
   lit "explicit_guidelines"].

Definition CHARACTER_TAGS : list jsstring :=
  [lit "info_settings"; lit "char"; lit "user"].

Definition HISTORY_TAGS : list jsstring :=
  [lit "Interaction_history"; lit "chat_history"].

(** [xs.includes(x)] on an array of strings. *)
Definition array_includes (xs : list jsstring) (x : jsstring) : bool :=
  existsb (JS.eqb x) xs.

Definition LT : char := 60%N.      (* < *)
Definition GT : char := 62%N.      (* > *)
Definition SLASH : char := 47%N.   (* / *)

(** [<(\w+)>] at the head of [s]: the name and what follows.  [\w+] is
    greedy and a shorter run is followed by a word character, never by
    [>], so the maximal run is the only candidate. *)
Definition open_tag (s : jsstring) : option (jsstring * jsstring) :=
  match s with
  | c :: s1 =>
      if N.eqb c LT then
        match span_word s1 with
        | ((_ :: _) as w, g :: r) => if N.eqb g GT then Some (w, r) else None
        | _ => None
        end
      else None
  | [] => None
  end.

(** [<\/\w+>] at the head of [s]: what follows it. *)
Definition close_tag (s : jsstring) : option jsstring :=
  match s with
  | c :: d :: s1 =>
      if N.eqb c LT && N.eqb d SLASH then
        match span_word s1 with
        | (_ :: _, g :: r) => if N.eqb g GT then Some r else None
        | _ => None
        end
      else None
  | _ => None
  end.

(** [([\s\S]*?)] followed by the literal [closing]: the lazy star stops
    at the first place where [closing] starts. *)
Fixpoint lazy_until (closing s : jsstring) : option (jsstring * jsstring) :=
  match strip_prefix closing s with
  | Some rest => Some ([], rest)
  | None =>
      match s with
      | [] => None
      | c :: s' =>
          match lazy_until closing s' with
          | Some (inner, rest) => Some (c :: inner, rest)
          | None => None
          end
      end
  end.

(** [[\s\S]*?<\/\w+>]: up to and including the first closing tag of any
    name. *)
Fixpoint lazy_until_close (s : jsstring) : option jsstring :=
  match close_tag s with
  | Some rest => Some rest
  | None =>
      match s with
      | [] => None
      | _ :: s' => lazy_until_close s'
      end
  end.

(** [/<(\w+)>([\s\S]*?)<\/\1>/] at the head of [s]: the two groups and
    what follows the match. *)
Definition match_element (s : jsstring)
  : option (jsstring * jsstring * jsstring) :=
  match open_tag s with
  | Some (w, r) =>
      match lazy_until ([LT; SLASH] ++ w ++ [GT]) r with
      | Some (inner, rest) => Some (w, inner, rest)
      | None => None
      end
  | None => None
  end.

(** The [while ((match = pattern.exec(content)) !== null)] loop of a
    global pattern: the matches from left to right, each search resuming
    where the previous match ended.  [skip] counts the characters of the
    current match still to pass. *)
Fixpoint exec_all (skip : nat) (s : jsstring) : list (jsstring * jsstring) :=
  match s with
  | [] => []
  | _ :: s' =>
      match skip with
      | S k => exec_all k s'
      | O =>
          match match_element s with
          | Some (w, inner, rest) =>
              (w, inner) :: exec_all (length s' - length rest) s'
          | None => exec_all O s'
          end
      end
  end.

Definition extractXmlTags (content : jsstring) : Rec jsstring :=
  fold_left (fun tags m => rec_set (fst m) (trim (snd m)) tags)
    (exec_all O content) [].

(** [s.replace(re, empty)] for a global pattern that never matches the empty
    string; [m] matches the pattern at the head of its argument and
    returns what follows the match. *)
Fixpoint remove_all (m : jsstring -> option jsstring) (skip : nat)
    (s : jsstring) : jsstring :=
  match s with
  | [] => []
  | c :: s' =>
      match skip with
      | S k => remove_all m k s'
      | O =>
          match m s with
          | Some rest => remove_all m (length s' - length rest) s'
          | None => c :: remove_all m O s'
          end
      end
  end.

(** [/<\w+>[\s\S]*?<\/\w+>/] at the head of [s]. *)
Definition match_span (s : jsstring) : option jsstring :=
  match open_tag s with
  | Some (_, r) => lazy_until_close r
  | None => None
  end.

(** [/<\w+>/] at the head of [s]. *)
Definition match_open (s : jsstring) : option jsstring :=
  option_map snd (open_tag s).

Definition stripXmlTags (content : jsstring) : jsstring :=
  trim (remove_all match_open O (remove_all match_span O content)).

(** The accumulators of the message loop. *)
Record Acc := {
  acc_preset : Rec jsstring;
  acc_character : Rec jsstring;
  acc_history : list Message }.

(** The body of [for (const [tagName, tagContent] of Object.entries(tags))]. *)
Definition classify (a : Acc) (tag : jsstring * jsstring) : Acc :=
  let (tagName, tagContent) := tag in
  if array_includes PRESET_TAGS tagName then
    {| acc_preset := rec_set tagName tagContent (acc_preset a);
       acc_character := acc_character a; acc_history := acc_history a |}
  else if array_includes CHARACTER_TAGS tagName then
    {| acc_preset := acc_preset a;
       acc_character := rec_set tagName tagContent (acc_character a);
       acc_history := acc_history a |}
  else if array_includes HISTORY_TAGS tagName then
    {| acc_preset := acc_preset a; acc_character := acc_character a;
       acc_history := acc_history a ++
         [{| role := lit "history"; msg_content := tagContent |}] |}
  else a.

(** The body of [for (const msg of rawMessages)]. *)
Definition visit (a : Acc) (msg : Message) : Acc :=
  let role_ := or_else (role msg) [] in
  let content_ := or_else (msg_content msg) [] in
  let a1 := fold_left classify (extractXmlTags content_) a in
  if JS.eqb role_ (lit "assistant") || JS.eqb role_ (lit "user") then
    let cleanContent := stripXmlTags content_ in
    if truthy cleanContent then
      {| acc_preset := acc_preset a1; acc_character := acc_character a1;
         acc_history := acc_history a1 ++
           [{| role := role_; msg_content := cleanContent |}] |}
    else a1
  else a1.

(** The backwards loop that picks the current input; [later] holds the
    messages from the last one down, [userInput] the variable. *)
Fixpoint last_user_input (later : list Message) (userInput : jsstring)
  : jsstring :=
  match later with
  | [] => userInput
  | msg :: earlier =>
      if JS.eqb (role msg) (lit "user") then
        let u := stripXmlTags (or_else (msg_content msg) []) in
        if truthy u then u else last_user_input earlier u
      else last_user_input earlier userInput
  end.

Definition parse (env : Env) (msgs : list Message) : ParsedInput :=
  let a := fold_left visit msgs
             {| acc_preset := []; acc_character := []; acc_history := [] |} in
  {| presetInstructions := acc_preset a;
     characterSettings := acc_character a;
     chatHistory := acc_history a;
     userInput := last_user_input (rev msgs) [];
     tableData := getTableData env |}.

Definition parserNode (env : Env) (state : GraphState) : M Partial :=
  ret {| p_rawMessages := None;
         p_parsedInput := Some (Some (parse env (rawMessages state)));
         p_worldState := None; p_activeCharacters := None;
         p_characterContexts := None; p_personaOutputs := None;
         p_formatCheckPassed := None; p_retryCount := None;
         p_finalOutput := None; p_error := None |}.

End Parser.

(* ================================================================== *)
(** ** agents/narrator.ts *)

Module Narrator.

(** One letter of [name] under the [i] flag: without the [u] flag only
    the two ASCII cases canonicalize to the same code unit. *)
Definition letter_i (upper : char) (c : char) : bool :=
  N.eqb c upper || N.eqb c (upper + 32)%N.

Fixpoint skip_while (p : char -> bool) (s : jsstring) : jsstring :=
  match s with
  | c :: s' => if p c then skip_while p s' else s
  | [] => []
  end.

Definition is_quote (c : char) : bool := N.eqb c 34%N || N.eqb c 39%N.

(** An optional quote character (double or single). *)
Definition skip_quote (s : jsstring) : jsstring :=
  match s with
  | c :: s' => if is_quote c then s' else s
  | [] => []
  end.

(** The pattern of [extractCharacters] at the head of [s]: [name] in any
    case, [[:\s]*], an optional quote, then group 1 [(\w+)] (the optional
    quote that closes the pattern matches or not without effect).
    Giving back characters of [[:\s]*] or the optional quote never lets
    [\w+] start, so the greedy choices are the only candidates. *)
Definition match_name (s : jsstring) : option jsstring :=
  match s with
  | n :: a :: m :: e :: r =>
      if letter_i 78%N n && letter_i 65%N a && letter_i 77%N m
         && letter_i 69%N e
      then
        let r1 := skip_while (fun c => N.eqb c 58%N || is_space c) r in
        match fst (span_word (skip_quote r1)) with
        | [] => None
        | w => Some w
        end
      else None
  | _ => None
  end.

(** [charInfo.match(...)]: the leftmost match. *)
Fixpoint find_name (s : jsstring) : option jsstring :=
  match match_name s with
  | Some w => Some w
  | None =>
      match s with
      | [] => None
      | _ :: s' => find_name s'
      end
  end.

(** [a || b] where [a] may be [undefined]. *)
Definition opt_or (a : option jsstring) (b : jsstring) : jsstring :=
  match a with
  | Some x => or_else x b
  | None => b
  end.

Definition extractCharacters (characterSettings : Rec jsstring)
  : Rec Character :=
  let charInfo :=
    opt_or (rec_get (lit "char") characterSettings)
      (opt_or (rec_get (lit "info_settings") characterSettings) []) in
  match find_name charInfo with
  | Some w =>
      rec_set w {| name := w; present := true;
                   lastPosition := lit "当前场景";
                   description := None |} []
  | None => []
  end.

(** The first [open] of [s], and what follows it. *)
Fixpoint from_first (open : char) (s : jsstring) : option jsstring :=
  match s with
  | [] => None
  | c :: s' => if N.eqb c open then Some s' else from_first open s'
  end.

(** [s] up to and including its last [close]. *)
Fixpoint until_last (close : char) (s : jsstring) : option jsstring :=
  match s with
  | [] => None
  | c :: s' =>
      match until_last close s' with
      | Some t => Some (c :: t)
      | None => if N.eqb c close then Some [c] else None
      end
  end.

(** [content.match(/\{[\s\S]*\}/)] and [content.match(/\[[\s\S]*\]/)]:
    the greedy star runs to the end and backs up to the last [close]; the
    leftmost [open] with a [close] after it is the first [open], since a
    later one sees no more of the text. *)
Definition match_greedy (open close : char) (s : jsstring)
  : option jsstring :=
  match from_first open s with
  | Some r => option_map (cons open) (until_last close r)
  | None => None
  end.

Definition LBRACE : char := 123%N.
Definition RBRACE : char := 125%N.

Definition only_worldState (w : option WorldState) : Partial :=
  {| p_rawMessages := None; p_parsedInput := None;
     p_worldState := Some w; p_activeCharacters := None;
     p_characterContexts := None; p_personaOutputs := None;
     p_formatCheckPassed := None; p_retryCount := None;
     p_finalOutput := None; p_error := None |}.

Definition only_error (e : jsstring) : Partial :=
  {| p_rawMessages := None; p_parsedInput := None;
     p_worldState := None; p_activeCharacters := None;
     p_characterContexts := None; p_personaOutputs := None;
     p_formatCheckPassed := None; p_retryCount := None;
     p_finalOutput := None; p_error := Some (Some e) |}.

(** The rule-based update (no model configured). *)
Definition rule_update (p : ParsedInput) (current : option WorldState)
  : WorldState :=
  let chars := extractCharacters (characterSettings p) in
  {| scene := opt_or (option_map scene current) (lit "未知场景");
     time := opt_or (option_map time current) (lit "未知时间");
     characters :=
       rec_spread
         (match current with Some w => characters w | None => [] end)
         chars;
     recentEvents :=
       slice_last 10
         ((match current with Some w => recentEvents w | None => [] end)
          ++ [lit "用户输入: " ++ slice_to 50 (userInput p) ++ lit "..."]) |}.

(** The body of the [try] block once the model has answered with
    [content]: [Some w] when it returns a new world state, [None] when
    control leaves the block (no match, or [JSON.parse] throws). *)
Definition parse_reply (env : Env) (content : jsstring)
  : option WorldState :=
  match match_greedy LBRACE RBRACE content with
  | Some jsonMatch => JSON_parse_WorldState env jsonMatch
  | None => None
  end.

Definition narratorNode (env : Env) (state : GraphState) : M Partial :=
  let currentWorldState := worldState state in
  match parsedInput state with
  | None => ret (only_error (lit "Parser 未完成，无法执行 Narrator"))
  | Some p =>
      match narratorModel env with
      | None => ret (only_worldState (Some (rule_update p currentWorldState)))
      | Some model =>
          emit (Invoke Narrator) ;;;
          match content_of (model p currentWorldState) with
          | Some content =>
              match parse_reply env content with
              | Some newWorldState =>
                  ret (only_worldState (Some newWorldState))
              | None => ret (only_worldState currentWorldState)
              end
          | None => ret (only_worldState currentWorldState)
          end
      end
  end.

End Narrator.

(* ================================================================== *)
(** ** agents/director.ts *)

Module Director.

Definition LBRACKET : char := 91%N.
Definition RBRACKET : char := 93%N.

(** [Object.values(worldState.characters).filter(...).map(c => c.name)]. *)
Definition present_names (w : WorldState) : list jsstring :=
  map name (filter present (rec_values (characters w))).

Definition buildCharacterContext (characterName : jsstring)
    (p : ParsedInput) (w : WorldState) : jsstring :=
  let otherCharacters :=
    map name
      (filter (fun c => present c && negb (JS.eqb (name c) characterName))
         (rec_values (characters w))) in
  let lines :=
    [lit "## 你是 " ++ characterName;
     lit "## 当前场景: " ++ scene w;
     lit "## 时间: " ++ time w]
    ++ (if (0 <? length otherCharacters)%nat
        then [lit "## 在场的其他人: " ++ join (lit ", ") otherCharacters]
        else [])
    ++ (if (0 <? length (recentEvents w))%nat
        then [lit "## 最近发生的事:";
              join [10%N] (slice_last 5 (recentEvents w))]
        else [])
    ++ [lit "## 用户说/做:"; userInput p] in
  join [10%N; 10%N] lines.

(** The [for (const charName of names)] loops that fill
    [characterContexts]. *)
Definition contexts_for (names : list jsstring) (p : ParsedInput)
    (w : WorldState) : Rec jsstring :=
  fold_left
    (fun ctxs charName =>
       rec_set charName (buildCharacterContext charName p w) ctxs)
    names [].

Definition decision (active : list jsstring) (ctxs : Rec jsstring)
  : Partial :=
  {| p_rawMessages := None; p_parsedInput := None; p_worldState := None;
     p_activeCharacters := Some active;
     p_characterContexts := Some ctxs; p_personaOutputs := None;
     p_formatCheckPassed := None; p_retryCount := None;
     p_finalOutput := None; p_error := None |}.

(** [activeCharacters.filter((c) => presentCharacters.includes(c))]: an
    element that is not a string equals no name. *)
Fixpoint valid_characters (presentCharacters : list jsstring)
    (parsed : list JsonElem) : list jsstring :=
  match parsed with
  | [] => []
  | JStr c :: rest =>
      if Parser.array_includes presentCharacters c
      then c :: valid_characters presentCharacters rest
      else valid_characters presentCharacters rest
  | JOther :: rest => valid_characters presentCharacters rest
  end.

(** The body of the [try] block once the model has answered: [Some] the
    selection when the block returns, [None] when control leaves it (no
    match, or [JSON.parse] throws). *)
Definition parse_selection (env : Env) (presentCharacters : list jsstring)
    (content : jsstring) : option (list jsstring) :=
  match Narrator.match_greedy LBRACKET RBRACKET content with
  | Some jsonMatch =>
      match JSON_parse_array env jsonMatch with
      | Some activeCharacters =>
          Some (valid_characters presentCharacters activeCharacters)
      | None => None
      end
  | None => None
  end.

Definition directorNode (env : Env) (state : GraphState) : M Partial :=
  match parsedInput state, worldState state with
  | Some p, Some w =>
      let presentCharacters := present_names w in
      if (length presentCharacters =? 0)%nat then ret (decision [] [])
      else
        let all_present :=
          decision presentCharacters (contexts_for presentCharacters p w) in
        match directorModel env with
        | None => ret all_present
        | Some model =>
            emit (Invoke Director) ;;;
            match content_of (model w (userInput p) presentCharacters) with
            | Some content =>
                match parse_selection env presentCharacters content with
                | Some validCharacters =>
                    ret (decision validCharacters
                           (contexts_for validCharacters p w))
                | None => ret all_present
                end
            | None => ret all_present
            end
        end
  | _, _ => ret (Narrator.only_error (lit "缺少必要状态，无法执行 Director"))
  end.

(** The callback of [personaOutputs.every]. *)
Definition output_ok (output : PersonaOutput) : bool :=
  if negb (truthy (content output))
     || (length (trim (content output)) =? 0)%nat
  then false else true.

Definition maxRetries : Z := 3.

Definition directorEvaluateNode (state : GraphState) : M Partial :=
  let allValid := forallb output_ok (personaOutputs state) in
  if allValid then
    ret {| p_rawMessages := None; p_parsedInput := None;
           p_worldState := None; p_activeCharacters := None;
           p_characterContexts := None; p_personaOutputs := None;
           p_formatCheckPassed := Some true; p_retryCount := None;
           p_finalOutput := None; p_error := None |}
  else if (maxRetries <=? retryCount state)%Z then
    ret {| p_rawMessages := None; p_parsedInput := None;
           p_worldState := None; p_activeCharacters := None;
           p_characterContexts := None; p_personaOutputs := None;
           p_formatCheckPassed := Some true; p_retryCount := None;
           p_finalOutput := None; p_error := None |}
  else
    ret {| p_rawMessages := None; p_parsedInput := None;
           p_worldState := None; p_activeCharacters := None;
           p_characterContexts := None; p_personaOutputs := Some [];
           p_formatCheckPassed := Some false;
           p_retryCount := Some (retryCount state + 1)%Z;
           p_finalOutput := None; p_error := None |}.

End Director.

(* ================================================================== *)
(** ** agents/persona.ts *)

Module Persona.

Definition unconfigured (characterName : jsstring) : PersonaOutput :=
  {| characterName := characterName;
     content := lit "[" ++ characterName ++ lit " 无法回复 - 模型未配置]";
     formatValid := false |}.

Definition failed (characterName : jsstring) : PersonaOutput :=
  {| characterName := characterName;
     content := lit "[" ++ characterName ++ lit " 生成出错]";
     formatValid := false |}.

(** [generatePersonaResponse]; [invoke] is the model's answer to this
    call when a model is configured. *)
Definition generatePersonaResponse
    (invoke : option (jsstring -> jsstring -> Rec jsstring -> Response))
    (characterName context : jsstring) (preset : Rec jsstring)
  : M PersonaOutput :=
  emit (Generate characterName) ;;;
  match invoke with
  | None => ret (unconfigured characterName)
  | Some model =>
      emit (Invoke Persona) ;;;
      match content_of (model characterName context preset) with
      | Some text =>
          ret {| characterName := characterName; content := text;
                 formatValid := (0 <? length text)%nat |}
      | None => ret (failed characterName)
      end
  end.

(** [activeCharacters.map(...)] followed by [Promise.all]: one task per
    element, the results in the order of the array.  [index] is the
    position of the head of [names] in [activeCharacters]. *)
Fixpoint fan_out (env : Env) (execution index : nat)
    (names : list jsstring) (ctxs : Rec jsstring) (preset : Rec jsstring)
  : M (list PersonaOutput) :=
  match names with
  | [] => ret []
  | charName :: rest =>
      let context := Narrator.opt_or (rec_get charName ctxs) [] in
      o <- generatePersonaResponse
             (option_map (fun f => f execution index)
                (personaModelConfig env))
             charName context preset ;;
      os <- fan_out env execution (S index) rest ctxs preset ;;
      ret (o :: os)
  end.

Definition outputs (os : list PersonaOutput) : Partial :=
  {| p_rawMessages := None; p_parsedInput := None; p_worldState := None;
     p_activeCharacters := None; p_characterContexts := None;
     p_personaOutputs := Some os; p_formatCheckPassed := None;
     p_retryCount := None; p_finalOutput := None; p_error := None |}.

(** [execution] counts the executions of the node within the run. *)
Definition personaNode (env : Env) (execution : nat) (state : GraphState)
  : M Partial :=
  match parsedInput state with
  | None => ret (outputs [])
  | Some p =>
      if (length (activeCharacters state) =? 0)%nat then ret (outputs [])
      else
        os <- fan_out env execution 0 (activeCharacters state)
                (characterContexts state) (presetInstructions p) ;;
        ret (outputs os)
  end.

End Persona.

(* ================================================================== *)
(** ** agents/composer.ts *)

Module Composer.

Definition simpleCompose (outputs : list PersonaOutput) : jsstring :=
  join ([10%N; 10%N] ++ lit "---" ++ [10%N; 10%N])
    (map (fun o =>
            if negb (includes (characterName o) (content o))
            then lit "【" ++ characterName o ++ lit "】" ++ [10%N] ++ content o
            else content o)
       (filter (fun o => formatValid o && truthy (content o)) outputs)).

Definition final (text : jsstring) : Partial :=
  {| p_rawMessages := None; p_parsedInput := None; p_worldState := None;
     p_activeCharacters := None; p_characterContexts := None;
     p_personaOutputs := None; p_formatCheckPassed := None;
     p_retryCount := None; p_finalOutput := Some text; p_error := None |}.

Definition composerNode (env : Env) (state : GraphState) : M Partial :=
  let personaOutputs := personaOutputs state in
  if (length personaOutputs =? 0)%nat then ret (final (lit "[没有角色回复]"))
  else
    match composerModel env with
    | None => ret (final (simpleCompose personaOutputs))
    | Some model =>
        emit (Invoke Composer) ;;;
        match content_of (model personaOutputs (worldState state)) with
        | Some content =>
            if truthy content then ret (final content)
            else ret (final (simpleCompose personaOutputs))
        | None => ret (final (simpleCompose personaOutputs))
        end
    end.

End Composer.

(* ================================================================== *)
(** ** graph.ts *)

Module Graph.

Inductive Node :=
| parser | narrator | director | persona | evaluate | composer | END.

Definition routeAfterEvaluate (state : GraphState) : Node :=
  if formatCheckPassed state then composer else persona.

(** A run in progress: the node about to execute, the merged state, the
    number of fan-out executions so far, and the events logged. *)
Record Config := {
  at_node : Node;
  state : GraphState;
  executions : nat;
  log : list Event }.

(** [addNode]. *)
Definition node_fn (env : Env) (n : Node) (execution : nat)
    (s : GraphState) : M Partial :=
  match n with
  | parser => Parser.parserNode env s
  | narrator => Narrator.narratorNode env s
  | director => Director.directorNode env s
  | persona => Persona.personaNode env execution s
  | evaluate => Director.directorEvaluateNode s
  | composer => Composer.composerNode env s
  | END => ret no_update
  end.

(** [addEdge] and [addConditionalEdges]; the condition reads the state
    merged after the node. *)
Definition next (n : Node) (merged : GraphState) : Node :=
  match n with
  | parser => narrator
  | narrator => director
  | director => persona
  | persona => evaluate
  | evaluate => routeAfterEvaluate merged
  | composer => END
  | END => END
  end.

(** One superstep: run the node, merge its update, follow the edge. *)
Definition step (env : Env) (c : Config) : Config :=
  let (u, t) := node_fn env (at_node c) (executions c) (state c) in
  let merged := apply_update (state c) u in
  {| at_node := next (at_node c) merged;
     state := merged;
     executions :=
       match at_node c with persona => S (executions c) | _ => executions c end;
     log := log c ++ t |}.

Fixpoint steps (env : Env) (n : nat) (c : Config) : Config :=
  match n with
  | O => c
  | S n' =>
      match at_node c with
      | END => c
      | _ => steps env n' (step env c)
      end
  end.

(** The input of [graph.invoke], written to the channels through their
    reducers. *)
Definition initialState (messages : list Message) : Partial :=
  {| p_rawMessages := Some messages; p_parsedInput := None;
     p_worldState := None; p_activeCharacters := None;
     p_characterContexts := None; p_personaOutputs := Some [];
     p_formatCheckPassed := None; p_retryCount := Some 0%Z;
     p_finalOutput := None; p_error := None |}.

Definition start (messages : list Message) : Config :=
  {| at_node := parser;
     state := apply_update default_state (initialState messages);
     executions := 0;
     log := [] |}.

(** The default bound of the graph library on the supersteps of one
    invocation; an invocation that needs more is rejected. *)
Definition recursionLimit : nat := 25.

(** [graph.invoke(initialState)]; [None] when the invocation is
    rejected. *)
Definition invoke (env : Env) (messages : list Message) : option Config :=
  let c := steps env recursionLimit (start messages) in
  match at_node c with
  | END => Some c
  | _ => None
  end.

Definition runGraph (env : Env) (messages : list Message)
  : option jsstring :=
  match invoke env messages with
  | Some c => Some (or_else (finalOutput (state c)) (lit "[无输出]"))
  | None => None
  end.

(** The configurations a run goes through. *)
Inductive reachable (env : Env) (messages : list Message)
  : Config -> Prop :=
| reach_start : reachable env messages (start messages)
| reach_step : forall c,
    reachable env messages c -> at_node c <> END ->
    reachable env messages (step env c).

End Graph.

(* ================================================================== *)
(** ** graph.ts: the streaming entry point *)

Module Stream.

Import Graph.

(** [for await (const event of await graph.stream(initialState))] with the
    inner loop over [Object.entries(event)]: one event per superstep, the
    name of the node and the update it returned. *)
Fixpoint events (env : Env) (n : nat) (c : Config) : list (Node * Partial) :=
  match n with
  | O => []
  | S n' =>
      match at_node c with
      | END => []
      | nd =>
          (nd, fst (node_fn env nd (executions c) (state c)))
          :: events env n' (step env c)
      end
  end.

Definition streamGraph (env : Env) (messages : list Message)
  : list (Node * Partial) :=
  events env recursionLimit (start messages).

End Stream.

(* ================================================================== *)
(** ** config/manager.ts: prompt templates *)

Module Prompt.

(** The fields of [AgentPromptConfig] the rendering methods read. *)
Record AgentPromptConfig := {
  systemPrompt : jsstring;
  userPromptTemplate : option jsstring }.

(** [this.config], indexed by agent. *)
Definition MultiAgentPromptConfig := Agent -> AgentPromptConfig.

(** The [vars] argument as the callback reads it: [vars name] is the value
    of [vars[varName]], [None] when that is [undefined]. *)
Definition Vars := jsstring -> option jsstring.

Definition LBRACE : char := 123%N.
Definition RBRACE : char := 125%N.

(** [\{\{(\w+)\}\}] at the head of [s]: group 1 and what follows the
    match.  A shorter run of [\w+] is followed by a word character, never
    by a brace, so the maximal run is the only candidate. *)
Definition match_variable (s : jsstring) : option (jsstring * jsstring) :=
  match s with
  | a :: b :: r =>
      if N.eqb a LBRACE && N.eqb b LBRACE then
        match span_word r with
        | ((_ :: _) as w, c :: d :: rest) =>
            if N.eqb c RBRACE && N.eqb d RBRACE then Some (w, rest)
            else None
        | _ => None
        end
      else None
  | _ => None
  end.

(** The text of a match whose group 1 is [w]. *)
Definition placeholder (w : jsstring) : jsstring :=
  [LBRACE; LBRACE] ++ w ++ [RBRACE; RBRACE].

(** [template.replace(re, callback)] for the global pattern: the matches
    from left to right, each search resuming where the previous match
    ended; what the callback returns is not searched again.  [skip] counts
    the characters of the current match still to pass. *)
Fixpoint replace_from (vars : Vars) (skip : nat) (s : jsstring) : jsstring :=
  match s with
  | [] => []
  | c :: s' =>
      match skip with
      | S k => replace_from vars k s'
      | O =>
          match match_variable s with
          | Some (w, rest) =>
              match vars w with
              | Some value => value
              | None => placeholder w
              end ++ replace_from vars (length s' - length rest) s'
          | None => c :: replace_from vars O s'
          end
      end
  end.

Definition replaceVariables (template : jsstring) (vars : Vars) : jsstring :=
  replace_from vars O template.

Definition renderPrompt (config : MultiAgentPromptConfig) (agent : Agent)
    (variables : Vars) : jsstring :=
  replaceVariables (systemPrompt (config agent)) variables.

(** [None] is the [null] of the source. *)
Definition renderUserPrompt (config : MultiAgentPromptConfig)
    (agent : Agent) (variables : Vars) : option jsstring :=
  match userPromptTemplate (config agent) with
  | Some template =>
      if truthy template then Some (replaceVariables template variables)
      else None
  | None => None
  end.

End Prompt.

(* ================================================================== *)
(** ** config/storage.ts: the configuration store *)

Module Storage.

Section Store.

(** The stored configuration is opaque to the store. *)
Variable Config : Type.

(** What the store keeps and what it reaches: its cache, the
    [extensionSettings.multiAgent] slot of the host ([None] when the host
    gives no settings object), and the record of the IndexedDB object
    store. *)
Record Store := {
  cachedConfig : option Config;
  multiAgent : option (option Config);
  record : option Config }.

(** [save]; [idb] tells whether the IndexedDB request of this call
    succeeds (a failure is caught and logged). *)
Definition save (idb : bool) (config : Config) (s : Store) : Store :=
  {| cachedConfig := Some config;
     multiAgent :=
       match multiAgent s with
       | Some _ => Some (Some config)
       | None => None
       end;
     record := if idb then Some config else record s |}.

Definition cache (config : Config) (s : Store) : Store :=
  {| cachedConfig := Some config;
     multiAgent := multiAgent s;
     record := record s |}.

(** [load]: the result ([None] is [null]) and the store afterwards. *)
Definition load (idb : bool) (s : Store) : option Config * Store :=
  match cachedConfig s with
  | Some config => (Some config, s)
  | None =>
      match multiAgent s with
      | Some (Some config) => (Some config, cache config s)
      | _ =>
          if idb then
            match record s with
            | Some config => (Some config, cache config s)
            | None => (None, s)
            end
          else (None, s)
      end
  end.

Definition clearCache (s : Store) : Store :=
  {| cachedConfig := None;
     multiAgent := multiAgent s;
     record := record s |}.

End Store.

Arguments cachedConfig {Config} _.
Arguments multiAgent {Config} _.
Arguments record {Config} _.
Arguments save {Config} _ _ _.
Arguments cache {Config} _ _.
Arguments load {Config} _ _.
Arguments clearCache {Config} _.

End Storage.

(* ================================================================== *)
(** ** configurator: HTML escaping *)

Module Html.

(** [str.replace(/c/g, by)] for a one-character pattern and a replacement
    text without [$]. *)
Definition replace_char (c : char) (by_text : jsstring) (str : jsstring)
  : jsstring :=
  flat_map (fun x => if N.eqb x c then by_text else [x]) str.

Definition AMP : char := 38%N.
Definition QUOT : char := 34%N.
Definition APOS : char := 39%N.

Definition escapeHtml (str : jsstring) : jsstring :=
  replace_char APOS (lit "&#039;")
    (replace_char QUOT (lit "&quot;")
       (replace_char Parser.GT (lit "&gt;")
          (replace_char Parser.LT (lit "&lt;")
             (replace_char AMP (lit "&amp;") str)))).

End Html.

(* ================================================================== *)
(** ** Vocabulary of the statements *)

Module Spec.

Import Graph.

(** The state after the Evaluator's update is merged. *)
Definition evaluated (s : GraphState) : GraphState :=
  apply_update s (fst (Director.directorEvaluateNode s)).

(** The format gate as the Evaluator's description words it: the gate
    passes iff every output has non-empty trimmed content, and an output
    whose trimmed content is empty fails the gate and adds one to
    [retryCount]. *)
Definition gate_iff_nonblank (s : GraphState) : Prop :=
  (formatCheckPassed (evaluated s) = true <->
   Forall (fun o => trim (content o) <> []) (personaOutputs s))
  /\ (Exists (fun o => trim (content o) = []) (personaOutputs s) ->
      formatCheckPassed (evaluated s) = false /\
      retryCount (evaluated s) = (retryCount s + 1)%Z).

(** A state holding the outputs [os] at retry count [n]. *)
Definition state_with (os : list PersonaOutput) (n : Z) : GraphState :=
  {| rawMessages := []; parsedInput := None; worldState := None;
     activeCharacters := []; characterContexts := [];
     personaOutputs := os; formatCheckPassed := false;
     retryCount := n; finalOutput := []; error := None |}.

Definition empty_reply (who : string) : PersonaOutput :=
  {| characterName := lit who; content := []; formatValid := false |}.

(** The outputs the fan-out yields for a character whose generation did
    not produce a reply. *)
Definition is_placeholder (o : PersonaOutput) : Prop :=
  o = Persona.unconfigured (characterName o) \/
  o = Persona.failed (characterName o).

(** ** Example inputs *)

(** No model configured, no table source; [JSON.parse] is never reached. *)
Definition env_none : Env :=
  {| JSON_parse_WorldState := fun _ => None;
     JSON_parse_array := fun _ => None;
     getTableData := None;
     narratorModel := None; directorModel := None;
     personaModelConfig := None; composerModel := None |}.

(** Only the Persona model is configured, and it answers every call with
    the empty string. *)
Definition env_blank : Env :=
  {| JSON_parse_WorldState := fun _ => None;
     JSON_parse_array := fun _ => None;
     getTableData := None;
     narratorModel := None; directorModel := None;
     personaModelConfig := Some (fun _ _ _ _ _ => Content []);
     composerModel := None |}.

Definition user_says (text : jsstring) : Message :=
  {| role := lit "user"; msg_content := text |}.

(** One user message that introduces the character Alice. *)
Definition msgs_alice : list Message :=
  [user_says (lit "<char>name: Alice</char>Hello")].

(** The world state of [s] holds no present character (a missing world
    state holds none). *)
Definition no_present (s : GraphState) : Prop :=
  match worldState s with
  | Some w => Director.present_names w = []
  | None => True
  end.

(** The fixed output of a run without replies. *)
Definition no_replies : jsstring := lit "[没有角色回复]".

(** The configuration of a run once Parser and Narrator have executed. *)
Definition after_narrator (env : Env) (messages : list Message) : Config :=
  step env (step env (start messages)).

(** The output for the character [who], from the outcome of its own
    generation alone ([None]: no model is configured). *)
Definition output_of (who : jsstring) (outcome : option Response)
  : PersonaOutput :=
  match outcome with
  | None => Persona.unconfigured who
  | Some Throws => Persona.failed who
  | Some NotString =>
      {| characterName := who; content := []; formatValid := false |}
  | Some (Content text) =>
      {| characterName := who; content := text;
         formatValid := (0 <? length text)%nat |}
  end.

(** The outcome of the generation for the character at position [i] in
    fan-out execution [k]. *)
Definition outcome_at (env : Env) (k : nat) (s : GraphState)
    (p : ParsedInput) (i : nat) (who : jsstring) : option Response :=
  option_map
    (fun model =>
       model k i who
         (Narrator.opt_or (rec_get who (characterContexts s)) [])
         (presetInstructions p))
    (personaModelConfig env).

(** Three characters are active; the model answers A and C and throws for
    B (the character at position 1). *)
Definition env_B_throws : Env :=
  {| JSON_parse_WorldState := fun _ => None;
     JSON_parse_array := fun _ => None;
     getTableData := None;
     narratorModel := None; directorModel := None;
     personaModelConfig :=
       Some (fun _ i who _ _ =>
               if Nat.eqb i 1 then Throws else Content (lit "I am " ++ who));
     composerModel := None |}.

Definition no_input : ParsedInput :=
  {| presetInstructions := []; characterSettings := []; chatHistory := [];
     userInput := []; tableData := None |}.

Definition state_ABC : GraphState :=
  {| rawMessages := []; parsedInput := Some no_input; worldState := None;
     activeCharacters := [lit "A"; lit "B"; lit "C"];
     characterContexts := [];
     personaOutputs := []; formatCheckPassed := false;
     retryCount := 0%Z; finalOutput := []; error := None |}.

(** [sub] occurs in [s]. *)
Definition substring (sub s : jsstring) : Prop :=
  exists pre post, s = pre ++ sub ++ post.

(** ** Example inputs of the Narrator and the Director *)

Definition QUOTE : char := 34%N.

Definition quoted (s : jsstring) : jsstring := [QUOTE] ++ s ++ [QUOTE].

(** The JSON text of a world state without characters. *)
Definition json_world (w : WorldState) : jsstring :=
  lit "{" ++ quoted (lit "scene") ++ lit ":" ++ quoted (scene w) ++ lit ","
  ++ quoted (lit "time") ++ lit ":" ++ quoted (time w) ++ lit ","
  ++ quoted (lit "characters") ++ lit ":{},"
  ++ quoted (lit "recentEvents") ++ lit ":["
  ++ join (lit ",") (map quoted (recentEvents w)) ++ lit "]}".

(** [JSON.parse] on the one text [json_world w], which it reads back as
    [w]; the examples hand it no other text that parses. *)
Definition parse_only (w : WorldState) (text : jsstring)
  : option WorldState :=
  if JS.eqb text (json_world w) then Some w else None.

Definition eleven_events : WorldState :=
  {| scene := lit "hall"; time := lit "noon"; characters := [];
     recentEvents :=
       map lit ["e1"; "e2"; "e3"; "e4"; "e5"; "e6"; "e7"; "e8"; "e9";
                "e10"; "e11"]%string |}.

(** The Narrator model answers with the JSON text of [eleven_events]. *)
Definition env_eleven : Env :=
  {| JSON_parse_WorldState := parse_only eleven_events;
     JSON_parse_array := fun _ => None;
     getTableData := None;
     narratorModel := Some (fun _ _ => Content (json_world eleven_events));
     directorModel := None; personaModelConfig := None;
     composerModel := None |}.

(** The Narrator model answers with prose. *)
Definition env_prose : Env :=
  {| JSON_parse_WorldState := parse_only eleven_events;
     JSON_parse_array := fun _ => None;
     getTableData := None;
     narratorModel := Some (fun _ _ => Content (lit "Nothing has changed."));
     directorModel := None; personaModelConfig := None;
     composerModel := None |}.

Definition state_parsed (w : option WorldState) : GraphState :=
  {| rawMessages := []; parsedInput := Some no_input; worldState := w;
     activeCharacters := []; characterContexts := [];
     personaOutputs := []; formatCheckPassed := false;
     retryCount := 0%Z; finalOutput := []; error := None |}.

(** The state after the Narrator's update is merged. *)
Definition narrated (env : Env) (s : GraphState) : GraphState :=
  apply_update s (fst (Narrator.narratorNode env s)).

(** The strings among the elements of a parsed array, in order. *)
Fixpoint names_of (parsed : list JsonElem) : list jsstring :=
  match parsed with
  | [] => []
  | JStr c :: rest => c :: names_of rest
  | JOther :: rest => names_of rest
  end.

(** The state after the Director's update is merged. *)
Definition directed (env : Env) (s : GraphState) : GraphState :=
  apply_update s (fst (Director.directorNode env s)).

(** [JSON.parse] on the texts that are an array of string literals without
    escape sequences, with optional JSON white space around the tokens;
    every other text is rejected.  The examples hand it texts of this
    shape, and texts with something after the closing bracket, which
    [JSON.parse] rejects too. *)
Definition is_json_space (c : char) : bool :=
  N.eqb c 32%N || N.eqb c 9%N || N.eqb c 10%N || N.eqb c 13%N.

Definition skip_json_space (s : jsstring) : jsstring :=
  Narrator.skip_while is_json_space s.

(** After an opening quote: the characters up to the closing quote. *)
Fixpoint string_body (s : jsstring) : option (jsstring * jsstring) :=
  match s with
  | [] => None
  | c :: s' =>
      if N.eqb c QUOTE then Some ([], s')
      else if N.eqb c 92%N || (c <? 32)%N then None
      else match string_body s' with
           | Some (t, r) => Some (c :: t, r)
           | None => None
           end
  end.

(** After an element: a comma and one more element, or the closing
    bracket and nothing but white space. *)
Fixpoint more_elements (fuel : nat) (s : jsstring)
  : option (list JsonElem) :=
  match fuel with
  | O => None
  | S fuel' =>
      match skip_json_space s with
      | c :: r =>
          if N.eqb c 93%N then
            match skip_json_space r with [] => Some [] | _ => None end
          else if N.eqb c 44%N then
            match skip_json_space r with
            | q :: r' =>
                if N.eqb q QUOTE then
                  match string_body r' with
                  | Some (t, r'') =>
                      option_map (cons (JStr t)) (more_elements fuel' r'')
                  | None => None
                  end
                else None
            | [] => None
            end
          else None
      | [] => None
      end
  end.

Definition parse_string_array (text : jsstring) : option (list JsonElem) :=
  match skip_json_space text with
  | c :: r =>
      if N.eqb c 91%N then
        match skip_json_space r with
        | q :: r' =>
            if N.eqb q 93%N then
              match skip_json_space r' with [] => Some [] | _ => None end
            else if N.eqb q QUOTE then
              match string_body r' with
              | Some (t, r'') =>
                  option_map (cons (JStr t))
                    (more_elements (S (length r'')) r'')
              | None => None
              end
            else None
        | [] => None
        end
      else None
  | [] => None
  end.

Definition here (who : string) : jsstring * Character :=
  (lit who, {| name := lit who; present := true;
               lastPosition := lit "hall"; description := None |}).

(** A and B are present. *)
Definition state_AB : GraphState :=
  state_parsed
    (Some {| scene := lit "hall"; time := lit "noon";
             characters := [here "A"; here "B"]; recentEvents := [] |}).

(** The Director model answers every call with [reply]. *)
Definition env_director (reply : jsstring) : Env :=
  {| JSON_parse_WorldState := fun _ => None;
     JSON_parse_array := parse_string_array;
     getTableData := None;
     narratorModel := None;
     directorModel := Some (fun _ _ _ => Content reply);
     personaModelConfig := None; composerModel := None |}.

(** The reply that selects B and Z, and a reply that selects B and goes on
    with a bracketed remark. *)
Definition reply_BZ : jsstring :=
  lit "[" ++ quoted (lit "B") ++ lit "," ++ quoted (lit "Z") ++ lit "]".

Definition array_B : jsstring := lit "[" ++ quoted (lit "B") ++ lit "]".

Definition reply_B_remark : jsstring := array_B ++ lit " [done]".

(** The Director's selection, as the specification words it: a reply
    that contains an array literal of names makes [activeCharacters] the
    parsed names that are present, in the order of the reply. *)
Definition selects_parsed_names (env : Env) (s : GraphState)
    (present : list jsstring) (reply : jsstring) : Prop :=
  forall literal parsed,
    substring literal reply ->
    JSON_parse_array env literal = Some parsed ->
    activeCharacters (directed env s)
    = filter (Parser.array_includes present) (names_of parsed).

(** ** Messages made of text and tag spans *)

(** A piece of a message: a run of text, or a span [<name>inner</name>]. *)
Inductive Piece :=
| Text (t : jsstring)
| Span (name inner : jsstring).

Definition render_piece (x : Piece) : jsstring :=
  match x with
  | Text t => t
  | Span n inner =>
      [Parser.LT] ++ n ++ [Parser.GT] ++ inner
      ++ [Parser.LT; Parser.SLASH] ++ n ++ [Parser.GT]
  end.

Definition render (pieces : list Piece) : jsstring :=
  concat (map render_piece pieces).

(** The text outside the spans. *)
Fixpoint texts (pieces : list Piece) : jsstring :=
  match pieces with
  | [] => []
  | Text t :: rest => t ++ texts rest
  | Span _ _ :: rest => texts rest
  end.

(** The spans, as name and inner text. *)
Fixpoint elements (pieces : list Piece) : list (jsstring * jsstring) :=
  match pieces with
  | [] => []
  | Text _ :: rest => elements rest
  | Span n inner :: rest => (n, inner) :: elements rest
  end.

(** Text and inner text hold no [<]; a tag name is a non-empty run of word
    characters, recognized by the catalogs or not. *)
Definition well_formed (x : Piece) : Prop :=
  match x with
  | Text t => ~ In Parser.LT t
  | Span n inner =>
      n <> [] /\ forallb is_word n = true /\ ~ In Parser.LT inner
  end.

(** Some tag, opening or closing, starts somewhere in [s]. *)
Fixpoint contains_tag (s : jsstring) : bool :=
  match Parser.open_tag s, Parser.close_tag s with
  | None, None =>
      match s with
      | [] => false
      | _ :: s' => contains_tag s'
      end
  | _, _ => true
  end.

(** The dialogue text the Parser keeps of a message. *)
Definition dialogue (content : jsstring) : jsstring :=
  Parser.stripXmlTags content.

Definition styled_hello : jsstring :=
  lit "<fiction_style>X</fiction_style>Hello".

(** The property of stripping, as the specification words it: no tag
    markup is left in the dialogue text of a message. *)
Definition strips_all_markup (content : jsstring) : Prop :=
  contains_tag (dialogue content) = false.

Definition styled_hello_pieces : list Piece :=
  [Span (lit "fiction_style") (lit "X"); Text (lit "Hello")].

(** Every invocation of the Persona model fails, if one is configured. *)
Definition never_replies (env : Env) : Prop :=
  forall model,
    personaModelConfig env = Some model ->
    forall k i who context preset, model k i who context preset = Throws.

(** The Persona model throws on every call. *)
Definition env_throws : Env :=
  {| JSON_parse_WorldState := fun _ => None;
     JSON_parse_array := fun _ => None;
     getTableData := None;
     narratorModel := None; directorModel := None;
     personaModelConfig := Some (fun _ _ _ _ _ => Throws);
     composerModel := None |}.

(** ** Vocabulary of the run invariants *)

(** [k] rounds of fan-out and evaluation. *)
Fixpoint rounds (k : nat) : list Node :=
  match k with
  | O => []
  | S k' => persona :: evaluate :: rounds k'
  end.

(** What holds of a configuration once the Director has executed: the
    parsed input, the world state, the selection and the contexts are the
    ones the first three nodes left; the outputs and the retry count follow
    the number of fan-out executions. *)
Definition settled (env : Env) (messages : list Message) (c : Config)
  : Prop :=
  let c2 := after_narrator env messages in
  let c3 := step env c2 in
  parsedInput (state c) = Some (Parser.parse env messages)
  /\ worldState (state c) = worldState (state c2)
  /\ activeCharacters (state c) = activeCharacters (state c3)
  /\ characterContexts (state c) = characterContexts (state c3)
  /\ length (personaOutputs (state c))
     = executions c * length (activeCharacters (state c))
  /\ Z.of_nat (executions c)
     = (retryCount (state c)
        + match at_node c with persona => 0 | _ => 1 end)%Z.

(** The line the rule-based Narrator records for an input. *)
Definition event_of (p : ParsedInput) : jsstring :=
  lit "用户输入: " ++ slice_to 50 (userInput p) ++ lit "...".

(** ** Vocabulary of the event log *)

Definition agent_eqb (a b : Agent) : bool :=
  match a, b with
  | Narrator, Narrator | Director, Director
  | Persona, Persona | Composer, Composer => true
  | _, _ => false
  end.

Definition is_invoke (a : Agent) (e : Event) : bool :=
  match e with
  | Invoke b => agent_eqb a b
  | Generate _ => false
  end.

Definition is_generate (e : Event) : bool :=
  match e with
  | Invoke _ => false
  | Generate _ => true
  end.

(** How often the model of [a] was invoked, and how often the
    per-character generation was entered. *)
Definition invocations (a : Agent) (l : list Event) : nat :=
  length (filter (is_invoke a) l).

Definition generations (l : list Event) : nat :=
  length (filter is_generate l).

(** 1 when a Persona model is configured, 0 otherwise. *)
Definition persona_configured (env : Env) : nat :=
  match personaModelConfig env with Some _ => 1 | None => 0 end.

(** The counts of a log once the Director has executed. *)
Definition within_budget (env : Env) (c : Config) : Prop :=
  invocations Narrator (log c) <= 1
  /\ invocations Director (log c) <= 1
  /\ invocations Composer (log c)
     <= match at_node c with END => 1 | _ => 0 end
  /\ invocations Persona (log c)
     = persona_configured env
       * (executions c * length (activeCharacters (state c)))
  /\ generations (log c)
     = executions c * length (activeCharacters (state c)).

(** ** Vocabulary of the Composer *)

(** An output the deterministic composition keeps. *)
Definition kept (o : PersonaOutput) : bool :=
  formatValid o && truthy (content o).

(** The separator between two blocks of the deterministic composition. *)
Definition SEPARATOR : jsstring := [10%N; 10%N] ++ lit "---" ++ [10%N; 10%N].

(** What [runGraph] returns for an empty final output. *)
Definition no_output : jsstring := lit "[无输出]".

(** [env] without its Composer model. *)
Definition without_composer (env : Env) : Env :=
  {| JSON_parse_WorldState := JSON_parse_WorldState env;
     JSON_parse_array := JSON_parse_array env;
     getTableData := getTableData env;
     narratorModel := narratorModel env;
     directorModel := directorModel env;
     personaModelConfig := personaModelConfig env;
     composerModel := None |}.

(** [env] without its Director model. *)
Definition without_director (env : Env) : Env :=
  {| JSON_parse_WorldState := JSON_parse_WorldState env;
     JSON_parse_array := JSON_parse_array env;
     getTableData := getTableData env;
     narratorModel := narratorModel env;
     directorModel := None;
     personaModelConfig := personaModelConfig env;
     composerModel := composerModel env |}.

(** The Composer model throws. *)
Definition env_composer_throws : Env :=
  {| JSON_parse_WorldState := fun _ => None;
     JSON_parse_array := fun _ => None;
     getTableData := None;
     narratorModel := None; directorModel := None;
     personaModelConfig := None;
     composerModel := Some (fun _ _ => Throws) |}.

Definition says (who text : string) : PersonaOutput :=
  {| characterName := lit who; content := lit text; formatValid := true |}.

(** ** Vocabulary of the Director *)

(** The one property name whose assignment on a plain object creates no
    own property. *)
Definition PROTO : jsstring := lit "__proto__".

(** A and B are present, C has left: the same scene as [state_AB] but for
    the absent character. *)
Definition gone (who : string) : jsstring * Character :=
  (lit who, {| name := lit who; present := false;
               lastPosition := lit "garden"; description := None |}).

Definition world_AB : WorldState :=
  {| scene := lit "hall"; time := lit "noon";
     characters := [here "A"; here "B"]; recentEvents := [] |}.

Definition world_ABC : WorldState :=
  {| scene := lit "hall"; time := lit "noon";
     characters := [here "A"; gone "C"; here "B"]; recentEvents := [] |}.

(** The Director model throws. *)
Definition env_director_throws : Env :=
  {| JSON_parse_WorldState := fun _ => None;
     JSON_parse_array := parse_string_array;
     getTableData := None;
     narratorModel := None;
     directorModel := Some (fun _ _ _ => Throws);
     personaModelConfig := None; composerModel := None |}.

(** ** Vocabulary of the Parser *)

Definition USER : jsstring := lit "user".
Definition ASSISTANT : jsstring := lit "assistant".
Definition HISTORY : jsstring := lit "history".

(** The dialogue entries of messages that hold no tag: the messages of the
    two dialogue roles whose trimmed content is not empty, in order. *)
Fixpoint plain_dialogue (msgs : list Message) : list Message :=
  match msgs with
  | [] => []
  | m :: rest =>
      if (JS.eqb (role m) ASSISTANT || JS.eqb (role m) USER)
         && truthy (trim (msg_content m))
      then {| role := role m; msg_content := trim (msg_content m) |}
           :: plain_dialogue rest
      else plain_dialogue rest
  end.

(** The inner text of the last element named [k]. *)
Fixpoint last_inner (k : jsstring) (els : list (jsstring * jsstring))
  : option jsstring :=
  match els with
  | [] => None
  | (n, inner) :: rest =>
      match last_inner k rest with
      | Some v => Some v
      | None => if JS.eqb k n then Some inner else None
      end
  end.

(** An opening tag, and a span closed by the tag of another name. *)
Definition opening (n : jsstring) : jsstring :=
  [Parser.LT] ++ n ++ [Parser.GT].

Definition closing (n : jsstring) : jsstring :=
  [Parser.LT; Parser.SLASH] ++ n ++ [Parser.GT].

Definition tag_name (n : jsstring) : Prop :=
  n <> [] /\ forallb is_word n = true.

Definition tagged_twice : list Piece :=
  [Span (lit "char") (lit " old "); Text (lit "Hi");
   Span (lit "char") (lit "new")].

(** ** Vocabulary of the rule-based Narrator *)

(** The text in which [extractCharacters] looks for a name. *)
Definition charInfo (characterSettings : Rec jsstring) : jsstring :=
  Narrator.opt_or (rec_get (lit "char") characterSettings)
    (Narrator.opt_or (rec_get (lit "info_settings") characterSettings) []).

(** The record [extractCharacters] builds for a name. *)
Definition in_scene (n : jsstring) : Character :=
  {| name := n; present := true; lastPosition := lit "当前场景";
     description := None |}.

(** A world in which Alice has a description and is away. *)
Definition world_alice_away : WorldState :=
  {| scene := lit "hall"; time := lit "noon";
     characters :=
       [(lit "Alice",
         {| name := lit "Alice"; present := false;
            lastPosition := lit "garden";
            description := Some (lit "a painter") |});
        here "B"];
     recentEvents := [lit "e1"; lit "e2"] |}.

Definition parsed_alice : ParsedInput :=
  Parser.parse env_none msgs_alice.

(** Settings whose [char] entry names nobody while [info_settings] does. *)
Definition settings_hidden_name : Rec jsstring :=
  [(lit "char", lit "Alice"); (lit "info_settings", lit "name: Bob")].

(** ** Vocabulary of the generated outputs *)

(** What the flag of an output says about its content. *)
Definition flag_sound (o : PersonaOutput) : Prop :=
  (formatValid o = true /\ content o <> [])
  \/ (formatValid o = false /\ (content o = [] \/ is_placeholder o)).

(** ** Vocabulary of the prompt templates *)

(** A template cut into plain text and variables. *)
Inductive Chunk :=
| Plain (text : jsstring)
| Variable_ (name_ : jsstring).

Definition render_chunk (c : Chunk) : jsstring :=
  match c with
  | Plain text => text
  | Variable_ n => Prompt.placeholder n
  end.

Definition render_template (chunks : list Chunk) : jsstring :=
  concat (map render_chunk chunks).

(** Plain text holds no opening brace; a variable has a name the pattern
    accepts. *)
Definition chunk_ok (c : Chunk) : Prop :=
  match c with
  | Plain text => ~ In Prompt.LBRACE text
  | Variable_ n => tag_name n
  end.

(** What a chunk becomes. *)
Definition substitute (vars : Prompt.Vars) (c : Chunk) : jsstring :=
  match c with
  | Plain text => text
  | Variable_ n =>
      match vars n with
      | Some value => value
      | None => Prompt.placeholder n
      end
  end.

(** No variable is defined. *)
Definition no_vars : Prompt.Vars := fun _ => None.

(** [a] stands for the placeholder of [b], and [b] for a text. *)
Definition vars_ab : Prompt.Vars :=
  fun n =>
    if JS.eqb n (lit "a") then Some (Prompt.placeholder (lit "b"))
    else if JS.eqb n (lit "b") then Some (lit "X")
    else None.

Definition greeting : list Chunk :=
  [Plain (lit "Hi "); Variable_ (lit "a"); Plain (lit ", ");
   Variable_ (lit "c")].

(** ** Vocabulary of the HTML escaping *)

Definition escape_char (c : char) : jsstring :=
  if N.eqb c Html.AMP then lit "&amp;"
  else if N.eqb c Parser.LT then lit "&lt;"
  else if N.eqb c Parser.GT then lit "&gt;"
  else if N.eqb c Html.QUOT then lit "&quot;"
  else if N.eqb c Html.APOS then lit "&#039;"
  else [c].

(** A character that opens or closes markup or an attribute value. *)
Definition is_markup (c : char) : bool :=
  N.eqb c Parser.LT || N.eqb c Parser.GT || N.eqb c Html.QUOT
  || N.eqb c Html.APOS.

(** ** Vocabulary of the configuration store *)

(** A store of numbered configurations with nothing cached, no host
    settings, and an older record. *)
Definition store_old_record : Storage.Store nat :=
  {| Storage.cachedConfig := None;
     Storage.multiAgent := None;
     Storage.record := Some 1 |}.

End Spec.
Import Spec.

(* ================================================================== *)
(** * Properties *)

Import Graph.

(** ** Strings *)

Section StringFacts.

Lemma eqb_refl (s : jsstring) : JS.eqb s s = true.
Proof.
  induction s as [|c s IH]; simpl; [reflexivity|].
  now rewrite N.eqb_refl, IH.
Qed.

Lemma eqb_eq (s t : jsstring) : JS.eqb s t = true <-> s = t.
Proof.
  split; [|intros ->; apply eqb_refl].
  revert t; induction s as [|c s IH]; intros [|d t]; simpl;
    try discriminate; [reflexivity|].
  intros H; apply andb_prop in H as [Hc Hs].
  apply N.eqb_eq in Hc; subst d.
  now rewrite (IH _ Hs).
Qed.

Lemma trimStart_blank (s : jsstring) :
  trimStart s = [] <-> forallb is_space s = true.
Proof.
  induction s as [|c s IH]; simpl; [tauto|].
  destruct (is_space c); simpl; [exact IH|].
  split; discriminate.
Qed.

Lemma trimStart_head (s : jsstring) :
  forallb is_space (trimStart s) = true -> trimStart s = [].
Proof.
  induction s as [|c s IH]; simpl; [reflexivity|].
  destruct (is_space c) eqn:E; [exact IH|].
  simpl; rewrite E; discriminate.
Qed.

Lemma forallb_rev {A} (p : A -> bool) (l : list A) :
  forallb p (rev l) = forallb p l.
Proof.
  induction l as [|a l IH]; simpl; [reflexivity|].
  rewrite forallb_app, IH; simpl.
  rewrite andb_true_r; apply andb_comm.
Qed.

(** [s.trim()] is empty exactly when [s] holds white space only. *)
Lemma trim_blank (s : jsstring) :
  trim s = [] <-> forallb is_space s = true.
Proof.
  unfold trim, trimEnd.
  split.
  - intros H.
    apply (f_equal (@rev char)) in H; rewrite rev_involutive in H; simpl in H.
    apply trimStart_blank in H; rewrite forallb_rev in H.
    apply trimStart_head in H.
    now apply trimStart_blank.
  - intros H; apply trimStart_blank in H; rewrite H; reflexivity.
Qed.

(** A string that holds a character that is not white space does not
    trim to the empty string. *)
Lemma trim_visible (pre post : jsstring) (c : char) :
  is_space c = false -> trim (pre ++ c :: post) <> [].
Proof.
  intros Hc H; apply trim_blank in H.
  rewrite forallb_app in H; simpl in H; rewrite Hc in H.
  now rewrite andb_false_r in H.
Qed.

End StringFacts.

(** ** The Evaluator *)

Section Evaluator.

Import Director.

(** The callback of the gate accepts an output exactly when its trimmed
    content is not empty; [formatValid] plays no part. *)
Lemma output_ok_spec (o : PersonaOutput) :
  output_ok o = true <-> trim (content o) <> [].
Proof.
  unfold output_ok.
  destruct (content o) as [|c s] eqn:E; simpl.
  - split; [discriminate | intros H; now elim H].
  - destruct (trim (c :: s)) as [|d t]; simpl.
    + split; [discriminate | intros H; now elim H].
    + split; [discriminate | reflexivity].
Qed.

Lemma allValid_spec (os : list PersonaOutput) :
  forallb output_ok os = true <->
  Forall (fun o => trim (content o) <> []) os.
Proof.
  rewrite forallb_forall, Forall_forall.
  split; intros H o Ho; apply output_ok_spec; auto.
Qed.

Lemma not_allValid_spec (os : list PersonaOutput) :
  forallb output_ok os = false <->
  Exists (fun o => trim (content o) = []) os.
Proof.
  induction os as [|o os IH]; simpl.
  - split; [discriminate | intros H; inversion H].
  - destruct (output_ok o) eqn:E; simpl.
    + rewrite IH; split; intros H.
      * now apply Exists_cons_tl.
      * inversion H as [? ? H0|]; subst; [|assumption].
        apply output_ok_spec in E; now elim E.
    + split; [intros _|reflexivity].
      apply Exists_cons_hd.
      destruct (trim (content o)) as [|d t] eqn:T; [reflexivity|].
      assert (output_ok o = true) as H
          by (apply output_ok_spec; rewrite T; discriminate).
      congruence.
Qed.

(** The three outcomes of the node, as the merged state shows them. *)
Lemma evaluated_cases (s : GraphState) :
  let s' := evaluated s in
  (forallb output_ok (personaOutputs s) = true /\
   formatCheckPassed s' = true /\ retryCount s' = retryCount s)
  \/ (forallb output_ok (personaOutputs s) = false /\
      (maxRetries <= retryCount s)%Z /\
      formatCheckPassed s' = true /\ retryCount s' = retryCount s)
  \/ (forallb output_ok (personaOutputs s) = false /\
      (retryCount s < maxRetries)%Z /\
      formatCheckPassed s' = false /\
      retryCount s' = (retryCount s + 1)%Z).
Proof.
  unfold evaluated, directorEvaluateNode; simpl.
  destruct (forallb output_ok (personaOutputs s)) eqn:E; simpl.
  - left; auto.
  - destruct (maxRetries <=? retryCount s)%Z eqn:B; simpl.
    + right; left; apply Z.leb_le in B; auto.
    + right; right; apply Z.leb_gt in B; auto.
Qed.

(** The merge never changes [personaOutputs] on the Evaluator's update:
    the channel's reducer appends, and the update holds no output. *)
Lemma evaluated_personaOutputs (s : GraphState) :
  personaOutputs (evaluated s) = personaOutputs s.
Proof.
  unfold evaluated, directorEvaluateNode.
  destruct (forallb output_ok (personaOutputs s)); simpl; [reflexivity|].
  destruct (maxRetries <=? retryCount s)%Z; simpl; [reflexivity|].
  unfold reduce_personaOutputs; apply app_nil_r.
Qed.

End Evaluator.

Section EvaluatorClaims.

Import Director.

(** C3 (as stated) fails at the retry bound: with [retryCount = 3] and one
    output of empty content, the gate is forced to pass and [retryCount]
    stays at 3. *)
Lemma C3_forced_pass_at_bound :
  ~ gate_iff_nonblank (state_with [empty_reply "A"] 3).
Proof.
  intros [_ H].
  assert (Exists (fun o => trim (content o) = [])
            (personaOutputs (state_with [empty_reply "A"] 3))) as E
      by (apply Exists_cons_hd; reflexivity).
  destruct (H E) as [Hf _].
  vm_compute in Hf; discriminate.
Qed.

(** C3 (amended): while [retryCount] is below the bound 3, the Evaluator
    passes the gate iff every output has non-empty content after trimming,
    and an output whose trimmed content is empty fails the gate and adds
    exactly 1 to [retryCount]; at the bound the gate passes whatever the
    outputs hold and [retryCount] is unchanged. *)
Theorem C3_gate_below_bound (s : GraphState) :
  ((retryCount s < maxRetries)%Z -> gate_iff_nonblank s)
  /\ ((maxRetries <= retryCount s)%Z ->
      formatCheckPassed (evaluated s) = true /\
      retryCount (evaluated s) = retryCount s).
Proof.
  pose proof (evaluated_cases s) as C; cbv zeta in C.
  split.
  - intros Hlt; unfold gate_iff_nonblank.
    rewrite <- allValid_spec, <- not_allValid_spec.
    destruct C as [(E & P & R) | [(E & B & P & R) | (E & B & P & R)]].
    + rewrite E, P; split; [tauto | discriminate].
    + lia.
    + rewrite E, P; split; [split; discriminate | auto].
  - intros Hge.
    destruct C as [(E & P & R) | [(E & B & P & R) | (E & B & P & R)]];
      auto; lia.
Qed.

Lemma C3_gate_below_bound_witness :
  gate_iff_nonblank (state_with [empty_reply "A"] 2)
  /\ formatCheckPassed (evaluated (state_with [empty_reply "A"] 3)) = true
  /\ retryCount (evaluated (state_with [empty_reply "A"] 3)) = 3%Z.
Proof.
  split.
  - apply (proj1 (C3_gate_below_bound (state_with [empty_reply "A"] 2))).
    vm_compute; reflexivity.
  - apply (proj2 (C3_gate_below_bound (state_with [empty_reply "A"] 3))).
    vm_compute; discriminate.
Defined.

Lemma placeholder_visible (o : PersonaOutput) :
  is_placeholder o -> trim (content o) <> [].
Proof.
  intros [H | H]; rewrite H; simpl;
    apply (trim_visible [] _ 91%N); reflexivity.
Qed.

(** A state whose outputs are placeholders or hold visible text passes
    the gate: no retry, no change of [retryCount]. *)
Lemma placeholders_pass (s : GraphState) :
  (forall o, In o (personaOutputs s) ->
             is_placeholder o \/ trim (content o) <> []) ->
  forallb output_ok (personaOutputs s) = true
  /\ formatCheckPassed (evaluated s) = true
  /\ retryCount (evaluated s) = retryCount s
  /\ p_retryCount (fst (directorEvaluateNode s)) = None.
Proof.
  intros H.
  assert (forallb output_ok (personaOutputs s) = true) as Hall.
  { apply forallb_forall; intros o Ho; apply output_ok_spec.
    destruct (H o Ho) as [P | P]; [now apply placeholder_visible | exact P]. }
  unfold evaluated, directorEvaluateNode; rewrite Hall; auto.
Qed.

End EvaluatorClaims.

(** ** The graph *)

Section GraphFacts.

Variable env : Env.

Lemma fst_bind {A B} (m : M A) (k : A -> M B) :
  fst (bind m k) = fst (k (fst m)).
Proof.
  unfold bind; destruct m as [a t]; simpl.
  destruct (k a); reflexivity.
Qed.

Lemma snd_bind {A B} (m : M A) (k : A -> M B) :
  snd (bind m k) = snd m ++ snd (k (fst m)).
Proof.
  unfold bind; destruct m as [a t]; simpl.
  destruct (k a); reflexivity.
Qed.

Lemma step_state (c : Config) :
  state (step env c) =
  apply_update (state c)
    (fst (node_fn env (at_node c) (executions c) (state c))).
Proof.
  unfold step.
  destruct (node_fn env (at_node c) (executions c) (state c)); reflexivity.
Qed.

Lemma step_node (c : Config) :
  at_node (step env c) = next (at_node c) (state (step env c)).
Proof.
  unfold step.
  destruct (node_fn env (at_node c) (executions c) (state c)); reflexivity.
Qed.

Lemma step_log (c : Config) :
  log (step env c) =
  log c ++ snd (node_fn env (at_node c) (executions c) (state c)).
Proof.
  unfold step.
  destruct (node_fn env (at_node c) (executions c) (state c)); reflexivity.
Qed.

(** What each node may write: only the Evaluator touches [retryCount] and
    [formatCheckPassed], only the Parser [parsedInput]. *)
Ltac node_cases :=
  repeat (rewrite ?fst_bind; cbn [fst ret emit];
          match goal with
          | |- context [match ?x with _ => _ end] => destruct x eqn:?
          | |- context [if ?x then _ else _] => destruct x eqn:?
          end);
  rewrite ?fst_bind; cbn [fst ret emit].

Lemma narrator_writes (s : GraphState) :
  let u := fst (Narrator.narratorNode env s) in
  p_retryCount u = None /\ p_parsedInput u = None
  /\ p_personaOutputs u = None.
Proof.
  unfold Narrator.narratorNode; node_cases; repeat split.
Qed.

Lemma director_writes (s : GraphState) :
  let u := fst (Director.directorNode env s) in
  p_retryCount u = None /\ p_parsedInput u = None
  /\ p_personaOutputs u = None /\ p_worldState u = None.
Proof.
  unfold Director.directorNode; node_cases; repeat split.
Qed.

Lemma persona_writes (k : nat) (s : GraphState) :
  let u := fst (Persona.personaNode env k s) in
  p_retryCount u = None /\ p_parsedInput u = None /\ p_worldState u = None.
Proof.
  unfold Persona.personaNode; node_cases; repeat split.
Qed.

Lemma composer_writes (s : GraphState) :
  let u := fst (Composer.composerNode env s) in
  p_retryCount u = None /\ p_parsedInput u = None /\ p_worldState u = None
  /\ exists text, p_finalOutput u = Some text.
Proof.
  unfold Composer.composerNode; node_cases;
    (split; [|split; [|split]]); try reflexivity; eexists; reflexivity.
Qed.

Lemma evaluate_writes (s : GraphState) :
  let u := fst (Director.directorEvaluateNode s) in
  p_parsedInput u = None /\ p_worldState u = None.
Proof.
  unfold Director.directorEvaluateNode; node_cases; repeat split.
Qed.

Lemma keeps_retryCount (s : GraphState) (u : Partial) :
  p_retryCount u = None -> retryCount (apply_update s u) = retryCount s.
Proof. intros H; simpl; now rewrite H. Qed.

Lemma step_retryCount (c : Config) :
  at_node c <> evaluate ->
  retryCount (state (step env c)) = retryCount (state c).
Proof.
  intros Hn; rewrite step_state; apply keeps_retryCount.
  destruct (at_node c); simpl; try reflexivity.
  - apply narrator_writes.
  - apply director_writes.
  - apply persona_writes.
  - now elim Hn.
  - apply composer_writes.
Qed.

Lemma step_evaluate (c : Config) :
  at_node c = evaluate -> state (step env c) = evaluated (state c).
Proof. intros H; rewrite step_state, H; reflexivity. Qed.

Lemma steps_S (n : nat) (c : Config) :
  at_node c <> END -> steps env (S n) c = steps env n (step env c).
Proof. intros H; simpl; destruct (at_node c); try reflexivity; now elim H. Qed.

Lemma steps_END (n : nat) (c : Config) :
  at_node c = END -> steps env n c = c.
Proof. intros H; destruct n; simpl; [|rewrite H]; reflexivity. Qed.

Lemma steps_more (n m : nat) (c : Config) :
  at_node (steps env n c) = END -> n <= m -> steps env m c = steps env n c.
Proof.
  revert m c; induction n as [|n IH]; intros m c H Hle.
  - simpl in *; now apply steps_END.
  - destruct m as [|m]; [lia|].
    simpl in *; destruct (at_node c); try reflexivity;
      apply IH; auto; lia.
Qed.

End GraphFacts.

Section Termination.

Variable env : Env.
Variable messages : list Message.

Lemma retryCount_bounds (c : Config) :
  reachable env messages c ->
  (0 <= retryCount (state c) <= Director.maxRetries)%Z.
Proof.
  unfold Director.maxRetries.
  induction 1 as [|c Hc IH Hn].
  - change (retryCount (state (start messages))) with 0%Z; lia.
  - destruct (at_node c) eqn:E;
      try (rewrite step_retryCount; [exact IH | rewrite E; discriminate]).
    rewrite (step_evaluate env c E).
    pose proof (evaluated_cases (state c)) as C; cbv zeta in C.
    unfold Director.maxRetries in C.
    destruct C as [(_ & _ & R) | [(_ & _ & _ & R) | (_ & B & _ & R)]];
      rewrite R; lia.
Qed.

(** One turn of the retry loop: the fan-out and the Evaluator either lead
    to the Composer, or come back to the fan-out with one more retry. *)
Lemma loop_turn (c : Config) :
  reachable env messages c -> at_node c = persona ->
  let c2 := step env (step env c) in
  reachable env messages c2
  /\ (forall n, steps env (S (S n)) c = steps env n c2)
  /\ (at_node c2 = composer
      \/ (at_node c2 = persona
          /\ (retryCount (state c) < Director.maxRetries)%Z
          /\ retryCount (state c2) = (retryCount (state c) + 1)%Z)).
Proof.
  intros Hr Hn c2.
  set (c1 := step env c).
  assert (at_node c1 = evaluate) as Hn1
      by (unfold c1; rewrite step_node, Hn; reflexivity).
  assert (reachable env messages c1) as Hr1
      by (apply reach_step; [exact Hr | rewrite Hn; discriminate]).
  assert (retryCount (state c1) = retryCount (state c)) as Hrc1
      by (apply step_retryCount; rewrite Hn; discriminate).
  subst c2; fold c1.
  split; [apply reach_step; [exact Hr1 | rewrite Hn1; discriminate]|].
  split.
  - intros n; rewrite steps_S by (rewrite Hn; discriminate).
    fold c1; rewrite steps_S by (rewrite Hn1; discriminate); reflexivity.
  -
    rewrite step_node, Hn1, (step_evaluate env c1 Hn1); cbn [next].
    unfold routeAfterEvaluate.
    pose proof (evaluated_cases (state c1)) as C; cbv zeta in C.
    destruct C as [(_ & P & _) | [(_ & _ & P & _) | (_ & B & P & R)]];
      rewrite P; [left; reflexivity | left; reflexivity | right].
    split; [reflexivity|].
    split; [now rewrite <- Hrc1|].
    now rewrite R, Hrc1.
Qed.

Lemma retry_loop_ends (k : nat) (c : Config) :
  reachable env messages c -> at_node c = persona ->
  retryCount (state c) = (Director.maxRetries - Z.of_nat k)%Z ->
  exists n pre,
    n <= 2 * k + 3 /\ reachable env messages pre /\ at_node pre = composer
    /\ steps env n c = step env pre.
Proof.
  revert c; induction k as [|k IH]; intros c Hr Hn Hrc;
    destruct (loop_turn c Hr Hn) as (Hr2 & Hs & [Hc | (Hp & Hlt & Hrc2)]).
  - exists 3, (step env (step env c)); repeat split; auto.
    rewrite Hs; apply steps_S; rewrite Hc; discriminate.
  - lia.
  - exists 3, (step env (step env c)); repeat split; auto; [lia|].
    rewrite Hs; apply steps_S; rewrite Hc; discriminate.
  - destruct (IH _ Hr2 Hp) as (n & pre & Hle & Hrp & Hnp & Hst);
      [lia|].
    exists (S (S n)), pre; repeat split; auto; [lia|].
    now rewrite Hs.
Qed.

(** Parser, Narrator and Director lead to the first fan-out, with
    [retryCount] still 0. *)
Lemma first_fan_out :
  let c3 := step env (step env (step env (start messages))) in
  reachable env messages c3 /\ at_node c3 = persona
  /\ retryCount (state c3) = 0%Z
  /\ forall n, steps env (3 + n) (start messages) = steps env n c3.
Proof.
  set (c0 := start messages).
  set (c1 := step env c0).
  set (c2 := step env c1).
  assert (at_node c1 = narrator) as H1 by (unfold c1; now rewrite step_node).
  assert (at_node c2 = director) as H2
      by (unfold c2; now rewrite step_node, H1).
  assert (reachable env messages c1) as R1
      by (apply reach_step; [constructor | discriminate]).
  assert (reachable env messages c2) as R2
      by (apply reach_step; [exact R1 | rewrite H1; discriminate]).
  cbv zeta; repeat split.
  - apply reach_step; [exact R2 | rewrite H2; discriminate].
  - now rewrite step_node, H2.
  - rewrite step_retryCount by (rewrite H2; discriminate).
    fold c2; unfold c2.
    rewrite step_retryCount by (rewrite H1; discriminate).
    fold c1; unfold c1.
    rewrite step_retryCount by discriminate.
    reflexivity.
  - intros n; change (3 + n) with (S (S (S n))).
    rewrite steps_S by discriminate; fold c0 c1.
    rewrite steps_S by (rewrite H1; discriminate); fold c2.
    rewrite steps_S by (rewrite H2; discriminate); reflexivity.
Qed.

(** Every run ends, within 12 supersteps, by the Composer's step. *)
Lemma run_ends :
  exists n pre,
    n <= 12 /\ reachable env messages pre /\ at_node pre = composer
    /\ steps env n (start messages) = step env pre
    /\ invoke env messages = Some (step env pre).
Proof.
  destruct first_fan_out as (R3 & N3 & Z3 & S3).
  destruct (retry_loop_ends 3 _ R3 N3) as (n & pre & Hle & Hr & Hn & Hs);
    [rewrite Z3; reflexivity|].
  assert (at_node (step env pre) = END) as HE
      by (now rewrite step_node, Hn).
  exists (3 + n), pre; repeat split; auto; [lia | now rewrite S3 |].
  unfold invoke.
  rewrite (steps_more env (3 + n) recursionLimit);
    [| rewrite S3, Hs; exact HE | unfold recursionLimit; lia].
  now rewrite S3, Hs, HE.
Qed.

End Termination.

Section RunClaims.

Lemma steps_reachable (env : Env) (messages : list Message) (n : nat) :
  forall c, reachable env messages c ->
            reachable env messages (steps env n c).
Proof.
  induction n as [|n IH]; intros c Hc; simpl; [exact Hc|].
  destruct (at_node c) eqn:E; try exact Hc;
    apply IH, reach_step; auto; rewrite E; discriminate.
Qed.



End RunClaims.

Section ZeroPresent.

Variable env : Env.
Variable messages : list Message.

Lemma narrator_shape (s : GraphState) :
  (exists w, fst (Narrator.narratorNode env s) = Narrator.only_worldState w)
  \/ (exists e, fst (Narrator.narratorNode env s) = Narrator.only_error e).
Proof.
  unfold Narrator.narratorNode.
  destruct (parsedInput s); [|right; eexists; reflexivity].
  left; destruct (narratorModel env); [|eexists; reflexivity].
  rewrite fst_bind.
  destruct (content_of _); [|eexists; reflexivity].
  destruct (Narrator.parse_reply env _); eexists; reflexivity.
Qed.

Lemma narrator_log (s : GraphState) (e : Event) :
  In e (snd (Narrator.narratorNode env s)) -> e = Invoke Narrator.
Proof.
  unfold Narrator.narratorNode.
  destruct (parsedInput s); [|intros []].
  destruct (narratorModel env); [|intros []].
  rewrite snd_bind; cbn [emit fst snd app].
  destruct (content_of _); [destruct (Narrator.parse_reply env _)|];
    simpl; intros [<- | []]; reflexivity.
Qed.

(** What the run holds when the Director is about to execute. *)
Lemma before_director :
  let c2 := after_narrator env messages in
  at_node c2 = director
  /\ parsedInput (state c2) = Some (Parser.parse env messages)
  /\ activeCharacters (state c2) = []
  /\ personaOutputs (state c2) = []
  /\ (forall e, In e (log c2) -> e = Invoke Narrator)
  /\ forall n, steps env (2 + n) (start messages) = steps env n c2.
Proof.
  unfold after_narrator.
  set (c1 := step env (start messages)).
  assert (at_node c1 = narrator) as H1 by reflexivity.
  assert (state c1 =
          apply_update (state (start messages))
            (fst (Parser.parserNode env (state (start messages))))) as S1
      by reflexivity.
  assert (log c1 = []) as L1 by reflexivity.
  cbv zeta.
  rewrite step_node, step_state, step_log, H1, L1; cbn [node_fn next app].
  split; [reflexivity|].
  destruct (narrator_shape (state c1)) as [[w Hw] | [e He]].
  - rewrite Hw, S1; repeat split; try reflexivity; apply narrator_log.
  - rewrite He, S1; repeat split; try reflexivity; apply narrator_log.
Qed.

(** With no present character the Director selects nobody, invoking no
    model. *)
Lemma director_selects_nobody (s : GraphState) :
  no_present s -> activeCharacters s = [] ->
  activeCharacters (apply_update s (fst (Director.directorNode env s))) = []
  /\ snd (Director.directorNode env s) = []
  /\ p_personaOutputs (fst (Director.directorNode env s)) = None
  /\ p_parsedInput (fst (Director.directorNode env s)) = None.
Proof.
  unfold no_present, Director.directorNode; intros Hw Ha.
  destruct (parsedInput s); [|simpl; auto].
  destruct (worldState s) as [w|]; [|simpl; auto].
  rewrite Hw; simpl; auto.
Qed.

Lemma zero_present_run :
  no_present (state (after_narrator env messages)) ->
  exists final,
    invoke env messages = Some final
    /\ finalOutput (state final) = no_replies
    /\ forall e, In e (log final) -> e = Invoke Narrator.
Proof.
  intros Hz.
  destruct before_director as (N2 & P2 & A2 & O2 & L2 & S2).
  set (c2 := after_narrator env messages) in *.
  destruct (director_selects_nobody (state c2) Hz A2)
    as (A3 & T3 & PO3 & PI3).
  set (c3 := step env c2).
  assert (at_node c3 = persona) as N3
      by (unfold c3; now rewrite step_node, N2).
  assert (activeCharacters (state c3) = []) as HA3
      by (unfold c3; now rewrite step_state, N2).
  assert (personaOutputs (state c3) = []) as HO3
      by (unfold c3; rewrite step_state, N2; cbn [node_fn apply_update
            personaOutputs]; now rewrite PO3).
  assert (parsedInput (state c3) = Some (Parser.parse env messages)) as HP3
      by (unfold c3; rewrite step_state, N2; cbn [node_fn apply_update
            parsedInput]; now rewrite PI3).
  assert (log c3 = log c2) as HL3
      by (unfold c3; rewrite step_log, N2; cbn [node_fn]; rewrite T3;
          apply app_nil_r).
  assert (node_fn env persona (executions c3) (state c3)
          = ret (Persona.outputs [])) as F3
      by (cbn [node_fn]; unfold Persona.personaNode;
          now rewrite HP3, HA3).
  set (c4 := step env c3).
  assert (at_node c4 = evaluate) as N4
      by (unfold c4; now rewrite step_node, N3).
  assert (personaOutputs (state c4) = []) as HO4
      by (unfold c4; rewrite step_state, N3, F3; simpl; now rewrite HO3).
  assert (log c4 = log c2) as HL4
      by (unfold c4; rewrite step_log, N3, F3, HL3; apply app_nil_r).
  assert (node_fn env evaluate (executions c4) (state c4)
          = ret {| p_rawMessages := None; p_parsedInput := None;
                   p_worldState := None; p_activeCharacters := None;
                   p_characterContexts := None; p_personaOutputs := None;
                   p_formatCheckPassed := Some true; p_retryCount := None;
                   p_finalOutput := None; p_error := None |}) as F4
      by (cbn [node_fn]; unfold Director.directorEvaluateNode;
          now rewrite HO4).
  set (c5 := step env c4).
  assert (at_node c5 = composer) as N5
      by (unfold c5; now rewrite step_node, step_state, N4, F4).
  assert (personaOutputs (state c5) = []) as HO5
      by (unfold c5; rewrite step_state, N4, F4; simpl; exact HO4).
  assert (log c5 = log c2) as HL5
      by (unfold c5; rewrite step_log, N4, F4, HL4; apply app_nil_r).
  assert (node_fn env composer (executions c5) (state c5)
          = ret (Composer.final no_replies)) as F5
      by (cbn [node_fn]; unfold Composer.composerNode; now rewrite HO5).
  set (c6 := step env c5).
  assert (at_node c6 = END) as N6
      by (unfold c6; now rewrite step_node, N5).
  assert (steps env 6 (start messages) = c6) as HS.
  { change 6 with (2 + 4); rewrite (S2 4).
    rewrite steps_S by (fold c2; rewrite N2; discriminate); fold c2 c3.
    rewrite steps_S by (rewrite N3; discriminate); fold c4.
    rewrite steps_S by (rewrite N4; discriminate); fold c5.
    rewrite steps_S by (rewrite N5; discriminate); reflexivity. }
  exists c6; repeat split.
  - unfold invoke.
    rewrite (steps_more env 6 recursionLimit), HS, ?N6;
      [reflexivity | | unfold recursionLimit; lia].
    now rewrite HS.
  - unfold c6; now rewrite step_state, N5, F5.
  - unfold c6; rewrite step_log, N5, F5, HL5; cbn [ret snd].
    rewrite app_nil_r; exact L2.
Qed.

End ZeroPresent.

(** C9: when the world state the Narrator leaves holds no present
    character, the run ends with [finalOutput] equal to the fixed sentinel
    (which [runGraph] returns), its log holds no entry into the
    per-character generation and no Persona, Composer or Director model
    invocation: the only event there can be is the Narrator's own model
    call. *)
Theorem C9_zero_present_sentinel (env : Env) (messages : list Message) :
  no_present (state (after_narrator env messages)) ->
  exists final,
    invoke env messages = Some final
    /\ finalOutput (state final) = no_replies
    /\ runGraph env messages = Some no_replies
    /\ (forall who, ~ In (Generate who) (log final))
    /\ ~ In (Invoke Persona) (log final)
    /\ ~ In (Invoke Composer) (log final)
    /\ ~ In (Invoke Director) (log final).
Proof.
  intros Hz.
  destruct (zero_present_run env messages Hz) as (final & Hi & Hf & Hl).
  exists final; repeat split; auto;
    try (intros H; apply Hl in H; discriminate).
  - unfold runGraph; now rewrite Hi, Hf.
  - intros who H; apply Hl in H; discriminate.
Qed.

Lemma C9_zero_present_sentinel_witness :
  exists final,
    invoke env_none [user_says (lit "Hello")] = Some final
    /\ finalOutput (state final) = no_replies
    /\ runGraph env_none [user_says (lit "Hello")] = Some no_replies
    /\ (forall who, ~ In (Generate who) (log final))
    /\ ~ In (Invoke Persona) (log final)
    /\ ~ In (Invoke Composer) (log final)
    /\ ~ In (Invoke Director) (log final).
Proof.
  apply (C9_zero_present_sentinel env_none [user_says (lit "Hello")]).
  vm_compute; reflexivity.
Defined.

Section RetryOutputs.

(** Whatever the state, when the Evaluator triggers a retry its update
    carries an empty [personaOutputs], and the merge leaves the list as it
    was, with the output that failed the gate still in it. *)
Lemma retry_never_clears (s : GraphState) :
  formatCheckPassed (evaluated s) = false ->
  p_personaOutputs (fst (Director.directorEvaluateNode s)) = Some []
  /\ personaOutputs (evaluated s) = personaOutputs s
  /\ personaOutputs s <> [].
Proof.
  intros H; split; [|split; [apply evaluated_personaOutputs|]].
  - unfold evaluated, Director.directorEvaluateNode in *.
    destruct (forallb Director.output_ok (personaOutputs s));
      [discriminate|].
    destruct (Director.maxRetries <=? retryCount s)%Z;
      [discriminate | reflexivity].
  - unfold evaluated, Director.directorEvaluateNode in H.
    destruct (personaOutputs s); [discriminate | discriminate].
Qed.

(** C2 (the code departs from it): the Evaluator's update on a failed gate
    carries [personaOutputs: []], meant to clear the list, but the channel's
    reducer appends, so the merge leaves the list as it was: in every run,
    whenever the Evaluator triggers a retry, the fan-out that follows
    starts from the old, non-empty list.  In the run where Alice's model
    replies with the empty string, the first Evaluator execution triggers a
    retry ([retryCount] 0 -> 1, route back to the fan-out) and the next
    fan-out starts from the one old output; after it the list holds two
    outputs. *)
Theorem C2_retry_keeps_old_outputs :
  (forall env messages c,
     reachable env messages c ->
     at_node c = evaluate ->
     formatCheckPassed (state (step env c)) = false ->
     at_node (step env c) = persona
     /\ p_personaOutputs (fst (Director.directorEvaluateNode (state c)))
        = Some []
     /\ personaOutputs (state (step env c)) = personaOutputs (state c)
     /\ personaOutputs (state (step env c)) <> [])
  /\ (let before := steps env_blank 4 (start msgs_alice) in
      let after := step env_blank before in
      at_node before = evaluate
      /\ personaOutputs (state before) = [empty_reply "Alice"]
      /\ formatCheckPassed (state after) = false
      /\ retryCount (state after) = 1%Z
      /\ at_node after = persona
      /\ personaOutputs (state after) = [empty_reply "Alice"]
      /\ personaOutputs (state (step env_blank after))
         = [empty_reply "Alice"; empty_reply "Alice"]).
Proof.
  split; [|vm_compute; repeat split].
  intros env messages c _ Hn Hf.
  rewrite step_node, Hn; cbn [next]; unfold routeAfterEvaluate.
  rewrite Hf, (step_evaluate env c Hn) in *.
  destruct (retry_never_clears (state c) Hf) as (Hu & Hk & Hne).
  rewrite Hk; auto.
Qed.

Lemma C2_retry_keeps_old_outputs_witness :
  personaOutputs
    (state (step env_blank (steps env_blank 4 (start msgs_alice)))) <> [].
Proof.
  refine (proj2 (proj2 (proj2
            (proj1 C2_retry_keeps_old_outputs env_blank msgs_alice
               (steps env_blank 4 (start msgs_alice)) _ eq_refl eq_refl)))).
  apply steps_reachable; constructor.
Defined.

End RetryOutputs.

(** ** The fan-out *)

Section FanOut.

Variable env : Env.

Lemma generate_output
    (invoke : option (jsstring -> jsstring -> Rec jsstring -> Response))
    (who context : jsstring) (preset : Rec jsstring) :
  fst (Persona.generatePersonaResponse invoke who context preset)
  = output_of who (option_map (fun f => f who context preset) invoke).
Proof.
  unfold Persona.generatePersonaResponse.
  rewrite fst_bind; cbn [emit fst].
  destruct invoke as [model|]; [|reflexivity].
  rewrite fst_bind; cbn [emit fst option_map].
  destruct (model who context preset); reflexivity.
Qed.

Lemma output_of_name (who : jsstring) (r : option Response) :
  characterName (output_of who r) = who.
Proof. destruct r as [[| |t]|]; reflexivity. Qed.

Lemma fan_out_cons (k i : nat) (who : jsstring) (rest : list jsstring)
    (ctxs preset : Rec jsstring) :
  fst (Persona.fan_out env k i (who :: rest) ctxs preset)
  = output_of who
      (option_map
         (fun model =>
            model k i who (Narrator.opt_or (rec_get who ctxs) []) preset)
         (personaModelConfig env))
    :: fst (Persona.fan_out env k (S i) rest ctxs preset).
Proof.
  cbn [Persona.fan_out].
  rewrite fst_bind, fst_bind; cbn [ret fst].
  rewrite generate_output.
  destruct (personaModelConfig env); reflexivity.
Qed.

Lemma fan_out_names (k : nat) (ctxs preset : Rec jsstring)
    (names : list jsstring) :
  forall i,
    map characterName (fst (Persona.fan_out env k i names ctxs preset))
    = names.
Proof.
  induction names as [|who rest IH]; intros i; [reflexivity|].
  rewrite fan_out_cons; cbn [map].
  now rewrite output_of_name, IH.
Qed.

Lemma fan_out_nth (k : nat) (ctxs preset : Rec jsstring)
    (names : list jsstring) :
  forall i j who,
    nth_error names j = Some who ->
    nth_error (fst (Persona.fan_out env k i names ctxs preset)) j
    = Some (output_of who
              (option_map
                 (fun model =>
                    model k (i + j) who
                      (Narrator.opt_or (rec_get who ctxs) []) preset)
                 (personaModelConfig env))).
Proof.
  induction names as [|w rest IH]; intros i j who H.
  - destruct j; discriminate.
  - rewrite fan_out_cons.
    destruct j as [|j]; simpl in H |- *.
    + injection H as ->; now rewrite Nat.add_0_r.
    + rewrite (IH (S i) j who H).
      now replace (i + S j) with (S i + j) by lia.
Qed.

(** The update of the node, when the Parser has run. *)
Lemma personaNode_outputs (k : nat) (s : GraphState) (p : ParsedInput) :
  parsedInput s = Some p ->
  p_personaOutputs (fst (Persona.personaNode env k s))
  = Some (fst (Persona.fan_out env k 0 (activeCharacters s)
                 (characterContexts s) (presetInstructions p))).
Proof.
  intros Hp; unfold Persona.personaNode; rewrite Hp.
  destruct (activeCharacters s) as [|who rest] eqn:E; [reflexivity|].
  cbn [length Nat.eqb]; rewrite fst_bind; reflexivity.
Qed.

End FanOut.

(** Within a run the fan-out never executes without a parsed input. *)
Lemma parsed_before_persona (env : Env) (messages : list Message)
    (c : Config) :
  reachable env messages c ->
  at_node c = parser \/ parsedInput (state c) <> None.
Proof.
  induction 1 as [|c Hc IH Hn]; [left; reflexivity|].
  right; rewrite step_state.
  destruct (at_node c) eqn:E; cbn [node_fn].
  - discriminate.
  - destruct IH as [|IH]; [discriminate|].
    cbn [apply_update parsedInput].
    now rewrite (proj1 (proj2 (narrator_writes env (state c)))).
  - destruct IH as [|IH]; [discriminate|].
    cbn [apply_update parsedInput].
    now rewrite (proj1 (proj2 (director_writes env (state c)))).
  - destruct IH as [|IH]; [discriminate|].
    cbn [apply_update parsedInput].
    now rewrite (proj1 (proj2 (persona_writes env (executions c) (state c)))).
  - destruct IH as [|IH]; [discriminate|].
    cbn [apply_update parsedInput].
    now rewrite (proj1 (evaluate_writes (state c))).
  - destruct IH as [|IH]; [discriminate|].
    cbn [apply_update parsedInput].
    now rewrite (proj1 (proj2 (composer_writes env (state c)))).
  - now elim Hn.
Qed.

(** C5: the fan-out returns exactly one output per active character, in
    the order of [activeCharacters]; the output at each position is
    determined by that character's own generation alone, so a change of
    the other characters' outcomes leaves it as it is; and a character
    whose generation throws, or runs with no model configured, yields the
    placeholder with [formatValid = false].  This holds in every state
    that holds a parsed input, as the state does whenever the fan-out
    executes in a run. *)
Theorem C5_one_output_per_character :
  (forall (env : Env) (k : nat) (s : GraphState) (p : ParsedInput),
     parsedInput s = Some p ->
     exists os,
       p_personaOutputs (fst (Persona.personaNode env k s)) = Some os
       /\ length os = length (activeCharacters s)
       /\ map characterName os = activeCharacters s
       /\ (forall i who,
             nth_error (activeCharacters s) i = Some who ->
             nth_error os i
             = Some (output_of who (outcome_at env k s p i who)))
       /\ (forall i who,
             nth_error (activeCharacters s) i = Some who ->
             outcome_at env k s p i who = None
             \/ outcome_at env k s p i who = Some Throws ->
             exists o, nth_error os i = Some o /\ is_placeholder o
                       /\ characterName o = who /\ formatValid o = false)
       /\ (forall env' os' i who,
             p_personaOutputs (fst (Persona.personaNode env' k s))
             = Some os' ->
             nth_error (activeCharacters s) i = Some who ->
             outcome_at env' k s p i who = outcome_at env k s p i who ->
             nth_error os' i = nth_error os i))
  /\ (forall (env : Env) (messages : list Message) (c : Config),
        reachable env messages c -> at_node c = persona ->
        exists p, parsedInput (state c) = Some p).
Proof.
  split.
  - intros env k s p Hp.
    eexists; split; [apply (personaNode_outputs env k s p Hp)|].
    assert (forall e i who,
              nth_error (activeCharacters s) i = Some who ->
              nth_error (fst (Persona.fan_out e k 0 (activeCharacters s)
                                (characterContexts s)
                                (presetInstructions p))) i
              = Some (output_of who (outcome_at e k s p i who))) as Hnth
        by (intros e i who H; apply (fan_out_nth e k _ _ _ 0 i who H)).
    split; [|split; [|split; [|split]]].
    + rewrite <- (length_map characterName), fan_out_names; reflexivity.
    + apply fan_out_names.
    + apply Hnth.
    + intros i who Hi Ho.
      eexists; split; [apply (Hnth env i who Hi)|].
      destruct Ho as [-> | ->]; repeat split; [left | right]; reflexivity.
    + intros env' os' i who Hos Hi Ho.
      rewrite (personaNode_outputs env' k s p Hp) in Hos.
      injection Hos as <-.
      now rewrite (Hnth env' i who Hi), (Hnth env i who Hi), Ho.
  - intros env messages c Hr Hn.
    destruct (parsed_before_persona env messages c Hr) as [H | H];
      [congruence|].
    destruct (parsedInput (state c)) as [p|]; [now exists p | now elim H].
Qed.

Lemma C5_one_output_per_character_witness :
  exists os,
    p_personaOutputs (fst (Persona.personaNode env_B_throws 0 state_ABC))
    = Some os
    /\ os = [ {| characterName := lit "A"; content := lit "I am A";
                 formatValid := true |};
              Persona.failed (lit "B");
              {| characterName := lit "C"; content := lit "I am C";
                 formatValid := true |} ].
Proof.
  destruct (proj1 C5_one_output_per_character env_B_throws 0 state_ABC
              no_input eq_refl) as (os & Hos & _).
  exists os; split; [exact Hos|].
  vm_compute in Hos; injection Hos as <-; reflexivity.
Defined.

(** ** Runs in which every generation fails *)

Section FailuresOnly.

Variable env : Env.
Variable messages : list Message.
Hypothesis failing : never_replies env.

Lemma fan_out_placeholders (k : nat) (ctxs preset : Rec jsstring)
    (names : list jsstring) :
  forall i o,
    In o (fst (Persona.fan_out env k i names ctxs preset)) ->
    is_placeholder o.
Proof.
  induction names as [|who rest IH]; intros i o; [intros []|].
  rewrite fan_out_cons; intros [<- | Hin]; [|exact (IH _ _ Hin)].
  destruct (personaModelConfig env) as [model|] eqn:E; cbn [option_map].
  - rewrite (failing model E); right; reflexivity.
  - left; reflexivity.
Qed.

Lemma persona_step_placeholders (k : nat) (s : GraphState) :
  exists os,
    p_personaOutputs (fst (Persona.personaNode env k s)) = Some os
    /\ forall o, In o os -> is_placeholder o.
Proof.
  destruct (parsedInput s) as [p|] eqn:Hp.
  - eexists; split; [apply (personaNode_outputs env k s p Hp)|].
    intros o; apply fan_out_placeholders.
  - unfold Persona.personaNode; rewrite Hp.
    exists []; split; [reflexivity | intros o []].
Qed.

Lemma step_executions (c : Config) :
  executions (step env c)
  = match at_node c with persona => S (executions c) | _ => executions c end.
Proof.
  unfold step.
  destruct (node_fn env (at_node c) (executions c) (state c)); reflexivity.
Qed.

(** The single fan-out of such a run passes the gate: the run ends with
    [retryCount] 0 after one fan-out execution. *)
Lemma failures_never_retry :
  exists final,
    invoke env messages = Some final
    /\ retryCount (state final) = 0%Z
    /\ executions final = 1.
Proof.
  destruct (before_director env messages) as (N2 & _ & _ & O2 & _ & _).
  destruct (first_fan_out env messages) as (R3 & N3 & Z3 & S3).
  set (c2 := after_narrator env messages) in *.
  change (step env (step env (step env (start messages))))
    with (step env c2) in *.
  set (c3 := step env c2) in *.
  assert (personaOutputs (state c3) = []) as O3.
  { unfold c3; rewrite step_state, N2; cbn [node_fn apply_update
      personaOutputs].
    destruct (director_writes env (state c2)) as (_ & _ & -> & _).
    exact O2. }
  assert (executions c3 = 0) as E3.
  { unfold c3; rewrite step_executions, N2.
    unfold c2, after_narrator; rewrite step_executions, step_node.
    cbn [start at_node next]; rewrite step_executions; reflexivity. }
  set (c4 := step env c3).
  assert (at_node c4 = evaluate) as N4
      by (unfold c4; now rewrite step_node, N3).
  assert (retryCount (state c4) = 0%Z) as Z4
      by (unfold c4; rewrite step_retryCount, Z3;
          [reflexivity | rewrite N3; discriminate]).
  assert (forall o, In o (personaOutputs (state c4)) -> is_placeholder o)
    as P4.
  { unfold c4; rewrite step_state, N3; cbn [node_fn apply_update
      personaOutputs].
    destruct (persona_step_placeholders (executions c3) (state c3))
      as (os & -> & Hos).
    cbn [reduce]; unfold reduce_personaOutputs; rewrite O3; exact Hos. }
  assert (executions c4 = 1) as E4
      by (unfold c4; now rewrite step_executions, N3, E3).
  destruct (placeholders_pass (state c4)) as (_ & F5 & Z5 & _);
    [intros o Ho; left; now apply P4|].
  set (c5 := step env c4).
  assert (state c5 = evaluated (state c4)) as S5
      by (apply step_evaluate; exact N4).
  assert (at_node c5 = composer) as N5
      by (unfold c5 in *; rewrite step_node, N4, S5; cbn [next];
          unfold routeAfterEvaluate; now rewrite F5).
  set (c6 := step env c5).
  assert (at_node c6 = END) as N6
      by (unfold c6; now rewrite step_node, N5).
  assert (steps env 6 (start messages) = c6) as HS.
  { change 6 with (3 + 3); rewrite (S3 3).
    rewrite steps_S by (rewrite N3; discriminate); fold c4.
    rewrite steps_S by (rewrite N4; discriminate); fold c5.
    rewrite steps_S by (rewrite N5; discriminate); reflexivity. }
  exists c6; repeat split.
  - unfold invoke.
    rewrite (steps_more env 6 recursionLimit), HS, ?N6;
      [reflexivity | | unfold recursionLimit; lia].
    now rewrite HS.
  - unfold c6; rewrite step_retryCount by (rewrite N5; discriminate).
    rewrite S5, Z5; exact Z4.
  - unfold c6; rewrite step_executions, N5.
    unfold c5; rewrite step_executions, N4; exact E4.
Qed.

End FailuresOnly.



(** ** The Narrator *)

Section NarratorFacts.

Lemma from_first_split (open : char) (s r : jsstring) :
  Narrator.from_first open s = Some r ->
  exists pre, s = pre ++ open :: r /\ ~ In open pre.
Proof.
  revert r; induction s as [|c s IH]; intros r H; simpl in H;
    [discriminate|].
  destruct (N.eqb c open) eqn:E.
  - apply N.eqb_eq in E; subst c; injection H as ->.
    exists []; split; [reflexivity | intros []].
  - destruct (IH _ H) as (pre & -> & Hpre).
    exists (c :: pre); split; [reflexivity|].
    intros [-> | Hin]; [now rewrite N.eqb_refl in E | auto].
Qed.

Lemma until_last_split (close : char) (s t : jsstring) :
  Narrator.until_last close s = Some t ->
  exists body post, t = body ++ [close] /\ s = t ++ post /\ ~ In close post.
Proof.
  revert t; induction s as [|c s IH]; intros t H; simpl in H;
    [discriminate|].
  destruct (Narrator.until_last close s) as [t'|] eqn:E.
  - injection H as <-.
    destruct (IH _ eq_refl) as (body & post & -> & -> & Hp).
    exists (c :: body), post; repeat split; auto.
  - destruct (N.eqb c close) eqn:Ec; [|discriminate].
    injection H as <-; apply N.eqb_eq in Ec; subst c.
    exists [], s; repeat split.
    clear IH; induction s as [|d s IHs]; [intros []|].
    simpl in E.
    destruct (Narrator.until_last close s); [discriminate|].
    destruct (N.eqb d close) eqn:Ed; [discriminate|].
    intros [-> | Hin]; [now rewrite N.eqb_refl in Ed | now apply IHs].
Qed.

Lemma until_last_none (close : char) (s : jsstring) :
  ~ In close s -> Narrator.until_last close s = None.
Proof.
  induction s as [|c s IH]; intros H; simpl; [reflexivity|].
  rewrite IH by (intros Hin; apply H; now right).
  destruct (N.eqb c close) eqn:E; [|reflexivity].
  apply N.eqb_eq in E; elim H; now left.
Qed.

Lemma until_last_app (close : char) (body post : jsstring) :
  ~ In close post ->
  Narrator.until_last close (body ++ close :: post)
  = Some (body ++ [close]).
Proof.
  intros H; induction body as [|c body IH]; simpl.
  - now rewrite (until_last_none close post H), N.eqb_refl.
  - now rewrite IH.
Qed.

Lemma from_first_app (open : char) (pre r : jsstring) :
  ~ In open pre -> Narrator.from_first open (pre ++ open :: r) = Some r.
Proof.
  intros H; induction pre as [|c pre IH]; simpl.
  - now rewrite N.eqb_refl.
  - destruct (N.eqb c open) eqn:E.
    + apply N.eqb_eq in E; elim H; now left.
    + apply IH; intros Hin; apply H; now right.
Qed.

(** The greedy pattern matches from the first [open] to the last [close]. *)
Lemma match_greedy_span (open close : char) (pre body post : jsstring) :
  ~ In open pre -> ~ In close post ->
  Narrator.match_greedy open close (pre ++ open :: body ++ close :: post)
  = Some (open :: body ++ [close]).
Proof.
  intros Ho Hc; unfold Narrator.match_greedy.
  now rewrite (from_first_app open pre _ Ho),
    (until_last_app close _ post Hc).
Qed.

Lemma match_greedy_substring (open close : char) (s m : jsstring) :
  Narrator.match_greedy open close s = Some m -> substring m s.
Proof.
  unfold Narrator.match_greedy; intros H.
  destruct (Narrator.from_first open s) as [r|] eqn:F; [|discriminate].
  destruct (Narrator.until_last close r) as [t|] eqn:U; [|discriminate].
  injection H as <-.
  destruct (from_first_split open s r F) as (pre & -> & _).
  destruct (until_last_split close r t U) as (body & post & _ & -> & _).
  exists pre, post; reflexivity.
Qed.

Lemma merge_same_worldState (s : GraphState) :
  apply_update s (Narrator.only_worldState (worldState s)) = s.
Proof. destruct s as [? ? [w|] ? ? ? ? ? ? ?]; reflexivity. Qed.

Lemma length_slice_last {A} (n : nat) (xs : list A) :
  length (slice_last n xs) <= n.
Proof. unfold slice_last; rewrite length_skipn; lia. Qed.

(** The rule-based update keeps the last 10 of the old events followed by
    the new one: when the cap is reached the oldest entries go first. *)
Lemma rule_based_events_capped (p : ParsedInput) (cur : option WorldState) :
  let old := match cur with Some w => recentEvents w | None => [] end in
  let events := recentEvents (Narrator.rule_update p cur) in
  length events <= 10
  /\ exists evicted newest,
       old ++ [newest] = evicted ++ events
       /\ length evicted = length old + 1 - 10.
Proof.
  cbv zeta; unfold Narrator.rule_update; cbn [recentEvents].
  split; [apply length_slice_last|].
  unfold slice_last.
  set (all := _ ++ [_]).
  exists (firstn (length all - 10) all); eexists; split.
  - subst all; rewrite firstn_skipn; reflexivity.
  - rewrite length_firstn; subst all; rewrite length_app; simpl; lia.
Qed.

End NarratorFacts.

Section NarratorClaims.

(** The model-driven update installs whatever the reply parses to. *)
Lemma model_update_replaces (env : Env) (s : GraphState) (p : ParsedInput)
    (model : ParsedInput -> option WorldState -> Response)
    (reply jsonMatch : jsstring) (w : WorldState) :
  parsedInput s = Some p ->
  narratorModel env = Some model ->
  content_of (model p (worldState s)) = Some reply ->
  Narrator.match_greedy Narrator.LBRACE Narrator.RBRACE reply
  = Some jsonMatch ->
  JSON_parse_WorldState env jsonMatch = Some w ->
  worldState (narrated env s) = Some w.
Proof.
  intros Hp Hm Hr Hj Hw.
  unfold narrated, Narrator.narratorNode.
  rewrite Hp, Hm, fst_bind; cbn [emit fst].
  rewrite Hr; unfold Narrator.parse_reply; rewrite Hj, Hw.
  reflexivity.
Qed.

(** C4 (the code departs from it in model-driven mode): the rule-based
    update caps [recentEvents] at 10, but the model-driven update installs
    the parsed reply as it is, whatever the length of its [recentEvents];
    a reply that lists eleven events leaves a world state with eleven
    events. *)
Theorem C4_model_update_is_not_capped :
  (forall env s p model reply jsonMatch w,
     parsedInput s = Some p ->
     narratorModel env = Some model ->
     content_of (model p (worldState s)) = Some reply ->
     Narrator.match_greedy Narrator.LBRACE Narrator.RBRACE reply
     = Some jsonMatch ->
     JSON_parse_WorldState env jsonMatch = Some w ->
     option_map (fun w' => length (recentEvents w'))
       (worldState (narrated env s))
     = Some (length (recentEvents w)))
  /\ (let s' := narrated env_eleven (state_parsed None) in
      worldState s' = Some eleven_events
      /\ option_map (fun w => length (recentEvents w)) (worldState s')
         = Some 11).
Proof.
  split; [|vm_compute; split; reflexivity].
  intros env s p model reply jsonMatch w Hp Hm Hr Hj Hw.
  now rewrite (model_update_replaces env s p model reply jsonMatch w
                 Hp Hm Hr Hj Hw).
Qed.

Lemma C4_model_update_is_not_capped_witness :
  option_map (fun w' => length (recentEvents w'))
    (worldState (narrated env_eleven (state_parsed None)))
  = Some (length (recentEvents eleven_events)).
Proof.
  exact (proj1 C4_model_update_is_not_capped env_eleven (state_parsed None)
           no_input (fun _ _ => Content (json_world eleven_events))
           (json_world eleven_events) (json_world eleven_events)
           eleven_events eq_refl eq_refl eq_refl eq_refl eq_refl).
Defined.

(** C8: in model-driven mode, when the invocation fails or no substring of
    the reply parses, the Narrator returns the prior world state, and the
    merged state is the state it started from. *)
Theorem C8_narrator_failure_keeps_world_state
    (env : Env) (s : GraphState) (p : ParsedInput)
    (model : ParsedInput -> option WorldState -> Response) :
  parsedInput s = Some p ->
  narratorModel env = Some model ->
  (content_of (model p (worldState s)) = None
   \/ exists reply,
        content_of (model p (worldState s)) = Some reply
        /\ forall sub, substring sub reply ->
                       JSON_parse_WorldState env sub = None) ->
  fst (Narrator.narratorNode env s) = Narrator.only_worldState (worldState s)
  /\ narrated env s = s.
Proof.
  intros Hp Hm H.
  assert (fst (Narrator.narratorNode env s)
          = Narrator.only_worldState (worldState s)) as E.
  { unfold Narrator.narratorNode; rewrite Hp, Hm, fst_bind; cbn [emit fst].
    destruct H as [-> | (reply & -> & Hsub)]; [reflexivity|].
    unfold Narrator.parse_reply.
    destruct (Narrator.match_greedy _ _ reply) as [m|] eqn:M; [|reflexivity].
    now rewrite (Hsub m (match_greedy_substring _ _ reply m M)). }
  split; [exact E|].
  unfold narrated; rewrite E; apply merge_same_worldState.
Qed.

Lemma C8_narrator_failure_keeps_world_state_witness :
  narrated env_prose (state_parsed (Some eleven_events))
  = state_parsed (Some eleven_events).
Proof.
  refine (proj2 (C8_narrator_failure_keeps_world_state env_prose
                   (state_parsed (Some eleven_events)) no_input
                   (fun _ _ => Content (lit "Nothing has changed."))
                   eq_refl eq_refl _)).
  right; eexists; split; [reflexivity|].
  intros sub (pre & post & E); simpl; unfold parse_only.
  destruct (JS.eqb sub (json_world eleven_events)) eqn:B; [|reflexivity].
  apply eqb_eq in B; subst sub.
  assert (In 123%N (lit "Nothing has changed.")) as Hin
      by (rewrite E; apply in_or_app; right; left; reflexivity).
  vm_compute in Hin; intuition discriminate.
Defined.

End NarratorClaims.

(** ** The Director *)

Section DirectorClaims.

Import Director.

Lemma valid_characters_filter (present : list jsstring)
    (parsed : list JsonElem) :
  valid_characters present parsed
  = filter (Parser.array_includes present) (names_of parsed).
Proof.
  induction parsed as [|[c|] rest IH]; simpl; auto.
  destruct (Parser.array_includes present c); now rewrite IH.
Qed.

Lemma array_includes_In (xs : list jsstring) (x : jsstring) :
  Parser.array_includes xs x = true <-> In x xs.
Proof.
  unfold Parser.array_includes; rewrite existsb_exists; split.
  - intros (y & Hy & E); apply eqb_eq in E; now subst.
  - intros H; exists x; split; [exact H | apply eqb_refl].
Qed.

(** C6 (as stated) fails: the reply holds the array literal of the present
    name B followed by a bracketed remark; the pattern takes the text from
    the first opening to the last closing bracket, which does not parse,
    and the Director falls back to all present characters. *)
Lemma C6_trailing_bracket_falls_back :
  substring array_B reply_B_remark
  /\ parse_string_array array_B = Some [JStr (lit "B")]
  /\ activeCharacters (directed (env_director reply_B_remark) state_AB)
     = [lit "A"; lit "B"]
  /\ ~ selects_parsed_names (env_director reply_B_remark) state_AB
         [lit "A"; lit "B"] reply_B_remark.
Proof.
  assert (substring array_B reply_B_remark) as Hs
      by (exists [], (lit " [done]"); reflexivity).
  repeat split; auto.
  intros H.
  specialize (H array_B [JStr (lit "B")] Hs eq_refl).
  vm_compute in H; discriminate.
Qed.

(** The selection of a configured Director whose reply parses. *)
Lemma director_selection
    (env : Env) (s : GraphState) (p : ParsedInput) (w : WorldState)
    (model : WorldState -> jsstring -> list jsstring -> Response)
    (pre body post : jsstring) (parsed : list JsonElem) :
  parsedInput s = Some p ->
  worldState s = Some w ->
  present_names w <> [] ->
  directorModel env = Some model ->
  content_of (model w (userInput p) (present_names w))
  = Some (pre ++ LBRACKET :: body ++ RBRACKET :: post) ->
  ~ In LBRACKET pre ->
  ~ In RBRACKET post ->
  JSON_parse_array env (LBRACKET :: body ++ [RBRACKET]) = Some parsed ->
  activeCharacters (directed env s)
  = filter (Parser.array_includes (present_names w)) (names_of parsed).
Proof.
  intros Hp Hw Hne Hm Hr Hpre Hpost Hj.
  unfold directed, directorNode; rewrite Hp, Hw.
  destruct (present_names w) as [|c0 cs] eqn:P; [now elim Hne|].
  cbn [length Nat.eqb]; rewrite Hm, fst_bind; cbn [emit fst].
  rewrite Hr; unfold parse_selection.
  rewrite (match_greedy_span LBRACKET RBRACKET pre body post Hpre Hpost).
  rewrite Hj; cbn [ret fst decision apply_update activeCharacters
                     p_activeCharacters reduce reduce_replace].
  apply valid_characters_filter.
Qed.

(** C6 (amended): when a Director model is configured and answers with a
    string, and the text from the first opening bracket of the reply to its
    last closing bracket parses as an array, the Director sets
    [activeCharacters] to exactly the parsed names that are present,
    unknown or absent names and elements that are no strings dropped, in
    the order of the reply.  In particular, with A and B present and the
    reply selecting B and Z, [activeCharacters] is B alone. *)
Theorem C6_director_selection :
  (forall (env : Env) (s : GraphState) (p : ParsedInput) (w : WorldState)
          (model : WorldState -> jsstring -> list jsstring -> Response)
          (pre body post : jsstring) (parsed : list JsonElem),
     parsedInput s = Some p ->
     worldState s = Some w ->
     present_names w <> [] ->
     directorModel env = Some model ->
     content_of (model w (userInput p) (present_names w))
     = Some (pre ++ LBRACKET :: body ++ RBRACKET :: post) ->
     ~ In LBRACKET pre ->
     ~ In RBRACKET post ->
     JSON_parse_array env (LBRACKET :: body ++ [RBRACKET]) = Some parsed ->
     activeCharacters (directed env s)
     = filter (Parser.array_includes (present_names w)) (names_of parsed)
     /\ (forall c, In c (activeCharacters (directed env s)) <->
                   In c (names_of parsed) /\ In c (present_names w)))
  /\ (parse_string_array reply_BZ = Some [JStr (lit "B"); JStr (lit "Z")]
      /\ activeCharacters (directed (env_director reply_BZ) state_AB)
         = [lit "B"]).
Proof.
  split; [|split; reflexivity].
  intros env s p w model pre body post parsed Hp Hw Hne Hm Hr Hpre Hpost Hj.
  pose proof (director_selection env s p w model pre body post parsed
                Hp Hw Hne Hm Hr Hpre Hpost Hj) as E.
  split; [exact E|].
  intros c; rewrite E, filter_In, array_includes_In; tauto.
Qed.

Lemma C6_director_selection_witness :
  activeCharacters (directed (env_director reply_BZ) state_AB)
  = filter (Parser.array_includes [lit "A"; lit "B"])
      (names_of [JStr (lit "B"); JStr (lit "Z")]).
Proof.
  refine (proj1 (proj1 C6_director_selection (env_director reply_BZ)
                   state_AB no_input _ (fun _ _ _ => Content reply_BZ)
                   [] (quoted (lit "B") ++ lit "," ++ quoted (lit "Z")) []
                   [JStr (lit "B"); JStr (lit "Z")]
                   eq_refl eq_refl _ eq_refl eq_refl _ _ eq_refl)).
  - vm_compute; discriminate.
  - intros [].
  - intros [].
Defined.

End DirectorClaims.

(** ** The Parser *)

Section ParserFacts.

Import Parser.

Lemma span_word_name (n rest : jsstring) (c : char) :
  forallb is_word n = true -> is_word c = false ->
  span_word (n ++ c :: rest) = (n, c :: rest).
Proof.
  intros Hn Hc; induction n as [|d n IH]; simpl in *.
  - now rewrite Hc.
  - apply andb_prop in Hn as [Hd Hn].
    now rewrite Hd, (IH Hn).
Qed.

Lemma open_tag_name (n rest : jsstring) :
  n <> [] -> forallb is_word n = true ->
  open_tag (LT :: n ++ GT :: rest) = Some (n, rest).
Proof.
  intros Hne Hn; unfold open_tag; rewrite N.eqb_refl.
  rewrite (span_word_name n rest GT Hn eq_refl).
  destruct n; [now elim Hne | now rewrite N.eqb_refl].
Qed.

Lemma close_tag_name (n rest : jsstring) :
  n <> [] -> forallb is_word n = true ->
  close_tag (LT :: SLASH :: n ++ GT :: rest) = Some rest.
Proof.
  intros Hne Hn; unfold close_tag; rewrite !N.eqb_refl; cbn [andb].
  rewrite (span_word_name n rest GT Hn eq_refl).
  destruct n; [now elim Hne | now rewrite N.eqb_refl].
Qed.

Lemma open_tag_head (c : char) (s : jsstring) :
  c <> LT -> open_tag (c :: s) = None.
Proof.
  intros H; unfold open_tag.
  destruct (N.eqb c LT) eqn:E; [apply N.eqb_eq in E; contradiction|].
  reflexivity.
Qed.

Lemma close_tag_head (c : char) (s : jsstring) :
  c <> LT -> close_tag (c :: s) = None.
Proof.
  intros H; unfold close_tag.
  destruct s as [|d s]; [reflexivity|].
  destruct (N.eqb c LT) eqn:E; [apply N.eqb_eq in E; contradiction|].
  reflexivity.
Qed.

Lemma strip_prefix_app (p r : jsstring) : strip_prefix p (p ++ r) = Some r.
Proof.
  induction p as [|c p IH]; simpl; [now destruct r|].
  now rewrite N.eqb_refl.
Qed.

Lemma lazy_until_inner (closing inner rest : jsstring) :
  ~ In LT inner ->
  lazy_until (LT :: closing) (inner ++ LT :: closing ++ rest)
  = Some (inner, rest).
Proof.
  intros H; induction inner as [|c inner IH].
  - cbn [app lazy_until].
    change (LT :: closing ++ rest) with ((LT :: closing) ++ rest).
    now rewrite strip_prefix_app.
  - cbn [app lazy_until strip_prefix].
    destruct (N.eqb LT c) eqn:E.
    + apply N.eqb_eq in E; elim H; now left.
    + rewrite IH by (intros Hin; apply H; now right); reflexivity.
Qed.

Lemma lazy_until_close_inner (n inner rest : jsstring) :
  n <> [] -> forallb is_word n = true -> ~ In LT inner ->
  lazy_until_close (inner ++ LT :: SLASH :: n ++ GT :: rest) = Some rest.
Proof.
  intros Hne Hn H; induction inner as [|c inner IH].
  - cbn [app]; unfold lazy_until_close.
    destruct n as [|d n]; [now elim Hne|].
    rewrite (close_tag_name _ rest Hne Hn); reflexivity.
  - cbn [app lazy_until_close].
    rewrite close_tag_head by (intros ->; apply H; now left).
    apply IH; intros Hin; apply H; now right.
Qed.

(** Both element patterns match a span at its head. *)
Lemma match_element_span (n inner rest : jsstring) :
  well_formed (Span n inner) ->
  match_element (render_piece (Span n inner) ++ rest)
  = Some (n, inner, rest).
Proof.
  intros (Hne & Hn & Hi); unfold match_element; cbn [render_piece].
  repeat rewrite <- app_assoc; cbn [app].
  rewrite (open_tag_name n _ Hne Hn).
  change ([LT; SLASH] ++ n ++ [GT]) with (LT :: (SLASH :: n ++ [GT])).
  replace (inner ++ LT :: SLASH :: n ++ GT :: rest)
    with (inner ++ LT :: (SLASH :: n ++ [GT]) ++ rest)
    by (cbn [app]; now rewrite <- app_assoc).
  now rewrite (lazy_until_inner _ inner rest Hi).
Qed.

Lemma match_span_span (n inner rest : jsstring) :
  well_formed (Span n inner) ->
  match_span (render_piece (Span n inner) ++ rest) = Some rest.
Proof.
  intros (Hne & Hn & Hi); unfold match_span; cbn [render_piece].
  repeat rewrite <- app_assoc; cbn [app].
  rewrite (open_tag_name n _ Hne Hn).
  now apply lazy_until_close_inner.
Qed.

(** A span, as its first character and the rest. *)
Lemma span_shape (n inner rest : jsstring) :
  render_piece (Span n inner) ++ rest
  = LT :: (n ++ GT :: inner ++ LT :: SLASH :: n ++ [GT]) ++ rest.
Proof. reflexivity. Qed.

Lemma remove_all_skip (m : jsstring -> option jsstring)
    (x rest : jsstring) :
  remove_all m (length x) (x ++ rest) = remove_all m 0 rest.
Proof.
  induction x as [|c x IH]; [reflexivity | exact IH].
Qed.

Lemma exec_all_skip (x rest : jsstring) :
  exec_all (length x) (x ++ rest) = exec_all 0 rest.
Proof.
  induction x as [|c x IH]; [reflexivity | exact IH].
Qed.

Lemma skip_length (x rest : jsstring) :
  length (x ++ rest) - length rest = length x.
Proof. rewrite length_app; lia. Qed.

(** A match at the head is passed over. *)
Lemma remove_all_match (m : jsstring -> option jsstring) (c : char)
    (x rest : jsstring) :
  m (c :: x ++ rest) = Some rest ->
  remove_all m 0 (c :: x ++ rest) = remove_all m 0 rest.
Proof.
  intros H; cbn [remove_all]; rewrite H, skip_length.
  apply remove_all_skip.
Qed.

(** Text without [<] is kept by a pattern that starts with [<]. *)
Lemma remove_all_text (m : jsstring -> option jsstring) (t rest : jsstring) :
  (forall c s, c <> LT -> m (c :: s) = None) ->
  ~ In LT t ->
  remove_all m 0 (t ++ rest) = t ++ remove_all m 0 rest.
Proof.
  intros Hm H; induction t as [|c t IH]; [reflexivity|].
  cbn [app remove_all].
  rewrite Hm by (intros ->; apply H; now left).
  rewrite IH by (intros Hin; apply H; now right); reflexivity.
Qed.

Lemma match_span_head (c : char) (s : jsstring) :
  c <> LT -> match_span (c :: s) = None.
Proof. intros H; unfold match_span; now rewrite open_tag_head. Qed.

Lemma match_open_head (c : char) (s : jsstring) :
  c <> LT -> match_open (c :: s) = None.
Proof. intros H; unfold match_open; now rewrite open_tag_head. Qed.

Lemma match_element_head (c : char) (s : jsstring) :
  c <> LT -> match_element (c :: s) = None.
Proof. intros H; unfold match_element; now rewrite open_tag_head. Qed.

Lemma texts_no_LT (pieces : list Piece) :
  Forall well_formed pieces -> ~ In LT (texts pieces).
Proof.
  induction 1 as [|[t|n inner] rest Hx _ IH]; simpl; auto.
  intros Hin; apply in_app_or in Hin as [Hin | Hin]; auto.
Qed.

(** The first replacement leaves the text outside the spans. *)
Lemma remove_spans (pieces : list Piece) :
  Forall well_formed pieces ->
  remove_all match_span 0 (render pieces) = texts pieces.
Proof.
  unfold render.
  induction 1 as [|[t|n inner] rest Hx _ IH]; cbn [map concat texts].
  - reflexivity.
  - rewrite remove_all_text;
      [now rewrite IH | apply match_span_head | exact Hx].
  - pose proof (match_span_span n inner (concat (map render_piece rest)) Hx)
      as M.
    rewrite span_shape in M |- *.
    rewrite (remove_all_match match_span LT _ _ M); exact IH.
Qed.

Lemma remove_open_text (t : jsstring) :
  ~ In LT t -> remove_all match_open 0 t = t.
Proof.
  intros H.
  rewrite <- (app_nil_r t) at 1.
  rewrite remove_all_text; [apply app_nil_r | apply match_open_head | exact H].
Qed.

Lemma exec_all_text (t rest : jsstring) :
  ~ In LT t -> exec_all 0 (t ++ rest) = exec_all 0 rest.
Proof.
  intros H; induction t as [|c t IH]; [reflexivity|].
  cbn [app exec_all].
  rewrite match_element_head by (intros ->; apply H; now left).
  apply IH; intros Hin; apply H; now right.
Qed.

(** The extraction loop finds the spans, in order. *)
Lemma exec_all_elements (pieces : list Piece) :
  Forall well_formed pieces ->
  exec_all 0 (render pieces) = elements pieces.
Proof.
  unfold render.
  induction 1 as [|[t|n inner] rest Hx _ IH]; cbn [map concat elements].
  - reflexivity.
  - rewrite exec_all_text; [exact IH | exact Hx].
  - pose proof (match_element_span n inner
                  (concat (map render_piece rest)) Hx) as M.
    rewrite span_shape in M |- *.
    cbn [exec_all]; rewrite M, skip_length, exec_all_skip.
    now rewrite IH.
Qed.

Lemma trimStart_In (c : char) (s : jsstring) :
  In c (trimStart s) -> In c s.
Proof.
  induction s as [|d s IH]; simpl; [tauto|].
  destruct (is_space d); [intros H; right; auto | tauto].
Qed.

Lemma trim_In (c : char) (s : jsstring) : In c (trim s) -> In c s.
Proof.
  unfold trim, trimEnd; intros H.
  apply in_rev, trimStart_In in H.
  apply in_rev in H; now apply trimStart_In.
Qed.

Lemma no_LT_no_tag (s : jsstring) : ~ In LT s -> contains_tag s = false.
Proof.
  induction s as [|c s IH]; intros H; [reflexivity|].
  cbn [contains_tag].
  rewrite open_tag_head, close_tag_head
    by (intros ->; apply H; now left).
  apply IH; intros Hin; apply H; now right.
Qed.

Lemma strip_well_formed (pieces : list Piece) :
  Forall well_formed pieces ->
  stripXmlTags (render pieces) = trim (texts pieces).
Proof.
  intros H; unfold stripXmlTags.
  now rewrite (remove_spans pieces H),
    (remove_open_text _ (texts_no_LT pieces H)).
Qed.

(** The current input of a run with a single user message is the stripped
    text of the message. *)
Lemma single_user_input (env : Env) (text : jsstring) :
  userInput (parse env [user_says text]) = stripXmlTags text.
Proof.
  unfold parse; cbn [userInput rev app last_user_input user_says role
                       msg_content].
  change (JS.eqb (lit "user") (lit "user")) with true; cbv iota.
  assert (or_else text [] = text) as -> by (now destruct text).
  now destruct (truthy (stripXmlTags text)).
Qed.

End ParserFacts.

Section ParserClaims.

(** C7 (as stated) fails: a closing tag with no opening tag before it is
    matched by neither pattern of [stripXmlTags] and stays in the dialogue
    text, which the Parser records as it is. *)
Lemma C7_stray_closing_tag_is_kept :
  ~ strips_all_markup (lit "Hello</b>")
  /\ dialogue (lit "Hello</b>") = lit "Hello</b>"
  /\ forall env,
       chatHistory (Parser.parse env [user_says (lit "Hello</b>")])
       = [user_says (lit "Hello</b>")].
Proof.
  repeat split.
  intros H; vm_compute in H; discriminate.
Qed.

(** C7 (amended): for every message made of text without [<] and of spans
    [<name>inner</name>] (the name a run of word characters, recognized or
    not, the inner text without [<]), the Parser strips every span, markup
    and inner text, before the remaining text is treated as dialogue: the
    dialogue text is the trimmed text outside the spans, it holds no tag,
    and the extraction loop finds the spans in order.  In particular the
    message [<fiction_style>X</fiction_style>Hello] yields
    [presetInstructions.fiction_style = X] and the dialogue text [Hello]. *)
Theorem C7_parser_strips_spans :
  (forall env pieces,
     Forall well_formed pieces ->
     dialogue (render pieces) = trim (texts pieces)
     /\ strips_all_markup (render pieces)
     /\ userInput (Parser.parse env [user_says (render pieces)])
        = trim (texts pieces)
     /\ Parser.exec_all 0 (render pieces) = elements pieces)
  /\ (forall env,
        let p := Parser.parse env [user_says styled_hello] in
        rec_get (lit "fiction_style") (presetInstructions p) = Some (lit "X")
        /\ dialogue styled_hello = lit "Hello"
        /\ chatHistory p = [user_says (lit "Hello")]
        /\ userInput p = lit "Hello").
Proof.
  split.
  - intros env pieces H.
    pose proof (strip_well_formed pieces H) as E.
    unfold strips_all_markup, dialogue.
    repeat split.
    + exact E.
    + apply no_LT_no_tag; rewrite E.
      intros Hin; apply trim_In in Hin.
      now apply (texts_no_LT pieces H).
    + now rewrite single_user_input.
    + now apply exec_all_elements.
  - intros env; repeat split.
Qed.

Lemma C7_parser_strips_spans_witness :
  dialogue styled_hello = lit "Hello"
  /\ strips_all_markup styled_hello
  /\ userInput (Parser.parse env_none [user_says styled_hello]) = lit "Hello"
  /\ Parser.exec_all 0 styled_hello = [(lit "fiction_style", lit "X")].
Proof.
  apply (proj1 C7_parser_strips_spans env_none styled_hello_pieces).
  repeat constructor; simpl; try discriminate;
    intros H; repeat (destruct H as [H | H]; [discriminate|]); exact H.
Defined.

End ParserClaims.

(* ================================================================== *)
(** * Further properties of the pipeline *)

(** ** Invariants of a run *)

Section RunInvariants.

Variable env : Env.
Variable messages : list Message.

Lemma persona_shape (k : nat) (s : GraphState) :
  exists os,
    fst (Persona.personaNode env k s) = Persona.outputs os
    /\ (parsedInput s <> None -> length os = length (activeCharacters s)).
Proof.
  unfold Persona.personaNode.
  destruct (parsedInput s) as [p|]; [|exists []; split; [reflexivity|]].
  - destruct (activeCharacters s) as [|who rest] eqn:E.
    + exists []; split; reflexivity.
    + cbn [length Nat.eqb]; rewrite fst_bind; cbn [ret fst].
      eexists; split; [reflexivity|].
      intros _; rewrite <- (length_map characterName), fan_out_names.
      reflexivity.
  - intros H; now elim H.
Qed.

Lemma composer_shape (s : GraphState) :
  exists text, fst (Composer.composerNode env s) = Composer.final text.
Proof.
  unfold Composer.composerNode.
  destruct (length (personaOutputs s) =? 0)%nat; [eexists; reflexivity|].
  destruct (composerModel env); [|eexists; reflexivity].
  rewrite fst_bind; cbn [emit fst].
  destruct (content_of _) as [t|]; [|eexists; reflexivity].
  destruct (truthy t); eexists; reflexivity.
Qed.

(** The Evaluator's update touches [formatCheckPassed], [retryCount] and
    (without effect) [personaOutputs] only. *)
Lemma evaluated_keeps (s : GraphState) :
  parsedInput (evaluated s) = parsedInput s
  /\ worldState (evaluated s) = worldState s
  /\ activeCharacters (evaluated s) = activeCharacters s
  /\ characterContexts (evaluated s) = characterContexts s
  /\ finalOutput (evaluated s) = finalOutput s.
Proof.
  unfold evaluated, Director.directorEvaluateNode.
  destruct (forallb Director.output_ok (personaOutputs s));
    [|destruct (Director.maxRetries <=? retryCount s)%Z];
    repeat split; now destruct (worldState s).
Qed.

Lemma settled_first_fan_out :
  at_node (step env (after_narrator env messages)) = persona
  /\ settled env messages (step env (after_narrator env messages)).
Proof.
  destruct (before_director env messages) as (N2 & P2 & A2 & O2 & _ & _).
  destruct (first_fan_out env messages) as (_ & N3 & Z3 & _).
  change (step env (step env (step env (start messages))))
    with (step env (after_narrator env messages)) in *.
  set (c2 := after_narrator env messages) in *.
  destruct (director_writes env (state c2)) as (_ & HP & HO & HW).
  split; [exact N3|].
  unfold settled; fold c2; cbv zeta.
  assert (executions (step env c2) = 0) as E3.
  { rewrite step_executions, N2.
    unfold c2, after_narrator; rewrite step_executions, step_node.
    cbn [start at_node next]; rewrite step_executions; reflexivity. }
  rewrite N3, E3, Z3.
  repeat split.
  - rewrite step_state, N2; cbn [node_fn apply_update parsedInput].
    rewrite HP; exact P2.
  - rewrite step_state, N2; cbn [node_fn apply_update worldState].
    now rewrite HW.
  - rewrite step_state, N2; cbn [node_fn apply_update personaOutputs].
    rewrite HO; cbn [reduce]; now rewrite O2.
Qed.

(** Every configuration of a run is one of the first three, or comes after
    the Director and is settled. *)
Lemma run_invariant (c : Config) :
  reachable env messages c ->
  (c = start messages \/ c = step env (start messages)
   \/ c = after_narrator env messages)
  \/ (at_node c <> parser /\ at_node c <> narrator
      /\ at_node c <> director /\ settled env messages c).
Proof.
  induction 1 as [|c Hc IH Hn].
  - left; left; reflexivity.
  - destruct IH as [[-> | [-> | ->]] | (Np & Nn & Nd & S)].
    + left; right; left; reflexivity.
    + left; right; right; reflexivity.
    + right; destruct settled_first_fan_out as (N3 & S3).
      rewrite N3; split; [|split; [|split]]; try discriminate; exact S3.
    + right.
      destruct S as (HP & HW & HA & HC & HL & HE).
      unfold settled; cbv zeta.
      rewrite step_node, step_executions, step_state.
      destruct (at_node c) eqn:E; try congruence; cbn [node_fn next].
      * destruct (persona_shape (executions c) (state c)) as (os & -> & Hos).
        cbn [apply_update Persona.outputs parsedInput worldState
               activeCharacters characterContexts personaOutputs
               retryCount reduce reduce_replace reduce_personaOutputs
               p_parsedInput p_worldState p_activeCharacters
               p_characterContexts p_personaOutputs p_retryCount].
        rewrite length_app, Hos, HL by (rewrite HP; discriminate).
        repeat split; try discriminate; auto; lia.
      * fold (evaluated (state c)).
        destruct (evaluated_keeps (state c)) as (KP & KW & KA & KC & _).
        rewrite KP, KW, KA, KC, evaluated_personaOutputs.
        unfold routeAfterEvaluate.
        pose proof (evaluated_cases (state c)) as C; cbv zeta in C.
        destruct C as [(_ & P & R) | [(_ & _ & P & R) | (_ & _ & P & R)]];
          rewrite P, R; repeat split; try discriminate; auto; lia.
      * destruct (composer_shape (state c)) as (text & ->).
        cbn [apply_update Composer.final parsedInput worldState
               activeCharacters characterContexts personaOutputs
               retryCount reduce reduce_replace reduce_personaOutputs
               p_parsedInput p_worldState p_activeCharacters
               p_characterContexts p_personaOutputs p_retryCount].
        repeat split; try discriminate; auto.
Qed.

(** The final configuration of the run is settled. *)
Lemma final_settled :
  exists final,
    invoke env messages = Some final
    /\ at_node final = END
    /\ reachable env messages final
    /\ settled env messages final.
Proof.
  destruct (run_ends env messages) as (n & pre & _ & Hr & Hn & _ & Hi).
  exists (step env pre); split; [exact Hi|].
  assert (at_node (step env pre) = END) as HE by (now rewrite step_node, Hn).
  split; [exact HE|].
  assert (reachable env messages (step env pre)) as R
      by (apply reach_step; [exact Hr | rewrite Hn; discriminate]).
  split; [exact R|].
  destruct (run_invariant (step env pre) R)
    as [[E | [E | E]] | (_ & _ & _ & S)]; [| | |exact S];
    rewrite E in HE; [discriminate | discriminate |].
  destruct (before_director env messages) as (N2 & _).
  rewrite N2 in HE; discriminate.
Qed.

End RunInvariants.

Section RunProperties.

Variable env : Env.
Variable messages : list Message.



(** X4: Director, fan-out, Evaluator and Composer never change the world
    state: the run ends with the world state the Narrator left. *)
Theorem world_state_settled_by_narrator (c : Config) :
  reachable env messages c ->
  at_node c = persona \/ at_node c = evaluate \/ at_node c = composer
  \/ at_node c = END ->
  worldState (state c) = worldState (state (after_narrator env messages)).
Proof.
  intros R Hn.
  destruct (run_invariant env messages c R)
    as [[E | [E | E]] | (_ & _ & _ & S)].
  - subst c; simpl in Hn; intuition discriminate.
  - subst c; rewrite step_node in Hn; simpl in Hn; intuition discriminate.
  - now subst c.
  - apply S.
Qed.

(** The world state after a rule-based Narrator, in any run. *)
Lemma rule_based_after_narrator :
  narratorModel env = None ->
  worldState (state (after_narrator env messages))
  = Some (Narrator.rule_update (Parser.parse env messages) None).
Proof.
  intros Hm; unfold after_narrator.
  rewrite step_state.
  change (at_node (step env (start messages))) with narrator.
  cbn [node_fn]; unfold Narrator.narratorNode.
  change (parsedInput (state (step env (start messages))))
    with (Some (Parser.parse env messages)).
  cbv iota; rewrite Hm; reflexivity.
Qed.

(** X5: a run starts without a world state, so without a Narrator model it
    ends with a world state made from this run's input alone: the default
    scene and time, at most one character, and exactly one recent
    event. *)
Theorem rule_based_world_is_fresh :
  narratorModel env = None ->
  exists final w,
    invoke env messages = Some final
    /\ worldState (state final) = Some w
    /\ scene w = lit "未知场景"
    /\ time w = lit "未知时间"
    /\ characters w
       = Narrator.extractCharacters
           (characterSettings (Parser.parse env messages))
    /\ recentEvents w = [event_of (Parser.parse env messages)].
Proof.
  intros Hm.
  destruct (final_settled env messages) as (final & Hi & HE & R & S).
  destruct S as (_ & HW & _).
  rewrite (rule_based_after_narrator Hm) in HW.
  eexists; eexists; split; [exact Hi|]; split; [exact HW|].
  repeat split.
  unfold Narrator.rule_update; cbn [characters]; unfold rec_spread.
  unfold Narrator.extractCharacters.
  destruct (Narrator.find_name _); reflexivity.
Qed.

End RunProperties.


Lemma world_state_settled_by_narrator_witness :
  worldState (state (steps env_blank 11 (start msgs_alice)))
  = worldState (state (after_narrator env_blank msgs_alice)).
Proof.
  apply (world_state_settled_by_narrator env_blank msgs_alice).
  - apply steps_reachable; constructor.
  - right; right; left; reflexivity.
Defined.

Lemma rule_based_world_is_fresh_witness :
  exists final w,
    invoke env_blank msgs_alice = Some final
    /\ worldState (state final) = Some w
    /\ scene w = lit "未知场景"
    /\ time w = lit "未知时间"
    /\ characters w
       = Narrator.extractCharacters
           (characterSettings (Parser.parse env_blank msgs_alice))
    /\ recentEvents w = [event_of (Parser.parse env_blank msgs_alice)].
Proof.
  apply (rule_based_world_is_fresh env_blank msgs_alice); reflexivity.
Defined.

(** ** The stream of a run *)

Section StreamOrder.

Import Stream.

Variable env : Env.
Variable messages : list Message.

Lemma events_S (n : nat) (c : Config) :
  at_node c <> END ->
  events env (S n) c
  = (at_node c, fst (node_fn env (at_node c) (executions c) (state c)))
    :: events env n (step env c).
Proof.
  intros H; cbn [events]; destruct (at_node c); try reflexivity; now elim H.
Qed.

Lemma events_END (n : nat) (c : Config) :
  at_node c = END -> events env n c = [].
Proof. intros H; destruct n; cbn [events]; [|rewrite H]; reflexivity. Qed.

(** From a fan-out on, the stream is some rounds of fan-out and evaluation
    followed by the Composer. *)
Lemma rounds_from (k : nat) :
  forall c,
    reachable env messages c -> at_node c = persona ->
    retryCount (state c) = (Director.maxRetries - Z.of_nat k)%Z ->
    exists j,
      1 <= j <= k + 1
      /\ forall m, 2 * j + 1 <= m ->
                   map fst (events env m c) = rounds j ++ [composer].
Proof.
  induction k as [|k IH]; intros c Hr Hn Hrc;
    destruct (loop_turn env messages c Hr Hn)
      as (Hr2 & _ & [Hc | (Hp & Hlt & Hrc2)]);
    assert (at_node (step env c) = evaluate) as Hn1
        by (now rewrite step_node, Hn);
    try lia.
  - exists 1; split; [lia|]; intros m Hm.
    destruct m as [|[|[|m]]]; try lia.
    rewrite events_S, Hn by (rewrite Hn; discriminate).
    rewrite events_S, Hn1 by (rewrite Hn1; discriminate).
    rewrite events_S, Hc by (rewrite Hc; discriminate).
    rewrite events_END by (now rewrite step_node, Hc); reflexivity.
  - exists 1; split; [lia|]; intros m Hm.
    destruct m as [|[|[|m]]]; try lia.
    rewrite events_S, Hn by (rewrite Hn; discriminate).
    rewrite events_S, Hn1 by (rewrite Hn1; discriminate).
    rewrite events_S, Hc by (rewrite Hc; discriminate).
    rewrite events_END by (now rewrite step_node, Hc); reflexivity.
  - destruct (IH _ Hr2 Hp) as (j & Hj & Hev); [lia|].
    exists (S j); split; [lia|]; intros m Hm.
    destruct m as [|[|m]]; try lia.
    rewrite events_S, Hn by (rewrite Hn; discriminate).
    rewrite events_S, Hn1 by (rewrite Hn1; discriminate).
    cbn [map fst rounds app]; rewrite Hev by lia; reflexivity.
Qed.

(** The first three events of a run. *)
Lemma events_prefix (m : nat) (c : Config) :
  at_node c = parser ->
  map fst (events env (S (S (S m))) c)
  = parser :: narrator :: director
    :: map fst (events env m (step env (step env (step env c)))).
Proof.
  intros H0.
  assert (at_node (step env c) = narrator) as H1
      by (now rewrite step_node, H0).
  assert (at_node (step env (step env c)) = director) as H2
      by (now rewrite step_node, H1).
  rewrite (events_S (S (S m)) c) by (rewrite H0; discriminate).
  rewrite (events_S (S m) (step env c)) by (rewrite H1; discriminate).
  rewrite (events_S m (step env (step env c)))
    by (rewrite H2; discriminate).
  rewrite H0, H1, H2; reflexivity.
Qed.


End StreamOrder.

(** ** The model calls of a run *)

Section CallBudget.

Variable env : Env.
Variable messages : list Message.

Lemma invocations_app (a : Agent) (l l' : list Event) :
  invocations a (l ++ l') = invocations a l + invocations a l'.
Proof. unfold invocations; now rewrite filter_app, length_app. Qed.

Lemma generations_app (l l' : list Event) :
  generations (l ++ l') = generations l + generations l'.
Proof. unfold generations; now rewrite filter_app, length_app. Qed.

Lemma narrator_calls (s : GraphState) :
  snd (Narrator.narratorNode env s) = []
  \/ snd (Narrator.narratorNode env s) = [Invoke Narrator].
Proof.
  unfold Narrator.narratorNode.
  destruct (parsedInput s); [|left; reflexivity].
  destruct (narratorModel env); [|left; reflexivity].
  right; rewrite snd_bind; cbn [emit fst snd app].
  destruct (content_of _); [destruct (Narrator.parse_reply env _)|];
    reflexivity.
Qed.

Lemma director_calls (s : GraphState) :
  snd (Director.directorNode env s) = []
  \/ snd (Director.directorNode env s) = [Invoke Director].
Proof.
  unfold Director.directorNode.
  destruct (parsedInput s); [|left; reflexivity].
  destruct (worldState s) as [w|]; [|left; reflexivity].
  destruct (length (Director.present_names w) =? 0)%nat;
    [left; reflexivity|].
  destruct (directorModel env); [|left; reflexivity].
  right; rewrite snd_bind; cbn [emit fst snd app].
  destruct (content_of _);
    [destruct (Director.parse_selection env _ _)|]; reflexivity.
Qed.

Lemma composer_calls (s : GraphState) :
  snd (Composer.composerNode env s) = []
  \/ snd (Composer.composerNode env s) = [Invoke Composer].
Proof.
  unfold Composer.composerNode.
  destruct (length (personaOutputs s) =? 0)%nat; [left; reflexivity|].
  destruct (composerModel env); [|left; reflexivity].
  right; rewrite snd_bind; cbn [emit fst snd app].
  destruct (content_of _) as [t|]; [destruct (truthy t)|]; reflexivity.
Qed.

(** One generation per name, and one invocation per name when a model is
    configured. *)
Lemma fan_out_calls (k : nat) (ctxs preset : Rec jsstring)
    (names : list jsstring) :
  forall i,
    let l := snd (Persona.fan_out env k i names ctxs preset) in
    generations l = length names
    /\ invocations Persona l = persona_configured env * length names
    /\ invocations Narrator l = 0
    /\ invocations Director l = 0
    /\ invocations Composer l = 0.
Proof.
  unfold persona_configured.
  induction names as [|who rest IH]; intros i; cbv zeta.
  - cbn; repeat split; lia.
  - cbn [Persona.fan_out].
    rewrite snd_bind, snd_bind; cbn [ret snd].
    rewrite app_nil_r, !invocations_app, generations_app.
    destruct (IH (S i)) as (G & P & N & D & C); cbv zeta in *.
    rewrite G, P, N, D, C.
    unfold Persona.generatePersonaResponse.
    rewrite snd_bind; cbn [emit snd fst].
    destruct (personaModelConfig env) as [model|]; cbn [option_map].
    + rewrite snd_bind; cbn [emit snd fst].
      destruct (content_of _); cbn; repeat split; lia.
    + cbn; repeat split; lia.
Qed.

Lemma persona_calls (k : nat) (s : GraphState) :
  parsedInput s <> None ->
  let l := snd (Persona.personaNode env k s) in
  generations l = length (activeCharacters s)
  /\ invocations Persona l
     = persona_configured env * length (activeCharacters s)
  /\ invocations Narrator l = 0
  /\ invocations Director l = 0
  /\ invocations Composer l = 0.
Proof.
  intros Hp; unfold Persona.personaNode.
  destruct (parsedInput s) as [p|]; [|now elim Hp].
  destruct (activeCharacters s) as [|who rest] eqn:E.
  - cbn; repeat split; lia.
  - cbn [length Nat.eqb]; rewrite snd_bind; cbn [ret snd].
    rewrite app_nil_r.
    apply (fan_out_calls k (characterContexts s) (presetInstructions p)
             (who :: rest) 0).
Qed.

Lemma within_budget_first_fan_out :
  within_budget env (step env (after_narrator env messages)).
Proof.
  destruct (settled_first_fan_out env messages) as (N3 & S3).
  destruct (before_director env messages) as (N2 & _).
  destruct S3 as (_ & _ & _ & _ & _ & HE).
  rewrite N3 in HE.
  destruct (first_fan_out env messages) as (_ & _ & Z3 & _).
  change (step env (step env (step env (start messages))))
    with (step env (after_narrator env messages)) in Z3.
  assert (executions (step env (after_narrator env messages)) = 0) as E3
      by (rewrite Z3 in HE; lia).
  assert (log (step env (after_narrator env messages))
          = snd (Narrator.narratorNode env
                   (state (step env (start messages))))
            ++ snd (Director.directorNode env
                      (state (after_narrator env messages)))) as L.
  { rewrite step_log, N2; cbn [node_fn]; f_equal.
    unfold after_narrator; rewrite step_log; reflexivity. }
  unfold within_budget.
  rewrite N3, E3, L, !invocations_app, generations_app.
  destruct (narrator_calls (state (step env (start messages)))) as [-> | ->];
    destruct (director_calls (state (after_narrator env messages)))
      as [-> | ->];
    unfold invocations, generations; cbn [filter is_invoke is_generate
      agent_eqb length]; repeat split; lia.
Qed.

(** Every configuration after the Director is within the budget. *)
Lemma budget_invariant (c : Config) :
  reachable env messages c ->
  at_node c <> parser -> at_node c <> narrator -> at_node c <> director ->
  within_budget env c.
Proof.
  induction 1 as [|c Hc IH Hn]; intros Np Nn Nd; [now elim Np|].
  destruct (run_invariant env messages c Hc)
    as [[E | [E | E]] | (Cp & Cn & Cd & S)].
  - subst c; rewrite step_node in Nn; now elim Nn.
  - subst c; now elim Nd; rewrite step_node.
  - subst c; apply within_budget_first_fan_out.
  - specialize (IH Cp Cn Cd).
    destruct IH as (BN & BD & BC & BP & BG).
    destruct S as (HP & _ & _ & _ & _ & _).
    destruct (run_invariant env messages (step env c)
                (reach_step env messages c Hc Hn))
      as [[E | [E | E]] | (_ & _ & _ & S')].
    + rewrite E in Np; now elim Np.
    + rewrite E in Nn; now elim Nn; rewrite step_node.
    + rewrite E in Nd; destruct (before_director env messages) as (N2 & _).
      now elim Nd.
    + assert (activeCharacters (state (step env c))
              = activeCharacters (state c)) as HA.
      { destruct S' as (_ & _ & -> & _).
        destruct (run_invariant env messages c Hc)
          as [[E | [E | E]] | (_ & _ & _ & S)];
          try (subst c; now elim Cp);
          try (subst c; now elim Cn; rewrite step_node).
        - subst c; destruct (before_director env messages) as (N2 & _).
          now elim Cd.
        - now destruct S as (_ & _ & -> & _). }
      unfold within_budget.
      rewrite HA, step_log, step_executions, step_node.
      rewrite !invocations_app, generations_app.
      destruct (at_node c) eqn:E; try congruence; cbn [node_fn next].
      * destruct (persona_calls (executions c) (state c))
          as (G & P & N & D & C); [rewrite HP; discriminate|].
        cbv zeta in *; rewrite G, P, N, D, C.
        repeat split; lia.
      * cbn [Director.directorEvaluateNode].
        assert (snd (Director.directorEvaluateNode (state c)) = []) as ->.
        { unfold Director.directorEvaluateNode.
          destruct (forallb _ _);
            [|destruct (Director.maxRetries <=? _)%Z]; reflexivity. }
        cbn; unfold routeAfterEvaluate.
        destruct (formatCheckPassed _); repeat split; lia.
      * destruct (composer_calls (state c)) as [-> | ->];
          cbn; repeat split; lia.
Qed.


End CallBudget.

(** ** The Composer *)

Section ComposerFacts.

Import Composer.

Lemma strip_prefix_Some (p s r : jsstring) :
  strip_prefix p s = Some r <-> s = p ++ r.
Proof.
  revert s; induction p as [|a p IH]; intros s; cbn [strip_prefix app].
  - split; [now intros [= ->] | now intros ->].
  - destruct s as [|b s]; [split; discriminate|].
    destruct (N.eqb a b) eqn:E.
    + apply N.eqb_eq in E; subst b; rewrite IH.
      split; [now intros -> | now intros [= ->]].
    + split; [discriminate|].
      intros [= -> _]; now rewrite N.eqb_refl in E.
Qed.

(** [s.includes(p)] holds exactly when [p] occurs in [s]. *)
Lemma includes_substring (p s : jsstring) :
  includes p s = true <-> substring p s.
Proof.
  induction s as [|c s IH]; cbn [includes].
  - destruct (strip_prefix p []) as [r|] eqn:E.
    + apply strip_prefix_Some in E.
      split; [intros _; exists [], r; exact E | reflexivity].
    + split; [discriminate|].
      intros (pre & post & H).
      destruct pre; [|discriminate].
      assert (strip_prefix p [] = Some post) as E'
          by (apply strip_prefix_Some; exact H).
      congruence.
  - destruct (strip_prefix p (c :: s)) as [r|] eqn:E.
    + apply strip_prefix_Some in E.
      split; [intros _; exists [], r; exact E | reflexivity].
    + rewrite IH; split.
      * intros (pre & post & ->); exists (c :: pre), post; reflexivity.
      * intros (pre & post & H).
        destruct pre as [|d pre].
        -- assert (strip_prefix p (c :: s) = Some post) as E'
               by (apply strip_prefix_Some; exact H).
           congruence.
        -- injection H as _ ->; exists pre, post; reflexivity.
Qed.

Lemma substring_trans (a b c : jsstring) :
  substring a b -> substring b c -> substring a c.
Proof.
  intros (p1 & q1 & ->) (p2 & q2 & ->).
  exists (p2 ++ p1), (q1 ++ q2).
  now rewrite <- !app_assoc.
Qed.

Lemma join_cons (sep x : jsstring) (xs : list jsstring) :
  xs <> [] -> join sep (x :: xs) = x ++ sep ++ join sep xs.
Proof. destruct xs; [intros H; now elim H | reflexivity]. Qed.

Lemma join_app (sep : jsstring) (xs ys : list jsstring) :
  xs <> [] -> ys <> [] ->
  join sep (xs ++ ys) = join sep xs ++ sep ++ join sep ys.
Proof.
  intros Hx Hy; induction xs as [|x xs IH]; [now elim Hx|].
  destruct xs as [|x' xs].
  - cbn [app]; rewrite join_cons by exact Hy; reflexivity.
  - rewrite <- app_comm_cons, join_cons by discriminate.
    rewrite IH by discriminate.
    rewrite (join_cons sep x) by discriminate.
    now rewrite <- !app_assoc.
Qed.

Lemma join_substring (sep x : jsstring) (xs : list jsstring) :
  In x xs -> substring x (join sep xs).
Proof.
  induction xs as [|y xs IH]; [intros []|].
  destruct xs as [|y' xs].
  - intros [-> | []]; exists [], []; cbn; now rewrite app_nil_r.
  - rewrite join_cons by discriminate.
    intros [-> | H].
    + exists [], (sep ++ join sep (y' :: xs)); reflexivity.
    + destruct (IH H) as (pre & post & E).
      exists (y ++ sep ++ pre), post.
      rewrite E, <- !app_assoc; reflexivity.
Qed.

Lemma join_nil (sep : jsstring) (xs : list jsstring) :
  (forall x, In x xs -> x <> []) -> join sep xs = [] -> xs = [].
Proof.
  destruct xs as [|x xs]; [reflexivity|].
  intros H E; exfalso; apply (H x); [now left|].
  destruct xs; cbn in E; [exact E|].
  now destruct x.
Qed.

(** One block of the deterministic composition. *)
Lemma simpleCompose_blocks (os : list PersonaOutput) :
  simpleCompose os
  = join SEPARATOR
      (map (fun o =>
              if negb (includes (characterName o) (content o))
              then lit "【" ++ characterName o ++ lit "】" ++ [10%N]
                   ++ content o
              else content o)
         (filter kept os)).
Proof. reflexivity. Qed.

Lemma block_not_empty (o : PersonaOutput) :
  kept o = true ->
  (if negb (includes (characterName o) (content o))
   then lit "【" ++ characterName o ++ lit "】" ++ [10%N] ++ content o
   else content o) <> [].
Proof.
  unfold kept; intros H; apply andb_prop in H as [_ H].
  destruct (negb _); [discriminate|].
  destruct (content o); [discriminate | discriminate].
Qed.

Lemma kept_none (os : list PersonaOutput) :
  (forall o, In o os -> kept o = false) -> filter kept os = [].
Proof.
  induction os as [|o os IH]; intros H; [reflexivity|].
  cbn [filter]; rewrite (H o) by now left.
  apply IH; intros o' Ho'; apply H; now right.
Qed.

Lemma simpleCompose_nil_filter (os : list PersonaOutput) :
  simpleCompose os = [] -> filter kept os = [].
Proof.
  rewrite simpleCompose_blocks; intros E; apply join_nil in E.
  - now apply map_eq_nil in E.
  - intros x Hx; apply in_map_iff in Hx as (o & <- & Ho).
    apply filter_In in Ho as [_ K]; now apply block_not_empty.
Qed.

(** X7: the deterministic composition is empty exactly when no output is
    both [formatValid] and of non-empty content. *)
Theorem simpleCompose_empty (os : list PersonaOutput) :
  simpleCompose os = [] <-> forall o, In o os -> kept o = false.
Proof.
  split.
  - intros E; apply simpleCompose_nil_filter in E.
    intros o Ho; destruct (kept o) eqn:K; [|reflexivity].
    assert (In o (filter kept os)) as Hin by (apply filter_In; auto).
    rewrite E in Hin; destruct Hin.
  - intros H; rewrite simpleCompose_blocks, (kept_none os H); reflexivity.
Qed.

(** X8: composing two lists of outputs composes the two texts: the texts
    are joined by the separator, and a side that keeps no output leaves
    the other text alone. *)
Theorem simpleCompose_app (a b : list PersonaOutput) :
  simpleCompose (a ++ b)
  = match simpleCompose a, simpleCompose b with
    | [], t => t
    | t, [] => t
    | ta, tb => ta ++ SEPARATOR ++ tb
    end.
Proof.
  destruct (filter kept a) as [|oa ra] eqn:Fa.
  - assert (simpleCompose a = []) as ->
        by (rewrite simpleCompose_blocks, Fa; reflexivity).
    rewrite !simpleCompose_blocks, filter_app, Fa; reflexivity.
  - destruct (filter kept b) as [|ob rb] eqn:Fb.
    + assert (simpleCompose b = []) as Eb
          by (rewrite simpleCompose_blocks, Fb; reflexivity).
      rewrite Eb.
      assert (simpleCompose (a ++ b) = simpleCompose a) as ->
          by (rewrite !simpleCompose_blocks, filter_app, Fb, app_nil_r;
              reflexivity).
      now destruct (simpleCompose a).
    + assert (simpleCompose a <> []) as Na.
      { intros E; apply simpleCompose_nil_filter in E.
        rewrite Fa in E; discriminate. }
      assert (simpleCompose b <> []) as Nb.
      { intros E; apply simpleCompose_nil_filter in E.
        rewrite Fb in E; discriminate. }
      assert (simpleCompose (a ++ b)
              = simpleCompose a ++ SEPARATOR ++ simpleCompose b) as ->.
      { rewrite !simpleCompose_blocks, filter_app, map_app, Fa, Fb.
        apply join_app; discriminate. }
      destruct (simpleCompose a); [now elim Na|].
      destruct (simpleCompose b); [now elim Nb | reflexivity].
Qed.

(** X9: the composed text names every character whose output it keeps. *)
Theorem simpleCompose_names (os : list PersonaOutput) (o : PersonaOutput) :
  In o os -> kept o = true ->
  includes (characterName o) (simpleCompose os) = true
  /\ includes (content o) (simpleCompose os) = true.
Proof.
  intros Ho K; rewrite !includes_substring, simpleCompose_blocks.
  set (block := fun o : PersonaOutput => _).
  assert (substring (block o) (join SEPARATOR (map block (filter kept os))))
    as Hb.
  { apply join_substring, in_map, filter_In; auto. }
  split; (eapply substring_trans; [|exact Hb]); unfold block.
  - destruct (includes (characterName o) (content o)) eqn:I; cbn [negb].
    + now apply includes_substring.
    + exists (lit "【"), (lit "】" ++ [10%N] ++ content o); reflexivity.
  - destruct (negb _).
    + exists (lit "【" ++ characterName o ++ lit "】" ++ [10%N]), [].
      rewrite app_nil_r, <- !app_assoc; reflexivity.
    + exists [], []; cbn; now rewrite app_nil_r.
Qed.

(** X10: a Composer model that throws, or answers with an empty or
    non-string reply, leaves the update the Composer returns without a
    model: the sentinel without outputs, the deterministic composition
    otherwise. *)
Theorem composer_degrades (env : Env) (s : GraphState)
    (model : list PersonaOutput -> option WorldState -> Response) :
  composerModel env = Some model ->
  content_of (model (personaOutputs s) (worldState s)) = None
  \/ content_of (model (personaOutputs s) (worldState s)) = Some [] ->
  fst (composerNode env s) = fst (composerNode (without_composer env) s)
  /\ fst (composerNode env s)
     = final (match personaOutputs s with
              | [] => no_replies
              | _ => simpleCompose (personaOutputs s)
              end).
Proof.
  intros Hm Hf.
  assert (fst (composerNode env s)
          = final (match personaOutputs s with
                   | [] => no_replies
                   | _ => simpleCompose (personaOutputs s)
                   end)) as E.
  { unfold composerNode.
    destruct (personaOutputs s) as [|o os]; [reflexivity|].
    cbn [length Nat.eqb]; rewrite Hm, fst_bind; cbn [emit fst].
    destruct Hf as [-> | ->]; reflexivity. }
  split; [|exact E].
  rewrite E; unfold composerNode, without_composer; cbn [composerModel].
  destruct (personaOutputs s); reflexivity.
Qed.

End ComposerFacts.

Lemma simpleCompose_names_witness :
  includes (lit "B") (Composer.simpleCompose [says "A" "hi"; says "B" "yo"])
  = true
  /\ includes (lit "yo")
       (Composer.simpleCompose [says "A" "hi"; says "B" "yo"]) = true.
Proof.
  apply (simpleCompose_names [says "A" "hi"; says "B" "yo"] (says "B" "yo"));
    [right; left; reflexivity | reflexivity].
Defined.

Lemma composer_degrades_witness :
  fst (Composer.composerNode env_composer_throws
         (state_with [says "A" "hi"] 0))
  = fst (Composer.composerNode (without_composer env_composer_throws)
           (state_with [says "A" "hi"] 0)).
Proof.
  refine (proj1 (composer_degrades env_composer_throws
                   (state_with [says "A" "hi"] 0) (fun _ _ => Throws)
                   eq_refl _)).
  left; reflexivity.
Defined.

(** ** Runs without replies *)

Section NoReplies.

Variable env : Env.
Variable messages : list Message.
Hypothesis failing : never_replies env.

(** In such a run the state never holds anything but placeholders. *)
Lemma only_placeholders (c : Config) :
  reachable env messages c ->
  forall o, In o (personaOutputs (state c)) -> is_placeholder o.
Proof.
  induction 1 as [|c Hc IH Hn]; [intros o []|].
  rewrite step_state.
  destruct (at_node c) eqn:E; cbn [node_fn].
  - exact IH.
  - cbn [apply_update personaOutputs].
    destruct (narrator_writes env (state c)) as (_ & _ & ->); exact IH.
  - cbn [apply_update personaOutputs].
    destruct (director_writes env (state c)) as (_ & _ & -> & _); exact IH.
  - cbn [apply_update personaOutputs].
    destruct (persona_step_placeholders env failing (executions c) (state c))
      as (os & -> & Hos).
    cbn [reduce]; unfold reduce_personaOutputs.
    intros o Ho; apply in_app_or in Ho as [Ho | Ho]; auto.
  - fold (evaluated (state c)); rewrite evaluated_personaOutputs; exact IH.
  - destruct (composer_shape env (state c)) as (text & ->); exact IH.
  - now elim Hn.
Qed.

Lemma placeholder_not_kept (o : PersonaOutput) :
  is_placeholder o -> kept o = false.
Proof. intros [-> | ->]; reflexivity. Qed.


End NoReplies.


(** ** The Director's selection and contexts *)

Section DirectorFacts.

Import Director.

Lemma valid_characters_present (present : list jsstring)
    (parsed : list JsonElem) (c : jsstring) :
  In c (valid_characters present parsed) -> In c present.
Proof.
  rewrite valid_characters_filter, filter_In, array_includes_In; tauto.
Qed.


Lemma rec_get_set_same {T} (k : jsstring) (v : T) (o : Rec T) :
  rec_get k (rec_set k v o) = Some v.
Proof.
  induction o as [|[k' v'] o IH]; cbn [rec_set rec_get].
  - now rewrite eqb_refl.
  - destruct (JS.eqb k k') eqn:E; cbn [rec_get]; rewrite E; auto.
Qed.

Lemma rec_get_set_other {T} (k k' : jsstring) (v : T) (o : Rec T) :
  k <> k' -> rec_get k (rec_set k' v o) = rec_get k o.
Proof.
  intros Hne.
  assert (JS.eqb k k' = false) as Ek.
  { destruct (JS.eqb k k') eqn:E; [apply eqb_eq in E; contradiction|].
    reflexivity. }
  induction o as [|[k2 v2] o IH]; cbn [rec_set rec_get].
  - now rewrite Ek.
  - destruct (JS.eqb k' k2) eqn:E; cbn [rec_get].
    + apply eqb_eq in E; subst k2; now rewrite Ek.
    + destruct (JS.eqb k k2); auto.
Qed.

Lemma contexts_for_get (p : ParsedInput) (w : WorldState)
    (names : list jsstring) (k : jsstring) :
  forall acc,
    rec_get k
      (fold_left
         (fun ctxs charName =>
            rec_set charName (buildCharacterContext charName p w) ctxs)
         names acc)
    = if Parser.array_includes names k
      then Some (buildCharacterContext k p w)
      else rec_get k acc.
Proof.
  induction names as [|n names IH]; intros acc; [reflexivity|].
  cbn [fold_left]; rewrite IH.
  unfold Parser.array_includes; cbn [existsb].
  destruct (existsb (JS.eqb k) names); [now rewrite orb_true_r|].
  rewrite orb_false_r.
  destruct (JS.eqb k n) eqn:E.
  - apply eqb_eq in E; subst n; apply rec_get_set_same.
  - apply rec_get_set_other; intros ->; now rewrite eqb_refl in E.
Qed.

(** X13: the contexts record holds, for each selected name, the context
    built for that name, and no other key (for names other than
    [__proto__], which no assignment can make a key). *)
Theorem contexts_match_selection (p : ParsedInput) (w : WorldState)
    (names : list jsstring) (k : jsstring) :
  ~ In PROTO names ->
  rec_get k (contexts_for names p w)
  = if Parser.array_includes names k
    then Some (buildCharacterContext k p w)
    else None.
Proof. intros _; unfold contexts_for; now rewrite contexts_for_get. Qed.

Lemma others_by_name (k : jsstring) (l : list Character) :
  map name
    (filter (fun c => present c && negb (JS.eqb (name c) k)) l)
  = filter (fun n => negb (JS.eqb n k)) (map name (filter present l)).
Proof.
  induction l as [|c l IH]; [reflexivity|].
  cbn [filter]; destruct (present c); cbn [andb map filter]; [|exact IH].
  destruct (negb (JS.eqb (name c) k)); cbn [map]; now rewrite IH.
Qed.

(** X14: the context of a character depends on the world state only
    through the scene, the time, the names of the present characters and
    the recent events, and on the parsed input only through the user
    input: absent characters, positions and descriptions never reach a
    context. *)
Theorem context_visibility (k : jsstring) (p p' : ParsedInput)
    (w w' : WorldState) :
  scene w = scene w' -> time w = time w' ->
  present_names w = present_names w' ->
  recentEvents w = recentEvents w' ->
  userInput p = userInput p' ->
  buildCharacterContext k p w = buildCharacterContext k p' w'.
Proof.
  intros Hs Ht Hn He Hu; unfold buildCharacterContext.
  rewrite !others_by_name.
  unfold present_names in Hn; rewrite Hs, Ht, Hn, He, Hu; reflexivity.
Qed.

(** X15: a Director model that throws, or whose reply holds no bracketed
    text that parses, leaves the update the Director returns without a
    model: all present characters are selected. *)
Theorem director_degrades (env : Env) (s : GraphState)
    (model : WorldState -> jsstring -> list jsstring -> Response) :
  directorModel env = Some model ->
  (forall p w reply,
     parsedInput s = Some p -> worldState s = Some w ->
     content_of (model w (userInput p) (present_names w)) = Some reply ->
     forall m,
       Narrator.match_greedy LBRACKET RBRACKET reply = Some m ->
       JSON_parse_array env m = None) ->
  fst (directorNode env s) = fst (directorNode (without_director env) s).
Proof.
  intros Hm Hf; unfold directorNode, without_director; cbn [directorModel].
  destruct (parsedInput s) as [p|]; [|reflexivity].
  destruct (worldState s) as [w|]; [|reflexivity].
  destruct (length (present_names w) =? 0)%nat; [reflexivity|].
  rewrite Hm, fst_bind; cbn [emit fst].
  destruct (content_of _) as [reply|] eqn:R; [|reflexivity].
  unfold parse_selection; cbn [JSON_parse_array].
  destruct (Narrator.match_greedy _ _ reply) as [m|] eqn:M; [|reflexivity].
  now rewrite (Hf p w reply eq_refl eq_refl R m M).
Qed.

End DirectorFacts.


Lemma contexts_match_selection_witness :
  rec_get (lit "B")
    (Director.contexts_for [lit "A"; lit "B"] no_input world_AB)
  = Some (Director.buildCharacterContext (lit "B") no_input world_AB).
Proof.
  apply (contexts_match_selection no_input world_AB [lit "A"; lit "B"]).
  intros [H | [H | []]]; discriminate.
Defined.

Lemma context_visibility_witness :
  Director.buildCharacterContext (lit "A") no_input world_AB
  = Director.buildCharacterContext (lit "A") no_input world_ABC.
Proof.
  apply context_visibility; reflexivity.
Defined.

Lemma director_degrades_witness :
  fst (Director.directorNode env_director_throws state_AB)
  = fst (Director.directorNode (without_director env_director_throws)
           state_AB).
Proof.
  apply (director_degrades env_director_throws state_AB
           (fun _ _ _ => Throws) eq_refl).
  intros p w reply _ _ H; discriminate.
Defined.

(** ** The Parser's input, history and tags *)

Section ParserMore.

Import Parser.

Lemma or_else_nil (s : jsstring) : or_else s [] = s.
Proof. now destruct s. Qed.

Lemma last_user_input_found (later earlier : list Message) (m : Message) :
  forall u,
    role m = USER ->
    stripXmlTags (msg_content m) <> [] ->
    (forall m', In m' later -> role m' = USER ->
                stripXmlTags (msg_content m') = []) ->
    last_user_input (later ++ m :: earlier) u
    = stripXmlTags (msg_content m).
Proof.
  induction later as [|x later IH]; intros u Hm Hs Hb.
  - cbn [app last_user_input]; rewrite Hm.
    change (JS.eqb USER (lit "user")) with true; cbv iota.
    rewrite or_else_nil.
    destruct (stripXmlTags (msg_content m)); [now elim Hs | reflexivity].
  - cbn [app last_user_input].
    assert (forall m', In m' later -> role m' = USER ->
                       stripXmlTags (msg_content m') = []) as Hb'
        by (intros m' H; apply Hb; now right).
    destruct (JS.eqb (role x) (lit "user")) eqn:E; [|now apply IH].
    apply eqb_eq in E; rewrite or_else_nil, (Hb x) by (auto; now left).
    cbn [truthy]; now apply IH.
Qed.

Lemma last_user_input_none (later : list Message) :
  (forall m, In m later -> role m = USER ->
             stripXmlTags (msg_content m) = []) ->
  last_user_input later [] = [].
Proof.
  induction later as [|x later IH]; intros Hb; [reflexivity|].
  cbn [last_user_input].
  assert (last_user_input later [] = []) as R
      by (apply IH; intros m H; apply Hb; now right).
  destruct (JS.eqb (role x) (lit "user")) eqn:E; [|exact R].
  apply eqb_eq in E; rewrite or_else_nil, (Hb x) by (auto; now left).
  exact R.
Qed.

(** X16: the current input is the stripped text of the last user message
    whose stripped text is not empty, whatever comes before it and whatever
    messages of other roles come after it; when no user message has text,
    it is the empty string. *)
Theorem user_input_is_last_with_text (env : Env) :
  (forall before m after,
     role m = USER ->
     stripXmlTags (msg_content m) <> [] ->
     (forall m', In m' after -> role m' = USER ->
                 stripXmlTags (msg_content m') = []) ->
     userInput (parse env (before ++ m :: after))
     = stripXmlTags (msg_content m))
  /\ (forall msgs,
        (forall m, In m msgs -> role m = USER ->
                   stripXmlTags (msg_content m) = []) ->
        userInput (parse env msgs) = []).
Proof.
  split.
  - intros before m after Hm Hs Hb.
    unfold parse; cbn [userInput].
    rewrite rev_app_distr; cbn [rev]; rewrite <- app_assoc; cbn [app].
    apply last_user_input_found; auto.
    intros m' H; apply Hb; now apply in_rev.
  - intros msgs Hb; unfold parse; cbn [userInput].
    apply last_user_input_none.
    intros m H; apply Hb; now apply in_rev.
Qed.

(** Keys and history entries the loops may produce. *)
Definition catalogued (a : Acc) : Prop :=
  Forall (fun kv => In (fst kv) PRESET_TAGS) (acc_preset a)
  /\ Forall (fun kv => In (fst kv) CHARACTER_TAGS) (acc_character a)
  /\ Forall (fun e => role e = HISTORY
                      \/ ((role e = USER \/ role e = ASSISTANT)
                          /\ msg_content e <> []))
       (acc_history a).

Lemma rec_set_keys {T} (Q : jsstring -> Prop) (k : jsstring) (v : T)
    (o : Rec T) :
  Q k -> Forall (fun kv => Q (fst kv)) o ->
  Forall (fun kv => Q (fst kv)) (rec_set k v o).
Proof.
  intros Hk; induction 1 as [|[k' v'] o Hx Ho IH]; cbn [rec_set].
  - repeat constructor; exact Hk.
  - destruct (JS.eqb k k'); constructor; auto.
Qed.

Lemma classify_catalogued (a : Acc) (tag : jsstring * jsstring) :
  catalogued a -> catalogued (classify a tag).
Proof.
  intros (Hp & Hc & Hh); destruct tag as [n v]; unfold classify.
  destruct (array_includes PRESET_TAGS n) eqn:P.
  { split; [|split]; cbn [acc_preset acc_character acc_history]; auto.
    apply (rec_set_keys (fun k => In k PRESET_TAGS)); auto.
    now apply array_includes_In. }
  destruct (array_includes CHARACTER_TAGS n) eqn:C.
  { split; [|split]; cbn [acc_preset acc_character acc_history]; auto.
    apply (rec_set_keys (fun k => In k CHARACTER_TAGS)); auto.
    now apply array_includes_In. }
  destruct (array_includes HISTORY_TAGS n).
  { split; [|split]; cbn [acc_preset acc_character acc_history]; auto.
    apply Forall_app; split; [exact Hh|].
    constructor; [left; reflexivity | constructor]. }
  split; [|split]; auto.
Qed.

Lemma visit_catalogued (a : Acc) (msg : Message) :
  catalogued a -> catalogued (visit a msg).
Proof.
  intros H; unfold visit.
  set (a1 := fold_left classify _ a).
  assert (catalogued a1) as (Hp & Hc & Hh).
  { subst a1; revert a H.
    induction (extractXmlTags (or_else (msg_content msg) []))
      as [|t ts IH]; intros a H; [exact H|].
    cbn [fold_left]; apply IH, classify_catalogued, H. }
  destruct (JS.eqb _ (lit "assistant") || JS.eqb _ (lit "user")) eqn:R;
    [|split; [|split]; auto].
  destruct (stripXmlTags _) as [|c t] eqn:S; cbn [truthy];
    [split; [|split]; auto|].
  split; [|split]; cbn; auto.
  apply Forall_app; split; auto.
  constructor; [|constructor]; right; cbn; split; [|discriminate].
  rewrite or_else_nil in R |- *.
  apply orb_prop in R as [R | R]; apply eqb_eq in R; auto.
Qed.

(** X17: whatever the messages hold, the Parser records preset
    instructions under preset tags only and character settings under
    character tags only (a tag of any other name is recorded nowhere), and
    every history entry is a history-tag entry or a dialogue entry of role
    user or assistant with non-empty content. *)
Theorem parser_records_catalogued_tags (env : Env) (msgs : list Message) :
  (forall k, rec_get k (presetInstructions (parse env msgs)) <> None ->
             In k PRESET_TAGS)
  /\ (forall k, rec_get k (characterSettings (parse env msgs)) <> None ->
                In k CHARACTER_TAGS)
  /\ (forall e, In e (chatHistory (parse env msgs)) ->
                role e = HISTORY
                \/ ((role e = USER \/ role e = ASSISTANT)
                    /\ msg_content e <> [])).
Proof.
  assert (forall a, catalogued a -> catalogued (fold_left visit msgs a)) as H.
  { induction msgs as [|m ms IH]; intros a Ha; [exact Ha|].
    cbn [fold_left]; apply IH, visit_catalogued, Ha. }
  destruct (H {| acc_preset := []; acc_character := []; acc_history := [] |})
    as (Hp & Hc & Hh); [repeat split; constructor|].
  assert (forall (Q : jsstring -> Prop) (o : Rec jsstring) k,
            Forall (fun kv => Q (fst kv)) o ->
            rec_get k o <> None -> Q k) as G.
  { intros Q o k Ho; induction Ho as [|[k' v'] o Hx _ IH];
      cbn [rec_get]; [intros E; now elim E|].
    destruct (JS.eqb k k') eqn:E; [|exact IH].
    apply eqb_eq in E; subst k'; intros _; exact Hx. }
  unfold parse; cbn [presetInstructions characterSettings chatHistory].
  repeat split.
  - intros k; apply (G (fun k => In k PRESET_TAGS)); exact Hp.
  - intros k; apply (G (fun k => In k CHARACTER_TAGS)); exact Hc.
  - intros e He; rewrite Forall_forall in Hh; auto.
Qed.

Lemma strip_plain (t : jsstring) : ~ In LT t -> stripXmlTags t = trim t.
Proof.
  intros H; unfold stripXmlTags.
  assert (remove_all match_span 0 t = t) as ->.
  { rewrite <- (app_nil_r t) at 1.
    rewrite remove_all_text;
      [apply app_nil_r | apply match_span_head | exact H]. }
  now rewrite (remove_open_text t H).
Qed.

Lemma extract_plain (t : jsstring) : ~ In LT t -> extractXmlTags t = [].
Proof.
  intros H; unfold extractXmlTags.
  rewrite <- (app_nil_r t), (exec_all_text t [] H); reflexivity.
Qed.

Lemma visit_plain (a : Acc) (m : Message) :
  ~ In LT (msg_content m) ->
  visit a m
  = {| acc_preset := acc_preset a; acc_character := acc_character a;
       acc_history := acc_history a ++ plain_dialogue [m] |}.
Proof.
  intros H; unfold visit; rewrite !or_else_nil.
  rewrite (extract_plain _ H), (strip_plain _ H); cbn [fold_left].
  cbn [plain_dialogue].
  change (lit "assistant") with ASSISTANT; change (lit "user") with USER.
  destruct (JS.eqb (role m) ASSISTANT || JS.eqb (role m) USER);
    cbn [andb]; [|rewrite app_nil_r; now destruct a].
  destruct (truthy (trim (msg_content m)));
    [reflexivity | rewrite app_nil_r; now destruct a].
Qed.

Lemma plain_dialogue_cons (m : Message) (ms : list Message) :
  plain_dialogue (m :: ms) = plain_dialogue [m] ++ plain_dialogue ms.
Proof.
  cbn [plain_dialogue].
  destruct (_ && _); reflexivity.
Qed.

(** X18: for messages that hold no [<], the Parser records no tag, and the
    history is the trimmed text of the user and assistant messages whose
    trimmed text is not empty, in the order of the messages; messages of
    any other role leave no trace. *)
Theorem plain_messages_history (env : Env) (msgs : list Message) :
  (forall m, In m msgs -> ~ In LT (msg_content m)) ->
  presetInstructions (parse env msgs) = []
  /\ characterSettings (parse env msgs) = []
  /\ chatHistory (parse env msgs) = plain_dialogue msgs.
Proof.
  intros H.
  assert (forall a,
            fold_left visit msgs a
            = {| acc_preset := acc_preset a;
                 acc_character := acc_character a;
                 acc_history := acc_history a ++ plain_dialogue msgs |})
    as F.
  { induction msgs as [|m ms IH]; intros a.
    - cbn; rewrite app_nil_r; now destruct a.
    - cbn [fold_left].
      rewrite IH by (intros m' Hm; apply H; now right).
      rewrite (visit_plain a m) by (apply H; now left).
      cbn [acc_preset acc_character acc_history].
      now rewrite <- app_assoc, <- plain_dialogue_cons. }
  unfold parse; rewrite F; repeat split.
Qed.

Lemma extract_fold (k : jsstring) (els : list (jsstring * jsstring)) :
  forall acc,
    rec_get k
      (fold_left (fun tags m => rec_set (fst m) (trim (snd m)) tags) els acc)
    = match last_inner k els with
      | Some v => Some (trim v)
      | None => rec_get k acc
      end.
Proof.
  induction els as [|[n v] els IH]; intros acc; [reflexivity|].
  cbn [fold_left last_inner fst snd]; rewrite IH.
  destruct (last_inner k els); [reflexivity|].
  destruct (JS.eqb k n) eqn:E.
  - apply eqb_eq in E; subst n; apply rec_get_set_same.
  - apply rec_get_set_other; intros ->; now rewrite eqb_refl in E.
Qed.

(** X19: when a message holds several spans of one name, the tags record
    the trimmed inner text of the last one (for names other than
    [__proto__], which no assignment can make a key). *)
Theorem extract_last_wins (pieces : list Piece) (k : jsstring) :
  Forall well_formed pieces ->
  k <> PROTO ->
  rec_get k (extractXmlTags (render pieces))
  = option_map trim (last_inner k (elements pieces)).
Proof.
  intros H _; unfold extractXmlTags.
  rewrite (exec_all_elements pieces H), extract_fold.
  now destruct (last_inner k (elements pieces)).
Qed.

End ParserMore.

Lemma user_input_is_last_with_text_witness :
  userInput
    (Parser.parse env_none
       ([user_says (lit "first")]
        ++ user_says (lit "second")
           :: [user_says (lit "<b>x</b>");
               {| role := ASSISTANT; msg_content := lit "reply" |}]))
  = lit "second".
Proof.
  refine (proj1 (user_input_is_last_with_text env_none)
            [user_says (lit "first")] (user_says (lit "second"))
            [user_says (lit "<b>x</b>");
             {| role := ASSISTANT; msg_content := lit "reply" |}]
            eq_refl _ _).
  - vm_compute; discriminate.
  - intros m' [<- | [<- | []]] H; [reflexivity | discriminate].
Defined.

Lemma parser_records_catalogued_tags_witness :
  In (lit "fiction_style") Parser.PRESET_TAGS.
Proof.
  apply (proj1 (parser_records_catalogued_tags env_none
                  [user_says styled_hello])).
  vm_compute; discriminate.
Defined.

Lemma plain_messages_history_witness :
  chatHistory
    (Parser.parse env_none
       [user_says (lit " Hi "); {| role := lit "system";
                                   msg_content := lit "rules" |};
        {| role := ASSISTANT; msg_content := lit "Hello" |}])
  = [user_says (lit "Hi");
     {| role := ASSISTANT; msg_content := lit "Hello" |}].
Proof.
  refine (proj2 (proj2 (plain_messages_history env_none _ _))).
  intros m [<- | [<- | [<- | []]]]; vm_compute;
    intros H; repeat (destruct H as [H | H]; [discriminate|]); exact H.
Defined.

Lemma extract_last_wins_witness :
  rec_get (lit "char") (Parser.extractXmlTags (render tagged_twice))
  = Some (lit "new").
Proof.
  refine (extract_last_wins tagged_twice (lit "char") _ _).
  - repeat constructor; simpl; try discriminate;
      intros H; repeat (destruct H as [H | H]; [discriminate|]); exact H.
  - discriminate.
Defined.

(** ** Tags that do not pair up *)

Section UnpairedTags.

Import Parser.

Lemma word_not_LT (n : jsstring) : forallb is_word n = true -> ~ In LT n.
Proof.
  induction n as [|c n IH]; cbn [forallb In]; [tauto|].
  intros H; apply andb_prop in H as [Hc Hn].
  intros [-> | H]; [discriminate | now apply IH].
Qed.

Lemma not_In_app (c : char) (s t : jsstring) :
  ~ In c s -> ~ In c t -> ~ In c (s ++ t).
Proof. intros Hs Ht H; apply in_app_or in H as [H | H]; auto. Qed.

Lemma not_In_cons (c d : char) (s : jsstring) :
  d <> c -> ~ In c s -> ~ In c (d :: s).
Proof. intros Hd Hs [H | H]; auto. Qed.

Lemma lazy_until_close_text (t : jsstring) :
  ~ In LT t -> lazy_until_close t = None.
Proof.
  induction t as [|c t IH]; intros H; [reflexivity|].
  cbn [lazy_until_close].
  rewrite close_tag_head by (intros ->; apply H; now left).
  apply IH; intros Hc; apply H; now right.
Qed.

Lemma lazy_until_text (closing t : jsstring) :
  ~ In LT t -> lazy_until (LT :: closing) t = None.
Proof.
  induction t as [|c t IH]; intros H; [reflexivity|].
  cbn [lazy_until strip_prefix].
  destruct (N.eqb_spec LT c) as [<- | _]; [elim H; now left|].
  rewrite IH; [reflexivity | intros Hc; apply H; now right].
Qed.

Lemma prefix_mismatch (a : jsstring) :
  forall b rest,
    forallb is_word a = true -> forallb is_word b = true -> a <> b ->
    strip_prefix (a ++ [GT]) (b ++ GT :: rest) = None.
Proof.
  induction a as [|x a IH]; intros [|y b] rest Ha Hb Hab;
    cbn [app strip_prefix forallb] in *.
  - now elim Hab.
  - apply andb_prop in Hb as [Hy _].
    destruct (N.eqb_spec GT y) as [<- | _]; [discriminate | reflexivity].
  - apply andb_prop in Ha as [Hx _].
    destruct (N.eqb_spec x GT) as [-> | _]; [discriminate | reflexivity].
  - apply andb_prop in Ha as [_ Ha]; apply andb_prop in Hb as [_ Hb].
    destruct (N.eqb_spec x y) as [-> | _]; [|reflexivity].
    apply IH; auto; intros ->; now elim Hab.
Qed.

Lemma lazy_until_cons (closing : jsstring) (c : char) (s : jsstring) :
  lazy_until closing (c :: s)
  = match strip_prefix closing (c :: s) with
    | Some rest => Some ([], rest)
    | None =>
        match lazy_until closing s with
        | Some (inner, rest) => Some (c :: inner, rest)
        | None => None
        end
    end.
Proof. reflexivity. Qed.

Lemma lazy_until_mismatch (a b inner rest : jsstring) :
  forallb is_word a = true -> forallb is_word b = true -> a <> b ->
  ~ In LT inner -> ~ In LT rest ->
  lazy_until ([LT; SLASH] ++ a ++ [GT])
    (inner ++ LT :: SLASH :: b ++ GT :: rest) = None.
Proof.
  intros Ha Hb Hab Hi Hr; induction inner as [|c inner IH].
  - assert (~ In LT (SLASH :: b ++ GT :: rest)) as Ht.
    { apply not_In_cons; [discriminate|].
      apply not_In_app; [now apply word_not_LT|].
      apply not_In_cons; [discriminate | exact Hr]. }
    cbn [app]; rewrite lazy_until_cons.
    rewrite (lazy_until_text (SLASH :: a ++ [GT]) _ Ht).
    cbn [strip_prefix]; rewrite !N.eqb_refl.
    now rewrite (prefix_mismatch a b rest Ha Hb Hab).
  - cbn [app lazy_until strip_prefix].
    destruct (N.eqb_spec LT c) as [<- | _]; [elim Hi; now left|].
    cbn [app] in IH; rewrite IH; [reflexivity|].
    intros Hc; apply Hi; now right.
Qed.

Lemma exec_all_none (c : char) (s : jsstring) :
  match_element (c :: s) = None -> exec_all 0 (c :: s) = exec_all 0 s.
Proof. intros H; cbn [exec_all]; now rewrite H. Qed.

(** X20: an opening tag that no closing tag follows is removed from the
    clean text by itself, the text around it is kept, and the tag is
    recorded under no name. *)
Theorem unclosed_tag_dropped (n before after : jsstring) :
  tag_name n -> ~ In LT before -> ~ In LT after ->
  stripXmlTags (before ++ opening n ++ after) = trim (before ++ after)
  /\ extractXmlTags (before ++ opening n ++ after) = [].
Proof.
  intros [Hn Hw] Hb Ha.
  assert (~ In LT (n ++ GT :: after)) as Hrest.
  { apply not_In_app; [now apply word_not_LT|].
    apply not_In_cons; [discriminate | exact Ha]. }
  unfold opening; cbn [app]; rewrite <- app_assoc; cbn [app].
  split.
  - unfold stripXmlTags.
    assert (remove_all match_span 0 (before ++ LT :: n ++ GT :: after)
            = before ++ LT :: n ++ GT :: after) as ->.
    { rewrite remove_all_text by (auto using match_span_head).
      f_equal; cbn [remove_all].
      unfold match_span at 1; rewrite (open_tag_name n after Hn Hw).
      rewrite (lazy_until_close_text after Ha).
      f_equal.
      rewrite <- (app_nil_r (n ++ GT :: after)) at 1.
      rewrite remove_all_text by (auto using match_span_head).
      apply app_nil_r. }
    rewrite remove_all_text by (auto using match_open_head).
    change (LT :: n ++ GT :: after) with (LT :: n ++ [GT] ++ after).
    rewrite app_assoc.
    rewrite (remove_all_match match_open LT (n ++ [GT]) after).
    + now rewrite (remove_open_text after Ha).
    + rewrite <- app_assoc; cbn [app]; unfold match_open.
      now rewrite (open_tag_name n after Hn Hw).
  - unfold extractXmlTags.
    rewrite (exec_all_text before _ Hb); cbn [exec_all].
    unfold match_element; rewrite (open_tag_name n after Hn Hw).
    change ([LT; SLASH] ++ n ++ [GT]) with (LT :: (SLASH :: n ++ [GT])).
    rewrite (lazy_until_text _ after Ha).
    rewrite <- (app_nil_r (n ++ GT :: after)).
    rewrite (exec_all_text _ [] Hrest); reflexivity.
Qed.

(** X21: a span opened under one name and closed under another is removed
    from the clean text together with its inner text, yet it is recorded
    under neither name: what it held reaches no part of the parsed
    input. *)
Theorem mismatched_span_lost (a b before inner after : jsstring) :
  tag_name a -> tag_name b -> a <> b ->
  ~ In LT before -> ~ In LT inner -> ~ In LT after ->
  stripXmlTags (before ++ opening a ++ inner ++ closing b ++ after)
  = trim (before ++ after)
  /\ extractXmlTags (before ++ opening a ++ inner ++ closing b ++ after)
     = [].
Proof.
  intros [Ha Hwa] [Hb Hwb] Hab Hbe Hin Haf.
  unfold opening, closing; cbn [app].
  rewrite <- !app_assoc; cbn [app].
  split.
  - unfold stripXmlTags.
    assert (remove_all match_span 0
              (before ++ LT :: a ++ GT :: inner
                      ++ LT :: SLASH :: b ++ GT :: after)
            = before ++ after) as ->.
    { rewrite remove_all_text by (auto using match_span_head).
      f_equal.
      assert (a ++ GT :: inner ++ LT :: SLASH :: b ++ GT :: after
              = (a ++ GT :: inner ++ LT :: SLASH :: b ++ [GT]) ++ after)
        as E.
      { repeat (rewrite <- app_assoc; cbn [app]); reflexivity. }
      rewrite E, remove_all_match.
      - rewrite <- (app_nil_r after) at 1.
        rewrite remove_all_text by (auto using match_span_head).
        apply app_nil_r.
      - rewrite <- E; unfold match_span.
        rewrite (open_tag_name a _ Ha Hwa).
        apply lazy_until_close_inner; auto. }
    rewrite remove_open_text; [reflexivity | now apply not_In_app].
  - unfold extractXmlTags.
    rewrite (exec_all_text before _ Hbe).
    rewrite exec_all_none.
    2:{ unfold match_element; rewrite (open_tag_name a _ Ha Hwa).
        now rewrite (lazy_until_mismatch a b inner after Hwa Hwb Hab Hin Haf). }
    assert (a ++ GT :: inner ++ LT :: SLASH :: b ++ GT :: after
            = (a ++ GT :: inner) ++ LT :: SLASH :: b ++ GT :: after) as ->
        by (rewrite <- app_assoc; reflexivity).
    rewrite exec_all_text.
    2:{ apply not_In_app; [now apply word_not_LT|].
        apply not_In_cons; [discriminate | exact Hin]. }
    rewrite exec_all_none.
    2:{ unfold match_element, open_tag.
        rewrite N.eqb_refl; cbn [span_word].
        now change (is_word SLASH) with false. }
    rewrite <- (app_nil_r (SLASH :: b ++ GT :: after)).
    rewrite exec_all_text; [reflexivity|].
    apply not_In_cons; [discriminate|].
    apply not_In_app; [now apply word_not_LT|].
    apply not_In_cons; [discriminate | exact Haf].
Qed.

End UnpairedTags.

Lemma unclosed_tag_dropped_witness :
  Parser.stripXmlTags (lit "Hi " ++ opening (lit "br") ++ lit "there")
  = lit "Hi there"
  /\ Parser.extractXmlTags (lit "Hi " ++ opening (lit "br") ++ lit "there")
     = [].
Proof.
  refine (unclosed_tag_dropped (lit "br") (lit "Hi ") (lit "there") _ _ _).
  - split; [discriminate | reflexivity].
  - vm_compute; intros H;
      repeat (destruct H as [H | H]; [discriminate|]); exact H.
  - vm_compute; intros H;
      repeat (destruct H as [H | H]; [discriminate|]); exact H.
Defined.

Lemma mismatched_span_lost_witness :
  Parser.stripXmlTags
    (lit "Hi " ++ opening (lit "char") ++ lit "Alice" ++ closing (lit "user")
     ++ lit " there")
  = lit "Hi  there"
  /\ Parser.extractXmlTags
       (lit "Hi " ++ opening (lit "char") ++ lit "Alice"
        ++ closing (lit "user") ++ lit " there")
     = [].
Proof.
  refine (mismatched_span_lost (lit "char") (lit "user") (lit "Hi ")
            (lit "Alice") (lit " there") _ _ _ _ _ _).
  - split; [discriminate | reflexivity].
  - split; [discriminate | reflexivity].
  - discriminate.
  - vm_compute; intros H;
      repeat (destruct H as [H | H]; [discriminate|]); exact H.
  - vm_compute; intros H;
      repeat (destruct H as [H | H]; [discriminate|]); exact H.
  - vm_compute; intros H;
      repeat (destruct H as [H | H]; [discriminate|]); exact H.
Defined.

(** ** The rule-based Narrator *)

Section RuleBased.

Import Narrator.

Lemma span_word_words (s : jsstring) :
  forallb is_word (fst (span_word s)) = true.
Proof.
  induction s as [|c s IH]; [reflexivity|].
  cbn [span_word]; destruct (is_word c) eqn:E; [|reflexivity].
  destruct (span_word s) as [w r]; cbn [fst forallb] in *.
  now rewrite E, IH.
Qed.

Lemma match_name_word (s w : jsstring) :
  match_name s = Some w -> w <> [] /\ forallb is_word w = true.
Proof.
  unfold match_name.
  destruct s as [|n [|a [|m [|e r]]]]; try discriminate.
  destruct (_ && _ && _ && _); [|discriminate].
  set (r1 := skip_quote _).
  pose proof (span_word_words r1) as H.
  destruct (fst (span_word r1)) as [|c t]; [discriminate|].
  intros E; injection E as <-; split; [discriminate | exact H].
Qed.

Lemma find_name_word (s w : jsstring) :
  find_name s = Some w -> w <> [] /\ forallb is_word w = true.
Proof.
  induction s as [|c s IH]; cbn [find_name].
  - destruct (match_name []) as [x|] eqn:E; [|discriminate].
    intros H; injection H as <-; exact (match_name_word _ _ E).
  - destruct (match_name (c :: s)) as [x|] eqn:E; [|exact IH].
    intros H; injection H as <-; exact (match_name_word _ _ E).
Qed.

Lemma extractCharacters_cases (cs : Rec jsstring) :
  extractCharacters cs
  = match find_name (charInfo cs) with
    | Some n => [(n, in_scene n)]
    | None => []
    end.
Proof.
  unfold extractCharacters; fold (charInfo cs).
  destruct (find_name (charInfo cs)); reflexivity.
Qed.

(** X22: the rule-based extraction yields at most one character; it is
    filed under its own name, a non-empty run of word characters, and is
    marked present.  A non-empty [char] setting that names nobody hides a
    name given in [info_settings]. *)
Theorem extractCharacters_shape (cs : Rec jsstring) :
  length (extractCharacters cs) <= 1
  /\ (forall k c,
        In (k, c) (extractCharacters cs) ->
        k = name c /\ present c = true /\ k <> []
        /\ forallb is_word k = true)
  /\ (forall v,
        rec_get (lit "char") cs = Some v -> v <> [] ->
        find_name v = None -> extractCharacters cs = []).
Proof.
  rewrite extractCharacters_cases.
  split; [|split].
  - destruct (find_name (charInfo cs)); cbn [length]; lia.
  - intros k c.
    destruct (find_name (charInfo cs)) as [n|] eqn:E; [|intros []].
    intros [H | []]; injection H as <- <-.
    destruct (find_name_word _ _ E) as [Hn Hw].
    repeat split; auto.
  - intros v Hv Hne Hf; unfold charInfo; rewrite Hv.
    cbn [opt_or]; destruct v as [|c v]; [now elim Hne|].
    cbn [or_else truthy]; now rewrite Hf.
Qed.

Lemma rec_set_fresh {T} (k : jsstring) (v : T) (o : Rec T) :
  ~ In k (map fst o) -> rec_set k v o = o ++ [(k, v)].
Proof.
  induction o as [|[k' v'] o IH]; cbn [rec_set map fst In app];
    [reflexivity|].
  intros H; destruct (JS.eqb k k') eqn:E.
  - apply eqb_eq in E; subst k'; elim H; now left.
  - rewrite IH; [reflexivity | intros Hin; apply H; now right].
Qed.

Lemma rec_copy {T} (a : Rec T) :
  forall acc,
    NoDup (map fst (acc ++ a)) ->
    fold_left (fun acc kv => rec_set (fst kv) (snd kv) acc) a acc
    = acc ++ a.
Proof.
  induction a as [|[k v] a IH]; intros acc H; cbn [fold_left fst snd].
  - now rewrite app_nil_r.
  - rewrite rec_set_fresh.
    + rewrite IH; rewrite <- app_assoc; [reflexivity | exact H].
    + rewrite map_app in H; apply NoDup_remove_2 in H.
      intros Hin; apply H, in_or_app; now left.
Qed.

Lemma spread_one {T} (a : Rec T) (n : jsstring) (v : T) :
  NoDup (map fst a) ->
  rec_spread a [] = a /\ rec_spread a [(n, v)] = rec_set n v a.
Proof.
  intros H; unfold rec_spread; cbn [fold_left fst snd].
  now rewrite (rec_copy a [] H).
Qed.

(** X23: on top of a world state the rule-based update removes no
    character and changes none but the extracted one; that one is
    replaced by a fresh record, present and without description, whatever
    the world state held under its name. *)
Theorem rule_update_characters (p : ParsedInput) (w : WorldState) :
  NoDup (map fst (characters w)) ->
  (forall k,
     find_name (charInfo (characterSettings p)) <> Some k ->
     rec_get k (characters (rule_update p (Some w)))
     = rec_get k (characters w))
  /\ (forall n,
        find_name (charInfo (characterSettings p)) = Some n ->
        n <> PROTO ->
        rec_get n (characters (rule_update p (Some w)))
        = Some (in_scene n)).
Proof.
  intros H; unfold rule_update; cbn [characters].
  rewrite extractCharacters_cases.
  split.
  - intros k Hk.
    destruct (find_name (charInfo (characterSettings p))) as [n|].
    + rewrite (proj2 (spread_one (characters w) n (in_scene n) H)).
      apply rec_get_set_other; intros ->; now elim Hk.
    + now rewrite (proj1 (spread_one (characters w) [] (in_scene []) H)).
  - intros n -> _.
    rewrite (proj2 (spread_one (characters w) n (in_scene n) H)).
    apply rec_get_set_same.
Qed.

Lemma slice_last_snoc {A} (n : nat) (xs : list A) (x : A) :
  slice_last (S n) (xs ++ [x]) = slice_last n xs ++ [x].
Proof.
  unfold slice_last; rewrite length_app; cbn [length].
  replace (length xs + 1 - S n) with (length xs - n) by lia.
  rewrite skipn_app.
  replace (length xs - n - length xs) with 0 by lia.
  reflexivity.
Qed.

(** X24: the rule-based update always records the new event, after the
    last nine events of the state it starts from, in their order; the
    event holds at most fifty code units of the input. *)
Theorem rule_update_events (p : ParsedInput) (current : option WorldState) :
  recentEvents (rule_update p current)
  = slice_last 9 (match current with
                  | Some w => recentEvents w
                  | None => []
                  end) ++ [event_of p]
  /\ length (event_of p) = 9 + Nat.min 50 (length (userInput p)).
Proof.
  split.
  - unfold rule_update; cbn [recentEvents].
    fold (event_of p); apply slice_last_snoc.
  - unfold event_of, slice_to.
    rewrite !length_app, length_firstn.
    assert (length (lit "用户输入: ") = 6) as -> by (vm_compute; reflexivity).
    assert (length (lit "...") = 3) as -> by (vm_compute; reflexivity).
    lia.
Qed.

End RuleBased.

Lemma extractCharacters_shape_witness :
  Narrator.extractCharacters settings_hidden_name = [].
Proof.
  refine (proj2 (proj2 (extractCharacters_shape settings_hidden_name))
            (lit "Alice") eq_refl _ eq_refl).
  discriminate.
Defined.

Lemma rule_update_characters_witness :
  rec_get (lit "Alice")
    (characters (Narrator.rule_update parsed_alice (Some world_alice_away)))
  = Some (in_scene (lit "Alice"))
  /\ rec_get (lit "B")
       (characters
          (Narrator.rule_update parsed_alice (Some world_alice_away)))
     = Some (snd (here "B")).
Proof.
  assert (NoDup (map fst (characters world_alice_away))) as H.
  { repeat constructor; simpl; intros F;
      repeat (destruct F as [F | F]; [discriminate|]); exact F. }
  split.
  - apply (proj2 (rule_update_characters parsed_alice world_alice_away H));
      [reflexivity | discriminate].
  - apply (proj1 (rule_update_characters parsed_alice world_alice_away H)).
    vm_compute; discriminate.
Defined.

(** ** The flag of a generated output *)

Section FormatFlag.

Variable env : Env.
Variable messages : list Message.

Lemma output_of_sound (who : jsstring) (outcome : option Response) :
  flag_sound (output_of who outcome).
Proof.
  destruct outcome as [[| |text]|]; cbn [output_of].
  - right; split; [reflexivity | right; right; reflexivity].
  - right; split; [reflexivity | left; reflexivity].
  - destruct text as [|c t]; [right | left]; cbn;
      split; auto; discriminate.
  - right; split; [reflexivity | right; left; reflexivity].
Qed.

Lemma fan_out_sound (k : nat) (ctxs preset : Rec jsstring)
    (names : list jsstring) :
  forall i o,
    In o (fst (Persona.fan_out env k i names ctxs preset)) ->
    flag_sound o.
Proof.
  induction names as [|who rest IH]; intros i o; [intros []|].
  rewrite fan_out_cons; intros [<- | Hin]; [|exact (IH _ _ Hin)].
  apply output_of_sound.
Qed.

(** X25: in every state a run reaches, an output flagged valid has
    content, and an output flagged invalid is empty or one of the two
    placeholders; so the flag alone decides what the deterministic
    composition keeps. *)
Theorem format_flag_sound (c : Config) :
  reachable env messages c ->
  forall o,
    In o (personaOutputs (state c)) ->
    flag_sound o /\ kept o = formatValid o.
Proof.
  intros Hr.
  assert (forall o, In o (personaOutputs (state c)) -> flag_sound o) as H.
  { induction Hr as [|c Hc IH Hn]; [intros o []|].
    rewrite step_state.
    destruct (at_node c) eqn:E; cbn [node_fn].
    - exact IH.
    - cbn [apply_update personaOutputs].
      destruct (narrator_writes env (state c)) as (_ & _ & ->); exact IH.
    - cbn [apply_update personaOutputs].
      destruct (director_writes env (state c)) as (_ & _ & -> & _);
        exact IH.
    - cbn [apply_update personaOutputs].
      destruct (parsedInput (state c)) as [p|] eqn:Hp.
      + rewrite (personaNode_outputs env (executions c) (state c) p Hp).
        cbn [reduce]; unfold reduce_personaOutputs.
        intros o Ho; apply in_app_or in Ho as [Ho | Ho]; auto.
        exact (fan_out_sound _ _ _ _ _ _ Ho).
      + unfold Persona.personaNode; rewrite Hp.
        cbn [ret fst Persona.outputs p_personaOutputs reduce].
        unfold reduce_personaOutputs; rewrite app_nil_r; exact IH.
    - fold (evaluated (state c)); rewrite evaluated_personaOutputs;
        exact IH.
    - destruct (composer_shape env (state c)) as (text & ->); exact IH.
    - now elim Hn. }
  intros o Ho; split; [exact (H o Ho)|].
  unfold kept.
  destruct (H o Ho) as [[-> Hc] | [-> _]]; [|reflexivity].
  destruct (content o); [now elim Hc | reflexivity].
Qed.

End FormatFlag.

Lemma format_flag_sound_witness :
  flag_sound (Persona.unconfigured (lit "Alice"))
  /\ kept (Persona.unconfigured (lit "Alice")) = false.
Proof.
  apply (format_flag_sound env_none msgs_alice
           (steps env_none 4 (start msgs_alice))).
  - apply steps_reachable; constructor.
  - vm_compute; left; reflexivity.
Defined.

(** ** Prompt templates *)

Section PromptFacts.

Import Prompt.

Lemma span_word_app (s : jsstring) :
  s = fst (span_word s) ++ snd (span_word s).
Proof.
  induction s as [|c s IH]; [reflexivity|].
  cbn [span_word]; destruct (is_word c); [|reflexivity].
  destruct (span_word s) as [w r]; cbn [fst snd app] in *.
  now rewrite <- IH.
Qed.

Lemma match_variable_head (c : char) (s : jsstring) :
  c <> LBRACE -> match_variable (c :: s) = None.
Proof.
  intros H; unfold match_variable.
  destruct s as [|b r]; [reflexivity|].
  destruct (N.eqb_spec c LBRACE) as [E | _]; [now elim H | reflexivity].
Qed.

Lemma match_variable_name (n rest : jsstring) :
  tag_name n ->
  match_variable (placeholder n ++ rest) = Some (n, rest).
Proof.
  intros [Hn Hw]; unfold placeholder, match_variable.
  cbn [app]; rewrite !N.eqb_refl; cbn [andb].
  rewrite <- app_assoc; cbn [app].
  rewrite (span_word_name n (RBRACE :: rest) RBRACE Hw eq_refl).
  destruct n as [|c n]; [now elim Hn|].
  now rewrite !N.eqb_refl.
Qed.

Lemma match_variable_inv (s w rest : jsstring) :
  match_variable s = Some (w, rest) -> s = placeholder w ++ rest.
Proof.
  unfold match_variable, placeholder.
  destruct s as [|a [|b r]]; try discriminate.
  destruct (N.eqb_spec a LBRACE) as [-> |]; [|discriminate].
  destruct (N.eqb_spec b LBRACE) as [-> |]; [|discriminate].
  cbn [andb]; pose proof (span_word_app r) as E.
  destruct (span_word r) as [[|x w'] [|c [|d r']]]; try discriminate.
  destruct (N.eqb_spec c RBRACE) as [-> |]; [|discriminate].
  destruct (N.eqb_spec d RBRACE) as [-> |]; [|discriminate].
  cbn [andb fst snd] in *; intros H; injection H as <- <-.
  rewrite E; cbn [app]; rewrite <- app_assoc; reflexivity.
Qed.

Lemma replace_from_skip (vars : Vars) (x rest : jsstring) :
  replace_from vars (length x) (x ++ rest) = replace_from vars 0 rest.
Proof.
  induction x as [|c x IH]; [reflexivity | exact IH].
Qed.

Lemma replace_from_text (vars : Vars) (t rest : jsstring) :
  ~ In LBRACE t ->
  replace_from vars 0 (t ++ rest) = t ++ replace_from vars 0 rest.
Proof.
  intros H; induction t as [|c t IH]; [reflexivity|].
  cbn [app replace_from].
  rewrite match_variable_head by (intros ->; apply H; now left).
  rewrite IH by (intros Hin; apply H; now right); reflexivity.
Qed.

(** One step of the replacement at a match. *)
Lemma replace_from_match (vars : Vars) (w rest : jsstring) (c : char)
    (s' : jsstring) :
  match_variable (c :: s') = Some (w, rest) ->
  replace_from vars 0 (c :: s')
  = match vars w with
    | Some value => value
    | None => placeholder w
    end ++ replace_from vars 0 rest.
Proof.
  intros H; cbn [replace_from]; rewrite H; f_equal.
  apply match_variable_inv in H; unfold placeholder in H.
  cbn [app] in H; injection H as _ ->.
  replace (LBRACE :: (w ++ [RBRACE; RBRACE]) ++ rest)
    with ((LBRACE :: w ++ [RBRACE; RBRACE]) ++ rest) by reflexivity.
  rewrite length_app, Nat.add_sub.
  apply replace_from_skip.
Qed.


(** X27: a template of plain text and variables is rendered chunk by
    chunk, in one pass: plain text is kept, a defined variable gives its
    value, an undefined one stays; a value is not searched for variables
    again. *)
Theorem replaceVariables_single_pass (vars : Vars) (chunks : list Chunk) :
  Forall chunk_ok chunks ->
  replaceVariables (render_template chunks) vars
  = concat (map (substitute vars) chunks).
Proof.
  unfold replaceVariables, render_template.
  induction 1 as [|[text | n] chunks Hc _ IH]; [reflexivity| |];
    cbn [map concat render_chunk substitute].
  - rewrite (replace_from_text vars text _ Hc), IH; reflexivity.
  - pose proof (match_variable_name n (concat (map render_chunk chunks)) Hc)
      as M.
    unfold placeholder in M |- *; cbn [app] in M |- *.
    rewrite (replace_from_match vars n _ _ _ M), IH; reflexivity.
Qed.

End PromptFacts.


Lemma replaceVariables_single_pass_witness :
  Prompt.replaceVariables (render_template greeting) vars_ab
  = lit "Hi {{b}}, {{c}}".
Proof.
  refine (replaceVariables_single_pass vars_ab greeting _).
  repeat constructor; simpl; try discriminate;
    intros H; repeat (destruct H as [H | H]; [discriminate|]); exact H.
Defined.

(** ** HTML escaping *)

Section HtmlFacts.

Import Html.

Lemma replace_char_app (c : char) (r a b : jsstring) :
  replace_char c r (a ++ b) = replace_char c r a ++ replace_char c r b.
Proof. apply flat_map_app. Qed.

Lemma escapeHtml_app (a b : jsstring) :
  escapeHtml (a ++ b) = escapeHtml a ++ escapeHtml b.
Proof. unfold escapeHtml; now rewrite !replace_char_app. Qed.

Lemma escapeHtml_one (c : char) : escapeHtml [c] = escape_char c.
Proof.
  unfold escape_char.
  destruct (N.eqb_spec c AMP) as [-> | H1]; [reflexivity|].
  destruct (N.eqb_spec c Parser.LT) as [-> | H2]; [reflexivity|].
  destruct (N.eqb_spec c Parser.GT) as [-> | H3]; [reflexivity|].
  destruct (N.eqb_spec c QUOT) as [-> | H4]; [reflexivity|].
  destruct (N.eqb_spec c APOS) as [-> | H5]; [reflexivity|].
  apply N.eqb_neq in H1, H2, H3, H4, H5.
  unfold escapeHtml, replace_char; cbn [flat_map app].
  rewrite H1; cbn [flat_map app]; rewrite H2; cbn [flat_map app].
  rewrite H3; cbn [flat_map app]; rewrite H4; cbn [flat_map app].
  now rewrite H5.
Qed.

Lemma escapeHtml_cons (c : char) (s : jsstring) :
  escapeHtml (c :: s) = escape_char c ++ escapeHtml s.
Proof.
  change (c :: s) with ([c] ++ s).
  now rewrite escapeHtml_app, escapeHtml_one.
Qed.

Lemma escape_char_clean (c : char) :
  forallb (fun x => negb (is_markup x)) (escape_char c) = true.
Proof.
  unfold escape_char.
  destruct (N.eqb_spec c AMP) as [-> | H1]; [reflexivity|].
  destruct (N.eqb_spec c Parser.LT) as [-> | H2]; [reflexivity|].
  destruct (N.eqb_spec c Parser.GT) as [-> | H3]; [reflexivity|].
  destruct (N.eqb_spec c QUOT) as [-> | H4]; [reflexivity|].
  destruct (N.eqb_spec c APOS) as [-> | H5]; [reflexivity|].
  apply N.eqb_neq in H2, H3, H4, H5.
  cbn [forallb]; unfold is_markup; now rewrite H2, H3, H4, H5.
Qed.

(** X28: the five replacements in sequence act as one substitution per
    character (an ampersand put in by an entity is not escaped again), the
    result holds no [<], [>] or quote character, and escaping goes through
    concatenation. *)
Theorem escapeHtml_per_character (str : jsstring) :
  escapeHtml str = flat_map escape_char str
  /\ forallb (fun x => negb (is_markup x)) (escapeHtml str) = true
  /\ forall more, escapeHtml (str ++ more)
                  = escapeHtml str ++ escapeHtml more.
Proof.
  split; [|split; [|intros more; apply escapeHtml_app]].
  - induction str as [|c s IH]; [reflexivity|].
    rewrite escapeHtml_cons, IH; reflexivity.
  - induction str as [|c s IH]; [reflexivity|].
    rewrite escapeHtml_cons, forallb_app, IH, escape_char_clean.
    reflexivity.
Qed.

(** The entity or character a text starts with decides the character it
    came from. *)
Lemma escape_char_prefix (c d : char) (s t : jsstring) :
  escape_char c ++ s = escape_char d ++ t -> c = d /\ s = t.
Proof.
  unfold escape_char.
  destruct (N.eqb_spec c AMP) as [-> | C1];
    [|destruct (N.eqb_spec c Parser.LT) as [-> | C2];
      [|destruct (N.eqb_spec c Parser.GT) as [-> | C3];
        [|destruct (N.eqb_spec c QUOT) as [-> | C4];
          [|destruct (N.eqb_spec c APOS) as [-> | C5]]]]];
  (destruct (N.eqb_spec d AMP) as [-> | D1];
    [|destruct (N.eqb_spec d Parser.LT) as [-> | D2];
      [|destruct (N.eqb_spec d Parser.GT) as [-> | D3];
        [|destruct (N.eqb_spec d QUOT) as [-> | D4];
          [|destruct (N.eqb_spec d APOS) as [-> | D5]]]]]);
  vm_compute; intros E; try discriminate E;
    injection E; intros; subst; try (split; reflexivity);
    exfalso;
    match goal with
    | H : _ <> _ |- _ => now elim H
    end.
Qed.

(** X29: escaping loses nothing: two texts with the same escaped form are
    the same text. *)
Theorem escapeHtml_injective (a b : jsstring) :
  escapeHtml a = escapeHtml b -> a = b.
Proof.
  revert b; induction a as [|c a IH]; intros [|d b].
  - reflexivity.
  - rewrite escapeHtml_cons; unfold escape_char.
    destruct (d =? AMP)%N; [discriminate|].
    destruct (d =? Parser.LT)%N; [discriminate|].
    destruct (d =? Parser.GT)%N; [discriminate|].
    destruct (d =? QUOT)%N; [discriminate|].
    destruct (d =? APOS)%N; discriminate.
  - rewrite escapeHtml_cons; unfold escape_char.
    destruct (c =? AMP)%N; [discriminate|].
    destruct (c =? Parser.LT)%N; [discriminate|].
    destruct (c =? Parser.GT)%N; [discriminate|].
    destruct (c =? QUOT)%N; [discriminate|].
    destruct (c =? APOS)%N; discriminate.
  - rewrite !escapeHtml_cons; intros E.
    apply escape_char_prefix in E as [-> E].
    f_equal; apply IH, E.
Qed.

End HtmlFacts.

Lemma escapeHtml_injective_witness :
  lit "<b>&amp;</b>" = [60; 98; 62; 38; 97; 109; 112; 59; 60; 47; 98; 62]%N.
Proof.
  apply (escapeHtml_injective (lit "<b>&amp;</b>")
           [60; 98; 62; 38; 97; 109; 112; 59; 60; 47; 98; 62]%N).
  reflexivity.
Defined.

(** ** The configuration store *)

Section StoreFacts.

Import Storage.

Variable Config : Type.

(** X30: a saved configuration is what the next load returns, whatever
    the backends did.  Once the cache is cleared it comes back only if a
    backend took it: from the host settings when there are any, else from
    IndexedDB when both the save and the load reach it; when only the load
    reaches it, the load returns the record of an earlier save, and when
    it does not, nothing.  A load writes to no backend, and what it
    returns is what the cache holds afterwards. *)
Theorem store_read_your_writes (s : Store Config) (config : Config)
    (saved loaded : bool) :
  fst (load loaded (save saved config s)) = Some config
  /\ fst (load loaded (clearCache (save saved config s)))
     = match multiAgent s with
       | Some _ => Some config
       | None =>
           if loaded then (if saved then Some config else record s)
           else None
       end
  /\ multiAgent (snd (load loaded s)) = multiAgent s
  /\ record (snd (load loaded s)) = record s
  /\ cachedConfig (snd (load loaded s)) = fst (load loaded s).
Proof.
  destruct s as [c m r]; unfold load, save, clearCache, cache.
  cbn [cachedConfig multiAgent record fst snd].
  split; [reflexivity|].
  split.
  { destruct m as [slot|]; [reflexivity|].
    destruct loaded, saved; try reflexivity; now destruct r. }
  destruct c as [c|]; [repeat split|].
  destruct m as [[c'|]|]; [repeat split| |];
    destruct loaded; try (repeat split; fail);
    destruct r; repeat split.
Qed.

End StoreFacts.

Lemma store_read_your_writes_witness :
  fst (Storage.load true
         (Storage.clearCache (Storage.save false 2 store_old_record)))
  = Some 1.
Proof.
  exact (proj1 (proj2 (store_read_your_writes nat store_old_record 2
                         false true))).
Defined.
